(** * BusTub storage core: buffer pool, LRU replacer and B+ tree pages

    A shallow embedding of

      - src/buffer/lru_replacer.cpp
      - src/buffer/buffer_pool_manager.cpp
      - src/storage/page/b_plus_tree_internal_page.cpp
      - src/storage/page/b_plus_tree_leaf_page.cpp

    followed by the properties of these classes.

    Conventions of the model:

      - The C++ [int] types ([frame_id_t], [page_id_t], sizes, indices) are
        read in [Z]; indices are bounded by the slots of a page and the
        frames of a pool.  The pin count is an [int] that a run of fetches
        drives to [INT_MAX]: its increment is written with the wrap-around
        of 32 bits.
      - Every entry point of the buffer pool and of the replacer takes its
        mutex for the whole call, so a call is one atomic transition of the
        state; the per-frame latches are taken and released inside a call.
      - A method of a tree page returns a [result]: a value, a failed
        [assert], or an access outside the page's buffer.  The assertions on
        pointers ([recipient != nullptr], [items != nullptr]) have no
        counterpart, a page or an array being a value here.
      - The first part of the file is the model, module by module as the
        source has classes; the second part has the lemmas and theorems. *)

From stdpp Require Import gmap list.
From Stdlib Require Import ZArith Lia.

Set Warnings "-clear-no-such-hyp".

Local Open Scope Z_scope.

(** ** LRU replacer (lru_replacer.cpp) *)

Module LRUReplacer.

(** [nodes_] is the [std::list<frame_id_t>]: front of the list first.
    [index_] is the [std::unordered_map] from a frame identifier to the
    iterator of its node; the model keeps its key set, the iterator of a key
    [f] being the position of [f] in [nodes_]. *)
Record t : Type := mk {
  num_pages_ : nat;
  nodes_ : list Z;
  index_ : gset Z
}.

(** [LRUReplacer::LRUReplacer(num_pages)] *)
Definition new (num_pages : nat) : t :=
  {| num_pages_ := num_pages; nodes_ := []; index_ := ∅ |}.

(** [nodes_.erase(it)] with [it = index_[frame_id]]: unlinks the node that
    holds [frame_id]. *)
Fixpoint erase_node (frame_id : Z) (l : list Z) : list Z :=
  match l with
  | [] => []
  | x :: l' => if decide (x = frame_id) then l' else x :: erase_node frame_id l'
  end.

(** [bool LRUReplacer::Victim(frame_id_t *frame_id)]: [None] is the [false]
    return, [Some f] is [true] with [*frame_id = f]. *)
Definition Victim (r : t) : option Z * t :=
  match last (nodes_ r) with
  | None => (None, r)
  | Some f =>
      (Some f,
       {| num_pages_ := num_pages_ r;
          nodes_ := removelast (nodes_ r);
          index_ := index_ r ∖ {[f]} |})
  end.

(** [void LRUReplacer::Pin(frame_id_t frame_id)] *)
Definition Pin (frame_id : Z) (r : t) : t :=
  if decide (frame_id ∈ index_ r) then
    {| num_pages_ := num_pages_ r;
       nodes_ := erase_node frame_id (nodes_ r);
       index_ := index_ r ∖ {[frame_id]} |}
  else r.

(** [void LRUReplacer::Unpin(frame_id_t frame_id)] *)
Definition Unpin (frame_id : Z) (r : t) : t :=
  if decide (frame_id ∈ index_ r) then r
  else
    {| num_pages_ := num_pages_ r;
       nodes_ := frame_id :: nodes_ r;
       index_ := {[frame_id]} ∪ index_ r |}.

(** [size_t LRUReplacer::Size()] *)
Definition Size (r : t) : nat := length (nodes_ r).

(** The representation invariant of the class: the index has exactly the
    frames of the list, and no frame is listed twice. *)
Definition wf (r : t) : Prop :=
  NoDup (nodes_ r) ∧ ∀ f, f ∈ index_ r ↔ f ∈ nodes_ r.

(** The states a replacer object can be in. *)
Inductive reachable : t → Prop :=
| reach_new n : reachable (new n)
| reach_Victim r : reachable r → reachable (Victim r).2
| reach_Pin f r : reachable r → reachable (Pin f r)
| reach_Unpin f r : reachable r → reachable (Unpin f r).

End LRUReplacer.

(** ** Block device *)

Module DiskManager.

(** Modelled from the spec: the disk manager (storage/disk/disk_manager.h) is
    not among the sources.  The spec gives its contract: [ReadPage] fills a
    buffer with the page's current on-disk bytes, [WritePage] persists a
    buffer as the page's bytes, [AllocatePage] returns a fresh identifier,
    [DeallocatePage] releases an identifier.  The model keeps the stored
    bytes, the next identifier to hand out, and the calls received, oldest
    first. *)
Inductive call : Type :=
| CallReadPage (page_id : Z)
| CallWritePage (page_id : Z) (buf : list Byte.byte)
| CallAllocatePage (page_id : Z)
| CallDeallocatePage (page_id : Z).

Record t : Type := mk {
  stored : gmap Z (list Byte.byte);
  next_page_id : Z;
  calls : list call
}.

(** Modelled from the spec: [PAGE_SIZE] (common/config.h, missing), the
    size of a page's byte buffer. *)
Definition PAGE_SIZE : nat := 4096%nat.

Definition zero_buffer : list Byte.byte := replicate PAGE_SIZE Byte.x00.
Arguments zero_buffer : simpl never.

Definition ReadPage (page_id : Z) (d : t) : list Byte.byte * t :=
  (default zero_buffer (stored d !! page_id),
   {| stored := stored d; next_page_id := next_page_id d;
      calls := calls d ++ [CallReadPage page_id] |}).

Definition WritePage (page_id : Z) (buf : list Byte.byte) (d : t) : t :=
  {| stored := <[page_id := buf]> (stored d); next_page_id := next_page_id d;
     calls := calls d ++ [CallWritePage page_id buf] |}.

Definition AllocatePage (d : t) : Z * t :=
  (next_page_id d,
   {| stored := stored d; next_page_id := next_page_id d + 1;
      calls := calls d ++ [CallAllocatePage (next_page_id d)] |}).

Definition DeallocatePage (page_id : Z) (d : t) : t :=
  {| stored := stored d; next_page_id := next_page_id d;
     calls := calls d ++ [CallDeallocatePage page_id] |}.

End DiskManager.

(** ** Buffer pool manager (buffer_pool_manager.cpp) *)

Module BufferPoolManager.

(** Modelled from the spec: [INVALID_PAGE_ID] (common/config.h, missing),
    "conventionally the integer sentinel". *)
Definition INVALID_PAGE_ID : Z := -1.

(** Modelled from the spec: the frame class [Page] (storage/page/page.h,
    missing): a byte buffer of the page size with the identifier of the
    resident page, the pin count and the dirty flag.  The reader/writer latch
    is taken and released inside each call and is left out. *)
Record Page : Type := mkPage {
  data_ : list Byte.byte;
  page_id_ : Z;
  pin_count_ : Z;
  is_dirty_ : bool
}.

(** [Page::Page()] *)
Definition new_Page : Page :=
  {| data_ := DiskManager.zero_buffer; page_id_ := INVALID_PAGE_ID;
     pin_count_ := 0; is_dirty_ := false |}.

Definition set_data (buf : list Byte.byte) (pg : Page) : Page :=
  {| data_ := buf; page_id_ := page_id_ pg; pin_count_ := pin_count_ pg;
     is_dirty_ := is_dirty_ pg |}.
Definition set_page_id (page_id : Z) (pg : Page) : Page :=
  {| data_ := data_ pg; page_id_ := page_id; pin_count_ := pin_count_ pg;
     is_dirty_ := is_dirty_ pg |}.
Definition set_pin_count (n : Z) (pg : Page) : Page :=
  {| data_ := data_ pg; page_id_ := page_id_ pg; pin_count_ := n;
     is_dirty_ := is_dirty_ pg |}.
Definition set_is_dirty (b : bool) (pg : Page) : Page :=
  {| data_ := data_ pg; page_id_ := page_id_ pg; pin_count_ := pin_count_ pg;
     is_dirty_ := b |}.

(** [pin_count_] is an [int]: 32 bits, two's complement.  [wrap_int] is the
    value an [int] holds after an arithmetic step on the machines the code
    runs on: a step past [INT_MAX] comes out at [INT_MIN]. *)
Definition INT_MAX : Z := 2147483647.
Definition INT_MIN : Z := -2147483648.
Definition wrap_int (z : Z) : Z := (z - INT_MIN) `mod` 2 ^ 32 + INT_MIN.

(** [Page::ResetMemory()]: [memset(data_, 0, PAGE_SIZE)] *)
Definition ResetMemory (pg : Page) : Page := set_data DiskManager.zero_buffer pg.

Record t : Type := mk {
  pool_size_ : nat;
  pages_ : list Page;
  replacer_ : LRUReplacer.t;
  free_list_ : list Z;
  page_table_ : gmap Z Z;
  disk_manager_ : DiskManager.t
}.

Definition with_pages (x : list Page) (s : t) : t :=
  {| pool_size_ := pool_size_ s; pages_ := x; replacer_ := replacer_ s;
     free_list_ := free_list_ s; page_table_ := page_table_ s;
     disk_manager_ := disk_manager_ s |}.
Definition with_replacer (x : LRUReplacer.t) (s : t) : t :=
  {| pool_size_ := pool_size_ s; pages_ := pages_ s; replacer_ := x;
     free_list_ := free_list_ s; page_table_ := page_table_ s;
     disk_manager_ := disk_manager_ s |}.
Definition with_free_list (x : list Z) (s : t) : t :=
  {| pool_size_ := pool_size_ s; pages_ := pages_ s; replacer_ := replacer_ s;
     free_list_ := x; page_table_ := page_table_ s;
     disk_manager_ := disk_manager_ s |}.
Definition with_page_table (x : gmap Z Z) (s : t) : t :=
  {| pool_size_ := pool_size_ s; pages_ := pages_ s; replacer_ := replacer_ s;
     free_list_ := free_list_ s; page_table_ := x;
     disk_manager_ := disk_manager_ s |}.
Definition with_disk (x : DiskManager.t) (s : t) : t :=
  {| pool_size_ := pool_size_ s; pages_ := pages_ s; replacer_ := replacer_ s;
     free_list_ := free_list_ s; page_table_ := page_table_ s;
     disk_manager_ := x |}.

(** [pages_[frame_id]].  An index outside [0, pool_size) is undefined in the
    source; here such a read gives a blank frame and such a write changes
    nothing.  [reachable_in_range] below shows that no call on a pool built by
    the constructor uses such an index. *)
Definition page_at (s : t) (frame_id : Z) : Page :=
  if decide (0 ≤ frame_id)
  then default new_Page (pages_ s !! Z.to_nat frame_id)
  else new_Page.

Definition update_page (g : Page → Page) (frame_id : Z) (s : t) : t :=
  if decide (0 ≤ frame_id)
  then with_pages (alter g (Z.to_nat frame_id) (pages_ s)) s
  else s.

(** [BufferPoolManager::BufferPoolManager(pool_size, disk_manager, log_manager)] *)
Definition new (pool_size : nat) (disk_manager : DiskManager.t) : t :=
  {| pool_size_ := pool_size;
     pages_ := replicate pool_size new_Page;
     replacer_ := LRUReplacer.new pool_size;
     free_list_ := seqZ 0 (Z.of_nat pool_size);
     page_table_ := ∅;
     disk_manager_ := disk_manager |}.

(** [bool FindAvailablePage(frame_id_t *frame_id)] *)
Definition FindAvailablePage (s : t) : option Z * t :=
  match free_list_ s with
  | frame_id :: rest => (Some frame_id, with_free_list rest s)
  | [] =>
      let '(v, r) := LRUReplacer.Victim (replacer_ s) in
      (v, with_replacer r s)
  end.

(** [void FlushPageIfPossible(Page *page)], the page given by its frame *)
Definition FlushPageIfPossible (frame_id : Z) (s : t) : t :=
  let page := page_at s frame_id in
  if is_dirty_ page then
    let s := with_disk
               (DiskManager.WritePage (page_id_ page) (data_ page) (disk_manager_ s)) s in
    update_page (set_is_dirty false) frame_id s
  else s.

(** [Page *FetchPageImpl(page_id_t page_id)]: the result is the frame of the
    returned [Page], [None] for [nullptr]. *)
Definition FetchPageImpl (page_id : Z) (s : t) : option Z * t :=
  match page_table_ s !! page_id with
  | Some frame_id =>
      let s := with_replacer (LRUReplacer.Pin frame_id (replacer_ s)) s in
      let s := update_page (λ pg, set_pin_count (wrap_int (pin_count_ pg + 1)) pg)
                 frame_id s in
      (Some frame_id, s)
  | None =>
      match FindAvailablePage s with
      | (None, s) => (None, s)
      | (Some replace_frame_id, s) =>
          let s := with_page_table
                     (delete (page_id_ (page_at s replace_frame_id)) (page_table_ s)) s in
          let s := with_page_table (<[page_id := replace_frame_id]> (page_table_ s)) s in
          let s := FlushPageIfPossible replace_frame_id s in
          let '(buf, d) := DiskManager.ReadPage page_id (disk_manager_ s) in
          let s := update_page (set_data buf) replace_frame_id (with_disk d s) in
          let s := update_page (set_page_id page_id) replace_frame_id s in
          let s := update_page (set_pin_count 1) replace_frame_id s in
          (Some replace_frame_id, s)
      end
  end.

(** [bool UnpinPageImpl(page_id_t page_id, bool is_dirty)]: the decrement is
    taken from a count above 0 and cannot leave the range of [int]. *)
Definition UnpinPageImpl (page_id : Z) (is_dirty : bool) (s : t) : bool * t :=
  match page_table_ s !! page_id with
  | None => (true, s)
  | Some frame_id =>
      if decide (pin_count_ (page_at s frame_id) > 0) then
        let s := update_page (λ pg, set_is_dirty (is_dirty_ pg || is_dirty) pg) frame_id s in
        let s := update_page (λ pg, set_pin_count (pin_count_ pg - 1) pg) frame_id s in
        let s := if decide (pin_count_ (page_at s frame_id) = 0)
                 then with_replacer (LRUReplacer.Unpin frame_id (replacer_ s)) s
                 else s in
        (true, s)
      else (false, s)
  end.

(** [bool flushPageWithoutLock(page_id_t page_id)] *)
Definition flushPageWithoutLock (page_id : Z) (s : t) : bool * t :=
  match page_table_ s !! page_id with
  | None => (false, s)
  | Some frame_id => (true, FlushPageIfPossible frame_id s)
  end.

(** [bool FlushPageImpl(page_id_t page_id)] *)
Definition FlushPageImpl (page_id : Z) (s : t) : bool * t :=
  flushPageWithoutLock page_id s.

(** [Page *NewPageImpl(page_id_t *page_id)]: the result is the frame of the
    returned [Page] with the value stored in [*page_id], [None] for
    [nullptr]. *)
Definition NewPageImpl (s : t) : option (Z * Z) * t :=
  match FindAvailablePage s with
  | (None, s) => (None, s)
  | (Some frame_id, s) =>
      let '(page_id, d) := DiskManager.AllocatePage (disk_manager_ s) in
      let s := with_disk d s in
      let s := with_page_table
                 (delete (page_id_ (page_at s frame_id)) (page_table_ s)) s in
      let s := with_page_table (<[page_id := frame_id]> (page_table_ s)) s in
      let s := with_replacer (LRUReplacer.Pin frame_id (replacer_ s)) s in
      let s := FlushPageIfPossible frame_id s in
      let s := update_page ResetMemory frame_id s in
      let s := update_page (set_page_id page_id) frame_id s in
      let s := update_page (set_pin_count 1) frame_id s in
      (Some (frame_id, page_id), s)
  end.

(** [bool DeletePageImpl(page_id_t page_id)] *)
Definition DeletePageImpl (page_id : Z) (s : t) : bool * t :=
  match page_table_ s !! page_id with
  | None => (true, s)
  | Some frame_id =>
      if decide (pin_count_ (page_at s frame_id) > 0) then (false, s)
      else
        let s := with_disk (DiskManager.DeallocatePage page_id (disk_manager_ s)) s in
        let s := update_page (set_page_id INVALID_PAGE_ID) frame_id s in
        let s := update_page (set_is_dirty false) frame_id s in
        let s := update_page (set_pin_count 0) frame_id s in
        let s := update_page ResetMemory frame_id s in
        let s := with_replacer (LRUReplacer.Pin frame_id (replacer_ s)) s in
        let s := with_page_table (delete page_id (page_table_ s)) s in
        let s := with_free_list (free_list_ s ++ [frame_id]) s in
        (true, s)
  end.

(** [void FlushAllPagesImpl()]: the loop over [page_table_], in the order
    [map_to_list] lists the entries (the source leaves the order of an
    [unordered_map] open). *)
Definition FlushAllPagesImpl (s : t) : t :=
  foldl (λ s kv, (flushPageWithoutLock kv.1 s).2) s (map_to_list (page_table_ s)).

(** Modelled from the spec: what a caller does with the [Page *] that
    [FetchPage] or [NewPage] returned, "a caller holding a pinned frame may
    ... read or write the buffer": [GetData()] of the missing page.h hands
    out the buffer, and the caller's bytes replace its content.  The pool is
    not told; the caller reports the write with [UnpinPage(p, true)]. *)
Definition WriteData (frame_id : Z) (buf : list Byte.byte) (s : t) : t :=
  update_page (set_data buf) frame_id s.

(** The public entry points, and the write through a returned frame. *)
Inductive request : Type :=
| FetchPage (page_id : Z)
| NewPage
| UnpinPage (page_id : Z) (is_dirty : bool)
| FlushPage (page_id : Z)
| FlushAllPages
| DeletePage (page_id : Z)
| CallerWrite (frame_id : Z) (buf : list Byte.byte).

Definition step (q : request) (s : t) : t :=
  match q with
  | FetchPage p => (FetchPageImpl p s).2
  | NewPage => (NewPageImpl s).2
  | UnpinPage p d => (UnpinPageImpl p d s).2
  | FlushPage p => (FlushPageImpl p s).2
  | FlushAllPages => FlushAllPagesImpl s
  | DeletePage p => (DeletePageImpl p s).2
  | CallerWrite f buf => WriteData f buf s
  end.

(** The states of a pool: built by the constructor, then any calls of the
    entry points and any writes of callers into frame buffers. *)
Inductive reachable : t → Prop :=
| reach_new pool_size disk_manager : reachable (new pool_size disk_manager)
| reach_step q s : reachable s → reachable (step q s).

Definition run (qs : list request) (s : t) : t := foldl (λ s q, step q s) s qs.

(** *** Predicates on pool states *)

(** [f] is an index of the frame array. *)
Definition in_range (s : t) (f : Z) : Prop :=
  0 ≤ f < Z.of_nat (length (pages_ s)).

(** What the bookkeeping of the pool reads of a frame. *)
Definition meta (s : t) (f : Z) : Z * Z :=
  (page_id_ (page_at s f), pin_count_ (page_at s f)).

(** [s'] differs from [s] at most in frame buffers, dirty flags and the
    device. *)
Definition same_bookkeeping (s s' : t) : Prop :=
  pool_size_ s' = pool_size_ s ∧
  length (pages_ s') = length (pages_ s) ∧
  replacer_ s' = replacer_ s ∧
  free_list_ s' = free_list_ s ∧
  page_table_ s' = page_table_ s ∧
  ∀ f, meta s' f = meta s f.

(** The invariant of the pool's bookkeeping: the frame array has
    [pool_size_] frames; the replacer is well formed; no frame is twice in
    the free list; a page-table entry leads to a frame of the array that
    holds that page and is not free; a free frame is unpinned and is no
    candidate; a candidate is a frame of the array and is unpinned. *)
Record inv (s : t) : Prop := mk_inv {
  inv_length : length (pages_ s) = pool_size_ s;
  inv_replacer : LRUReplacer.wf (replacer_ s);
  inv_free_NoDup : NoDup (free_list_ s);
  inv_table : ∀ p f, page_table_ s !! p = Some f →
    in_range s f ∧ page_id_ (page_at s f) = p ∧ f ∉ free_list_ s;
  inv_free : ∀ f, f ∈ free_list_ s →
    in_range s f ∧ pin_count_ (page_at s f) = 0 ∧
    f ∉ LRUReplacer.nodes_ (replacer_ s);
  inv_cand : ∀ f, f ∈ LRUReplacer.nodes_ (replacer_ s) →
    in_range s f ∧ pin_count_ (page_at s f) = 0
}.

(** Every frame of the array is accounted for: its pin count is not
    negative, and a frame with pin count 0 is in the free list or a
    candidate of the replacer. *)
Definition frames_accounted (s : t) : Prop :=
  ∀ f, in_range s f →
    0 ≤ pin_count_ (page_at s f) ∧
    (pin_count_ (page_at s f) = 0 →
     f ∈ free_list_ s ∨ f ∈ LRUReplacer.nodes_ (replacer_ s)).

(** No frame has its pin count at [INT_MAX]: a [FetchPage] of a resident
    page adds one without leaving the range of [int]. *)
Definition pins_below_max (s : t) : Prop :=
  ∀ f, in_range s f → pin_count_ (page_at s f) < INT_MAX.

(** Checks of [pins_below_max] that run: on a state, and on every state a
    run passes through. *)
Definition pins_below_max_check (s : t) : bool :=
  forallb (λ pg, bool_decide (pin_count_ pg < INT_MAX)) (pages_ s).

Definition run_below_max_check (qs : list request) (s : t) : bool :=
  forallb (λ k, pins_below_max_check (run (take k qs) s))
    (seq 0 (S (length qs))).

End BufferPoolManager.

(** ** B+ tree pages *)

(** A page method either returns, or stops on a failed [assert], or touches
    a slot outside the page's buffer (undefined in the source).  The binary
    searches run on fuel; [OutOfFuel] never shows up with the fuel the
    methods pass (see [Lookup_never_OutOfFuel] and
    [KeyIndex_never_OutOfFuel]). *)
Inductive error : Type := AssertionFailed | OutOfBounds | OutOfFuel.

Inductive result (A : Type) : Type :=
| Ok (a : A)
| Err (e : error).
Arguments Ok {A} a.
Arguments Err {A} e.

#[global] Instance result_bind : MBind result := λ A B k m,
  match m with
  | Ok a => k a
  | Err e => Err e
  end.

#[global] Instance result_ret : MRet result := λ A a, Ok a.

Definition assert (b : bool) : result unit :=
  if b then Ok tt else Err AssertionFailed.

(** [a[i]] as a read and [a[i] = e] as a write, on an array of
    [length a] slots. *)
Definition load {E} (a : list E) (i : Z) : result E :=
  if decide (0 ≤ i) then
    match a !! Z.to_nat i with
    | Some e => Ok e
    | None => Err OutOfBounds
    end
  else Err OutOfBounds.

Definition store {E} (a : list E) (i : Z) (e : E) : result (list E) :=
  if decide (0 ≤ i < Z.of_nat (length a))
  then Ok (<[Z.to_nat i := e]> a)
  else Err OutOfBounds.

(** [for (int i = first; i > stop; i--) body]: [n] counts the rounds left. *)
Fixpoint loop_down {S} (n : nat) (i : Z) (body : Z → S → result S) (s : S)
  : result S :=
  match n with
  | O => Ok s
  | Datatypes.S n' => s' ← body i s; loop_down n' (i - 1) body s'
  end.

Definition for_down {S} (first stop : Z) (body : Z → S → result S) (s : S)
  : result S :=
  loop_down (Z.to_nat (first - stop)) first body s.

(** [for (int i = first; i < stop; i++) body] *)
Fixpoint loop_up {S} (n : nat) (i : Z) (body : Z → S → result S) (s : S)
  : result S :=
  match n with
  | O => Ok s
  | Datatypes.S n' => s' ← body i s; loop_up n' (i + 1) body s'
  end.

Definition for_up {S} (first stop : Z) (body : Z → S → result S) (s : S)
  : result S :=
  loop_up (Z.to_nat (stop - first)) first body s.

Module BPlusTreePage.

(** Modelled from the spec: the common header of a tree page
    (storage/page/b_plus_tree_page.h, missing): "page kind, LSN slot,
    current entry count, max capacity, parent identifier, page identifier",
    with "a page may accept a new entry whenever size < max_size". *)
Inductive IndexPageType : Type := INVALID_INDEX_PAGE | LEAF_PAGE | INTERNAL_PAGE.

Record t : Type := mk {
  page_type_ : IndexPageType;
  lsn_ : Z;
  size_ : Z;
  max_size_ : Z;
  parent_page_id_ : Z;
  page_id_ : Z
}.

Definition GetSize (h : t) : Z := size_ h.

Definition SetSize (size : Z) (h : t) : t :=
  {| page_type_ := page_type_ h; lsn_ := lsn_ h; size_ := size;
     max_size_ := max_size_ h; parent_page_id_ := parent_page_id_ h;
     page_id_ := page_id_ h |}.

Definition IncreaseSize (amount : Z) (h : t) : t := SetSize (size_ h + amount) h.

Definition IsEmpty (h : t) : bool := bool_decide (size_ h = 0).

Definition CanInsert (n : Z) (h : t) : bool :=
  bool_decide (size_ h + n ≤ max_size_ h).

Definition CanInsertWithoutSplit (n : Z) (h : t) : bool :=
  bool_decide (size_ h + n ≤ max_size_ h).

(** Modelled from the spec: [NeedToSplit] of the same missing header; a
    page "needs to split when an insertion would push size > max_size". *)
Definition NeedToSplit (h : t) : bool :=
  bool_decide (size_ h + 1 > max_size_ h).

Definition GetPageId (h : t) : Z := page_id_ h.

End BPlusTreePage.

(** *** Internal page (b_plus_tree_internal_page.cpp) *)

Module InternalPage.
Import BPlusTreePage.

Section internal.
Context {K V : Type} `{EqDecision V}.

(** [array_] lists the slots of the page's buffer after the header: the
    first [size_] of them are the entries, the others hold whatever was
    written there last. *)
Record t : Type := mk {
  header : BPlusTreePage.t;
  array_ : list (K * V)
}.

Definition with_array (a : list (K * V)) (p : t) : t :=
  {| header := header p; array_ := a |}.
Definition with_header (h : BPlusTreePage.t) (p : t) : t :=
  {| header := h; array_ := array_ p |}.

(** [KeyType KeyAt(int index)] *)
Definition KeyAt (index : Z) (p : t) : result K :=
  e ← load (array_ p) index; Ok e.1.

(** [ValueType ValueAt(int index)] *)
Definition ValueAt (index : Z) (p : t) : result V :=
  e ← load (array_ p) index; Ok e.2.

(** [int ValueIndex(const ValueType &value)] *)
Fixpoint ValueIndex_loop (n : nat) (i : Z) (value : V) (p : t) : result Z :=
  match n with
  | O => Ok (-1)
  | S n' =>
      e ← load (array_ p) i;
      if decide (e.2 = value) then Ok i else ValueIndex_loop n' (i + 1) value p
  end.

Definition ValueIndex (value : V) (p : t) : result Z :=
  ValueIndex_loop (Z.to_nat (GetSize (header p))) 0 value p.

(** [ValueType Lookup(const KeyType &key, const KeyComparator &comparator)]:
    the [while (lo < hi)] loop, then the final test. *)
Fixpoint Lookup_loop (fuel : nat) (lo hi : Z) (key : K) (comparator : K → K → Z)
    (p : t) : result Z :=
  if decide (lo < hi) then
    match fuel with
    | O => Err OutOfFuel
    | S fuel' =>
        let mid := (lo + hi) `quot` 2 in
        e ← load (array_ p) mid;
        if decide (comparator e.1 key > 0)
        then Lookup_loop fuel' lo mid key comparator p
        else Lookup_loop fuel' (mid + 1) hi key comparator p
    end
  else Ok lo.

Definition Lookup (key : K) (comparator : K → K → Z) (p : t) : result V :=
  let size := GetSize (header p) in
  lo ← Lookup_loop (Z.to_nat size) 1 (size - 1) key comparator p;
  e ← load (array_ p) lo;
  if decide (comparator e.1 key > 0)
  then e' ← load (array_ p) (lo - 1); Ok e'.2
  else Ok e.2.

(** [int InsertNodeAfter(old_value, new_key, new_value)]: the new size and
    the page after the call. *)
Definition InsertNodeAfter (old_value : V) (new_key : K) (new_value : V) (p : t)
  : result (Z * t) :=
  assert (CanInsert 1 (header p));;
  index ← ValueIndex old_value p;
  assert (bool_decide (index ≠ -1));;
  let size := GetSize (header p) in
  a ← for_down size (index + 1)
        (λ i a, e ← load a (i - 1); store a i e) (array_ p);
  a ← store a index (new_key, new_value);
  Ok (size + 1, {| header := IncreaseSize 1 (header p); array_ := a |}).

(** The entries of an internal page: its first [size_] slots. *)
Definition entries (p : t) : list (K * V) :=
  take (Z.to_nat (GetSize (header p))) (array_ p).

(** [void SetKeyAt(int index, const KeyType &key)] *)
Definition SetKeyAt (index : Z) (key : K) (p : t) : result t :=
  e ← load (array_ p) index;
  a ← store (array_ p) index (key, e.2);
  Ok (with_array a p).

(** [void PopulateNewRoot(old_value, new_key, new_value)]: the key of slot 0
    is left as it is. *)
Definition PopulateNewRoot (old_value : V) (new_key : K) (new_value : V) (p : t)
  : result t :=
  e ← load (array_ p) 0;
  a ← store (array_ p) 0 (e.1, old_value);
  a ← store a 1 (new_key, new_value);
  Ok {| header := SetSize 2 (header p); array_ := a |}.

(** [void Remove(int index)] *)
Definition Remove (index : Z) (p : t) : result t :=
  let size := GetSize (header p) in
  assert (bool_decide (index >= 0) && bool_decide (index < size));;
  a ← for_up index (size - 1)
        (λ i a, e ← load a (i + 1); store a i e) (array_ p);
  Ok {| header := IncreaseSize (-1) (header p); array_ := a |}.

(** [ValueType RemoveAndReturnOnlyChild()]: the child and the page after
    the call. *)
Definition RemoveAndReturnOnlyChild (p : t) : result (V * t) :=
  assert (bool_decide (GetSize (header p) = 1));;
  e ← load (array_ p) 0;
  Ok (e.2, with_header (IncreaseSize (-1) (header p)) p).

End internal.
Arguments t : clear implicits.

End InternalPage.

(** *** Leaf page (b_plus_tree_leaf_page.cpp) *)

Module LeafPage.
Import BPlusTreePage.

Section leaf.
Context {K V : Type}.

Record t : Type := mk {
  header : BPlusTreePage.t;
  next_page_id_ : Z;
  array_ : list (K * V)
}.

(** [int KeyIndex(const KeyType &key, const KeyComparator &comparator)] *)
Fixpoint KeyIndex_loop (fuel : nat) (lo hi : Z) (key : K) (comparator : K → K → Z)
    (p : t) : result Z :=
  if decide (lo < hi) then
    match fuel with
    | O => Err OutOfFuel
    | S fuel' =>
        let mid := (lo + hi) `quot` 2 in
        e ← load (array_ p) mid;
        if decide (comparator e.1 key >= 0)
        then KeyIndex_loop fuel' lo mid key comparator p
        else KeyIndex_loop fuel' (mid + 1) hi key comparator p
    end
  else Ok lo.

Definition KeyIndex (key : K) (comparator : K → K → Z) (p : t) : result Z :=
  let size := GetSize (header p) in
  lo ← KeyIndex_loop (Z.to_nat size) 0 (size - 1) key comparator p;
  e ← load (array_ p) lo;
  Ok (if decide (comparator e.1 key >= 0) then lo else lo + 1).

(** [void CopyNFrom(MappingType *items, int size)]: [items] is the array
    the pointer leads to. *)
Definition CopyNFrom (items : list (K * V)) (size : Z) (p : t) : result t :=
  assert (bool_decide (size >= 0));;
  assert (CanInsert size (header p));;
  let original_size := GetSize (header p) in
  a ← for_up 0 size
        (λ i a, e ← load items size; store a (i + original_size) e) (array_ p);
  Ok {| header := IncreaseSize size (header p);
        next_page_id_ := next_page_id_ p; array_ := a |}.

(** [void CopyFirstFrom(const MappingType &item)] *)
Definition CopyFirstFrom (item : K * V) (p : t) : result t :=
  assert (CanInsertWithoutSplit 1 (header p));;
  let size := GetSize (header p) in
  a ← for_down size 0
        (λ i a, e ← load a (i - 1); store a i e) (array_ p);
  a ← store a 0 item;
  Ok {| header := IncreaseSize 1 (header p);
        next_page_id_ := next_page_id_ p; array_ := a |}.

(** [void MoveLastToFrontOf(BPlusTreeLeafPage *recipient)]: this page and
    the recipient after the call. *)
Definition MoveLastToFrontOf (p recipient : t) : result (t * t) :=
  assert (negb (IsEmpty (header p)));;
  assert (CanInsertWithoutSplit 1 (header recipient));;
  item ← load (array_ p) 0;
  let p := {| header := IncreaseSize (-1) (header p);
              next_page_id_ := next_page_id_ p; array_ := array_ p |} in
  recipient ← CopyFirstFrom item recipient;
  Ok (p, recipient).

(** The entries of a leaf: its first [size_] slots. *)
Definition entries (p : t) : list (K * V) :=
  take (Z.to_nat (GetSize (header p))) (array_ p).

(** [page_id_t GetNextPageId()] and [void SetNextPageId(page_id_t)] *)
Definition GetNextPageId (p : t) : Z := next_page_id_ p.

Definition SetNextPageId (next_page_id : Z) (p : t) : t :=
  {| header := header p; next_page_id_ := next_page_id; array_ := array_ p |}.

(** [KeyType KeyAt(int index)] and [const MappingType &GetItem(int index)] *)
Definition KeyAt (index : Z) (p : t) : result K :=
  e ← load (array_ p) index; Ok e.1.

Definition GetItem (index : Z) (p : t) : result (K * V) :=
  load (array_ p) index.

(** [int Insert(key, value, comparator)]: the size after the insertion and
    the page after the call. *)
Definition Insert (key : K) (value : V) (comparator : K → K → Z) (p : t)
  : result (Z * t) :=
  assert (CanInsert 1 (header p));;
  let size := GetSize (header p) in
  index ← KeyIndex key comparator p;
  a ← for_down size index
        (λ i a, e ← load a (i - 1); store a i e) (array_ p);
  a ← store a index (key, value);
  let p' := {| header := IncreaseSize 1 (header p);
               next_page_id_ := next_page_id_ p; array_ := a |} in
  Ok (GetSize (header p'), p').

(** [void MoveHalfTo(BPlusTreeLeafPage *recipient)]: this page and the
    recipient after the call. *)
Definition MoveHalfTo (p recipient : t) : result (t * t) :=
  assert (NeedToSplit (header p));;
  assert (IsEmpty (header recipient));;
  let size := GetSize (header p) in
  let half := size `quot` 2 in
  let need_move := size - half in
  a ← for_up 0 need_move
        (λ i a, e ← load (array_ p) (half + i); store a i e) (array_ recipient);
  Ok ({| header := SetSize half (header p);
         next_page_id_ := GetPageId (header recipient);
         array_ := array_ p |},
      {| header := SetSize need_move (header recipient);
         next_page_id_ := next_page_id_ p;
         array_ := a |}).

(** [bool Lookup(key, value, comparator)]: [Some v] is the [true] return
    with [*value = v], [None] the [false] return. *)
Definition Lookup (key : K) (comparator : K → K → Z) (p : t)
  : result (option V) :=
  index ← KeyIndex key comparator p;
  if decide (index >= GetSize (header p)) then Ok None
  else
    e ← load (array_ p) index;
    if decide (comparator e.1 key ≠ 0) then Ok None else Ok (Some e.2).

(** [int RemoveAndDeleteRecord(key, comparator)]: the size after the call
    and the page after the call. *)
Definition RemoveAndDeleteRecord (key : K) (comparator : K → K → Z) (p : t)
  : result (Z * t) :=
  let size := GetSize (header p) in
  index ← KeyIndex key comparator p;
  if decide (index >= size) then Ok (size, p)
  else
    e ← load (array_ p) index;
    if decide (comparator e.1 key ≠ 0) then Ok (size, p)
    else
      a ← for_up index (size - 1)
            (λ i a, e ← load a (i + 1); store a i e) (array_ p);
      Ok (size - 1,
          {| header := IncreaseSize (-1) (header p);
             next_page_id_ := next_page_id_ p; array_ := a |}).

(** [void MoveAllTo(BPlusTreeLeafPage *recipient)]: this page and the
    recipient after the call. *)
Definition MoveAllTo (p recipient : t) : result (t * t) :=
  let size := GetSize (header p) in
  assert (CanInsertWithoutSplit size (header recipient));;
  let recipient_size := GetSize (header recipient) in
  a ← for_up 0 size
        (λ i a, e ← load (array_ p) i; store a (i + recipient_size) e)
        (array_ recipient);
  Ok ({| header := SetSize 0 (header p);
         next_page_id_ := next_page_id_ p; array_ := array_ p |},
      {| header := IncreaseSize size (header recipient);
         next_page_id_ := GetNextPageId p;
         array_ := a |}).

(** [void CopyLastFrom(const MappingType &item)] *)
Definition CopyLastFrom (item : K * V) (p : t) : result t :=
  assert (CanInsertWithoutSplit 1 (header p));;
  let size := GetSize (header p) in
  a ← store (array_ p) size item;
  Ok {| header := IncreaseSize 1 (header p);
        next_page_id_ := next_page_id_ p; array_ := a |}.

(** [void MoveFirstToEndOf(BPlusTreeLeafPage *recipient)]: this page and
    the recipient after the call. *)
Definition MoveFirstToEndOf (p recipient : t) : result (t * t) :=
  assert (negb (IsEmpty (header p)));;
  assert (CanInsertWithoutSplit 1 (header recipient));;
  let size := GetSize (header p) in
  item ← load (array_ p) 0;
  a ← for_up 0 (size - 1)
        (λ i a, e ← load a (i + 1); store a i e) (array_ p);
  recipient ← CopyLastFrom item recipient;
  Ok ({| header := IncreaseSize (-1) (header p);
         next_page_id_ := next_page_id_ p; array_ := a |},
      recipient).

End leaf.
Arguments t : clear implicits.

End LeafPage.

(** *** Re-parenting a child (b_plus_tree_internal_page.cpp) *)

Module Reparent.
Import BufferPoolManager.

(** [void UpdateParent(buffer_pool_manager, child_page_id, parent_page_id)]
    of the anonymous namespace: fetch the child, set the parent identifier
    in the header at the start of its buffer, unpin it as dirty.  The layout
    of the header in the buffer belongs to the missing b_plus_tree_page.h:
    [SetParentPageId] is the write of that field, taken as a parameter.
    [FetchPage] and [UnpinPage] are the public names of [FetchPageImpl] and
    [UnpinPageImpl]. *)
Definition UpdateParent
    (SetParentPageId : Z → list Byte.byte → list Byte.byte)
    (child_page_id parent_page_id : Z) (s : BufferPoolManager.t)
  : result BufferPoolManager.t :=
  match FetchPageImpl child_page_id s with
  | (None, _) => Err AssertionFailed
  | (Some child_raw_page, s) =>
      let s := update_page
                 (λ pg, set_data (SetParentPageId parent_page_id (data_ pg)) pg)
                 child_raw_page s in
      Ok (UnpinPageImpl child_page_id true s).2
  end.

End Reparent.

(** *** Comparators and ordered key arrays *)

(** What the pages expect of a [KeyComparator]: a three-way comparison
    (negative, zero, positive) of a total preorder on the keys. *)
Class Comparator {K : Type} (comparator : K → K → Z) : Prop := {
  comparator_antisym : ∀ a b, Z.sgn (comparator b a) = - Z.sgn (comparator a b);
  comparator_trans : ∀ a b c,
    comparator a b ≤ 0 → comparator b c ≤ 0 → comparator a c ≤ 0
}.

(** The keys of the slots [first], ..., [size - 1] are strictly ascending:
    each is smaller than the next. *)
Definition keys_ascending {K V} (comparator : K → K → Z) (a : list (K * V))
    (first size : Z) : Prop :=
  ∀ i e e', first ≤ i → i + 1 < size →
    load a i = Ok e → load a (i + 1) = Ok e' → comparator e.1 e'.1 < 0.

(** A check of [keys_ascending] that runs: every key of the list is smaller
    than the next. *)
Fixpoint ascending_list {K V} (comparator : K → K → Z) (l : list (K * V)) : bool :=
  match l with
  | e :: ((e' :: _) as l') =>
      bool_decide (comparator e.1 e'.1 < 0) && ascending_list comparator l'
  | _ => true
  end.

(** ** Concrete states used by the examples *)

Module Examples.
Import BufferPoolManager.

(** A device on which nothing was stored or called yet. *)
Definition empty_disk : DiskManager.t :=
  {| DiskManager.stored := ∅; DiskManager.next_page_id := 0;
     DiskManager.calls := [] |}.

(** A fresh pool of one frame. *)
Definition pool1 : BufferPoolManager.t := new 1 empty_disk.


(** Bytes a caller writes into a frame: [0xAA] all over. *)
Definition written_buffer : list Byte.byte :=
  replicate DiskManager.PAGE_SIZE Byte.xaa.


Definition pool1_written : BufferPoolManager.t :=
  run [NewPage; CallerWrite 0 written_buffer; UnpinPage 0 true] pool1.

(** A pool of two frames with page 0 resident and pinned once. *)
Definition pool2_pinned : BufferPoolManager.t := run [NewPage] (new 2 empty_disk).

(** The same pool after [INT_MAX - 1] further calls of [FetchPage(0)]:
    page 0 is pinned [INT_MAX] times. *)
Definition pool_pin_max : BufferPoolManager.t :=
  update_page (set_pin_count INT_MAX) 0 pool2_pinned.

(** A pool of two frames with page 0 resident and unpinned. *)
Definition pool2_unpinned : BufferPoolManager.t :=
  run [NewPage; UnpinPage 0 false] (new 2 empty_disk).

(** A three-way comparison of integers, as [GenericComparator] gives for
    integer keys. *)
Definition int_comparator (a b : Z) : Z :=
  match a ?= b with
  | Lt => -1
  | Eq => 0
  | Gt => 1
  end.

Definition header_of (kind : BPlusTreePage.IndexPageType) (size max_size : Z)
  : BPlusTreePage.t :=
  {| BPlusTreePage.page_type_ := kind; BPlusTreePage.lsn_ := -1;
     BPlusTreePage.size_ := size; BPlusTreePage.max_size_ := max_size;
     BPlusTreePage.parent_page_id_ := -1; BPlusTreePage.page_id_ := 7 |}.

(** An internal page left with one entry: slot 1 still holds the entry
    (15, 101) that [Remove(1)] dropped from the page. *)
Definition internal_single : InternalPage.t Z Z :=
  {| InternalPage.header := header_of BPlusTreePage.INTERNAL_PAGE 1 4;
     InternalPage.array_ := [(0, 100); (15, 101); (0, 0); (0, 0); (0, 0)] |}.

(** The internal page of the spec's lookup scenario, children 100 to 103. *)
Definition internal_four : InternalPage.t Z Z :=
  {| InternalPage.header := header_of BPlusTreePage.INTERNAL_PAGE 4 4;
     InternalPage.array_ := [(0, 100); (15, 101); (30, 102); (45, 103); (0, 0)] |}.

(** An internal page with three entries and room for a fourth. *)
Definition internal_three : InternalPage.t Z Z :=
  {| InternalPage.header := header_of BPlusTreePage.INTERNAL_PAGE 3 4;
     InternalPage.array_ := [(0, 10); (15, 11); (30, 12); (0, 0); (0, 0)] |}.

(** A leaf just initialised in a zeroed buffer: no entry, every slot zero. *)
Definition leaf_empty : LeafPage.t Z Z :=
  {| LeafPage.header := header_of BPlusTreePage.LEAF_PAGE 0 4;
     LeafPage.next_page_id_ := -1;
     LeafPage.array_ := [(0, 0); (0, 0); (0, 0); (0, 0); (0, 0)] |}.

(** Two sibling leaves: [leaf_A] holds keys 1 and 2, [leaf_B] holds key 5. *)
Definition leaf_A : LeafPage.t Z Z :=
  {| LeafPage.header := header_of BPlusTreePage.LEAF_PAGE 2 4;
     LeafPage.next_page_id_ := -1;
     LeafPage.array_ := [(1, 100); (2, 200); (0, 0); (0, 0); (0, 0)] |}.

Definition leaf_B : LeafPage.t Z Z :=
  {| LeafPage.header := header_of BPlusTreePage.LEAF_PAGE 1 4;
     LeafPage.next_page_id_ := -1;
     LeafPage.array_ := [(5, 500); (0, 0); (0, 0); (0, 0); (0, 0)] |}.

(** A full leaf, and a fresh leaf with another page identifier to split it
    into. *)
Definition leaf_full : LeafPage.t Z Z :=
  {| LeafPage.header := header_of BPlusTreePage.LEAF_PAGE 4 4;
     LeafPage.next_page_id_ := 9;
     LeafPage.array_ := [(1, 100); (2, 200); (3, 300); (4, 400); (0, 0)] |}.

Definition leaf_fresh : LeafPage.t Z Z :=
  {| LeafPage.header :=
       {| BPlusTreePage.page_type_ := BPlusTreePage.LEAF_PAGE;
          BPlusTreePage.lsn_ := -1; BPlusTreePage.size_ := 0;
          BPlusTreePage.max_size_ := 4; BPlusTreePage.parent_page_id_ := -1;
          BPlusTreePage.page_id_ := 8 |};
     LeafPage.next_page_id_ := -1;
     LeafPage.array_ := [(0, 0); (0, 0); (0, 0); (0, 0); (0, 0)] |}.

(** A root with two children. *)
Definition internal_two : InternalPage.t Z Z :=
  {| InternalPage.header := header_of BPlusTreePage.INTERNAL_PAGE 2 4;
     InternalPage.array_ := [(0, 10); (15, 11); (0, 0); (0, 0); (0, 0)] |}.

End Examples.

(** *** Facts on the replacer *)

Section replacer_facts.
Import LRUReplacer.

Lemma erase_node_subseteq f l : erase_node f l ⊆ l.
Proof.
  induction l as [|x l IH]; simpl; [done|].
  destruct (decide (x = f)); set_solver.
Qed.

Lemma erase_node_NoDup f l : NoDup l → NoDup (erase_node f l).
Proof.
  induction 1 as [|x l Hx Hl IH]; simpl; [constructor|].
  destruct (decide (x = f)); [done|].
  constructor; [|done].
  intros Hin. apply Hx. by apply (erase_node_subseteq f l).
Qed.

Lemma elem_of_erase_node f g l :
  NoDup l → g ∈ erase_node f l ↔ g ∈ l ∧ g ≠ f.
Proof.
  induction 1 as [|x l Hx Hl IH]; simpl; [set_solver|].
  destruct (decide (x = f)) as [->|Hne].
  - split; [|set_solver]. intros Hg. split; [set_solver|]. by intros ->.
  - rewrite !elem_of_cons, IH. naive_solver.
Qed.

Lemma erase_node_notin f l : f ∉ l → erase_node f l = l.
Proof.
  induction l as [|x l IH]; simpl; [done|].
  intros Hf. destruct (decide (x = f)) as [->|Hne]; [set_solver|].
  f_equal. apply IH. set_solver.
Qed.

Lemma last_removelast (l : list Z) f :
  last l = Some f → l = removelast l ++ [f].
Proof.
  intros Hl. apply last_Some in Hl as [l' ->].
  by rewrite removelast_last.
Qed.

Lemma Victim_Some r f r' :
  Victim r = (Some f, r') →
  nodes_ r = nodes_ r' ++ [f] ∧ index_ r' = index_ r ∖ {[f]}.
Proof.
  unfold Victim. destruct (last (nodes_ r)) as [g|] eqn:Hl; [|done].
  intros [= -> <-]. simpl. split; [|done]. by apply last_removelast.
Qed.

Lemma Victim_None r r' : Victim r = (None, r') → r' = r ∧ nodes_ r = [].
Proof.
  unfold Victim. destruct (last (nodes_ r)) as [g|] eqn:Hl; [done|].
  intros [= <-]. split; [done|]. by apply last_None.
Qed.

Lemma Victim_wf r : wf r → wf (Victim r).2.
Proof.
  intros [Hnd Hix]. unfold Victim.
  destruct (last (nodes_ r)) as [f|] eqn:Hl; simpl; [|done].
  pose proof (last_removelast _ _ Hl) as Heq.
  rewrite Heq in Hnd. apply NoDup_app in Hnd as (Hnd & Hdisj & _).
  split; simpl; [done|].
  intros g. rewrite elem_of_difference, Hix, elem_of_singleton.
  rewrite Heq at 1. rewrite elem_of_app, list_elem_of_singleton.
  split.
  - intros [[?|?] ?]; done.
  - intros Hg. split; [by left|]. intros ->.
    apply (Hdisj f Hg). by apply list_elem_of_singleton.
Qed.

Lemma Pin_wf f r : wf r → wf (Pin f r).
Proof.
  intros [Hnd Hix]. unfold Pin.
  destruct (decide (f ∈ index_ r)); [|done].
  split; simpl; [by apply erase_node_NoDup|].
  intros g. rewrite elem_of_difference, Hix, elem_of_singleton.
  by rewrite elem_of_erase_node.
Qed.

Lemma Unpin_wf f r : wf r → wf (Unpin f r).
Proof.
  intros [Hnd Hix]. unfold Unpin.
  destruct (decide (f ∈ index_ r)) as [|Hf]; [done|].
  split; simpl.
  - constructor; [|done]. by rewrite <- Hix.
  - intros g. rewrite elem_of_union, elem_of_singleton, elem_of_cons, Hix.
    done.
Qed.

Lemma new_wf n : wf (new n).
Proof. split; simpl; [constructor|set_solver]. Qed.

Lemma reachable_wf r : reachable r → wf r.
Proof.
  induction 1; auto using new_wf, Victim_wf, Pin_wf, Unpin_wf.
Qed.

Lemma elem_of_Pin f g r :
  wf r → g ∈ nodes_ (Pin f r) ↔ g ∈ nodes_ r ∧ g ≠ f.
Proof.
  intros [Hnd Hix]. unfold Pin.
  destruct (decide (f ∈ index_ r)) as [Hf|Hf]; simpl.
  - by apply elem_of_erase_node.
  - rewrite Hix in Hf. split; [|naive_solver].
    intros Hg. split; [done|]. by intros ->.
Qed.

Lemma elem_of_Unpin f g r :
  wf r → g ∈ nodes_ (Unpin f r) ↔ g = f ∨ g ∈ nodes_ r.
Proof.
  intros [Hnd Hix]. unfold Unpin.
  destruct (decide (f ∈ index_ r)) as [Hf|Hf]; simpl.
  - rewrite Hix in Hf. split; [by right|]. by intros [->|?].
  - by rewrite elem_of_cons.
Qed.

End replacer_facts.

(** *** Facts on the frames of the pool *)

Section pool_frames.
Import BufferPoolManager.

Lemma page_at_update_page_eq g f s :
  in_range s f → page_at (update_page g f s) f = g (page_at s f).
Proof.
  intros [H0 Hlt]. unfold page_at, update_page.
  rewrite !decide_True by done. simpl.
  rewrite list_lookup_alter_eq.
  destruct (pages_ s !! Z.to_nat f) as [pg|] eqn:Hpg; [done|].
  apply lookup_ge_None in Hpg. lia.
Qed.

Lemma page_at_update_page_ne g f f' s :
  f ≠ f' → page_at (update_page g f s) f' = page_at s f'.
Proof.
  intros Hne. unfold page_at, update_page.
  destruct (decide (0 ≤ f)); [|done].
  destruct (decide (0 ≤ f')); [|done]. simpl.
  rewrite list_lookup_alter_ne; [done|lia].
Qed.

Lemma page_at_update_page_out g f f' s :
  ¬ in_range s f → page_at (update_page g f s) f' = page_at s f'.
Proof.
  intros Hout. unfold page_at, update_page.
  destruct (decide (0 ≤ f)); [|done].
  destruct (decide (0 ≤ f')); [|done]. simpl.
  destruct (decide (f = f')) as [<-|Hne].
  - rewrite list_lookup_alter_eq.
    destruct (pages_ s !! Z.to_nat f) as [pg|] eqn:Hpg; [|done].
    apply lookup_lt_Some in Hpg. unfold in_range in Hout. lia.
  - rewrite list_lookup_alter_ne; [done|lia].
Qed.

Lemma length_update_page g f s :
  length (pages_ (update_page g f s)) = length (pages_ s).
Proof.
  unfold update_page. case_decide; [|done]. simpl. apply length_alter.
Qed.

Lemma in_range_update_page g f s f' :
  in_range (update_page g f s) f' ↔ in_range s f'.
Proof. unfold in_range. by rewrite length_update_page. Qed.

Lemma pool_size_update_page g f s :
  pool_size_ (update_page g f s) = pool_size_ s.
Proof. unfold update_page. by case_decide. Qed.

Lemma replacer_update_page g f s :
  replacer_ (update_page g f s) = replacer_ s.
Proof. unfold update_page. by case_decide. Qed.

Lemma free_list_update_page g f s :
  free_list_ (update_page g f s) = free_list_ s.
Proof. unfold update_page. by case_decide. Qed.

Lemma page_table_update_page g f s :
  page_table_ (update_page g f s) = page_table_ s.
Proof. unfold update_page. by case_decide. Qed.

Lemma disk_manager_update_page g f s :
  disk_manager_ (update_page g f s) = disk_manager_ s.
Proof. unfold update_page. by case_decide. Qed.

Lemma same_bookkeeping_refl s : same_bookkeeping s s.
Proof. by repeat split. Qed.

Lemma same_bookkeeping_trans s1 s2 s3 :
  same_bookkeeping s1 s2 → same_bookkeeping s2 s3 → same_bookkeeping s1 s3.
Proof.
  intros (?&?&?&?&?&Hm1) (?&?&?&?&?&Hm2).
  repeat split; try congruence.
  all: try (intros f; by rewrite Hm2, Hm1).
Qed.

Lemma wrap_int_id z : INT_MIN ≤ z ≤ INT_MAX → wrap_int z = z.
Proof.
  unfold wrap_int, INT_MIN, INT_MAX. intros Hz.
  change (2 ^ 32) with 4294967296. rewrite Z.mod_small; lia.
Qed.

Lemma wrap_int_range z : INT_MIN ≤ wrap_int z ≤ INT_MAX.
Proof.
  unfold wrap_int, INT_MIN, INT_MAX. change (2 ^ 32) with 4294967296.
  pose proof (Z.mod_pos_bound (z - -2147483648) 4294967296). lia.
Qed.

Lemma meta_update_page g f f' s :
  (∀ pg, page_id_ (g pg) = page_id_ pg) →
  (∀ pg, pin_count_ (g pg) = pin_count_ pg) →
  meta (update_page g f s) f' = meta s f'.
Proof.
  intros Hid Hpin. unfold meta.
  destruct (decide (f = f')) as [<-|Hne].
  - destruct (decide (in_range s f)) as [Hin|Hout].
    + rewrite page_at_update_page_eq by done. by rewrite Hid, Hpin.
    + by rewrite page_at_update_page_out.
  - by rewrite page_at_update_page_ne.
Qed.

Lemma FlushPageIfPossible_same f s :
  same_bookkeeping s (FlushPageIfPossible f s).
Proof.
  unfold FlushPageIfPossible.
  destruct (is_dirty_ (page_at s f)); [|apply same_bookkeeping_refl].
  repeat split;
    rewrite ?pool_size_update_page, ?length_update_page, ?replacer_update_page,
      ?free_list_update_page, ?page_table_update_page; try done.
  intros f'. by rewrite meta_update_page.
Qed.

Lemma WriteData_same f buf s : same_bookkeeping s (WriteData f buf s).
Proof.
  unfold WriteData. repeat split;
    rewrite ?pool_size_update_page, ?length_update_page, ?replacer_update_page,
      ?free_list_update_page, ?page_table_update_page; try done.
  intros f'. by rewrite meta_update_page.
Qed.

Lemma flushPageWithoutLock_same p s :
  same_bookkeeping s (flushPageWithoutLock p s).2.
Proof.
  unfold flushPageWithoutLock.
  destruct (page_table_ s !! p); simpl;
    [apply FlushPageIfPossible_same|apply same_bookkeeping_refl].
Qed.

Lemma FlushAllPagesImpl_same s : same_bookkeeping s (FlushAllPagesImpl s).
Proof.
  unfold FlushAllPagesImpl.
  generalize (map_to_list (page_table_ s)). intros l.
  revert s. induction l as [|kv l IH]; intros s; simpl.
  - apply same_bookkeeping_refl.
  - eapply same_bookkeeping_trans; [|apply IH].
    apply flushPageWithoutLock_same.
Qed.

End pool_frames.

(** *** The bookkeeping invariant is kept by every call *)

Section pool_invariant.
Import BufferPoolManager.

Lemma same_bookkeeping_meta s s' f :
  same_bookkeeping s s' →
  page_id_ (page_at s' f) = page_id_ (page_at s f) ∧
  pin_count_ (page_at s' f) = pin_count_ (page_at s f).
Proof.
  intros (_ & _ & _ & _ & _ & Hmeta). specialize (Hmeta f).
  unfold meta in Hmeta. by injection Hmeta.
Qed.

Lemma inv_same s s' : same_bookkeeping s s' → inv s → inv s'.
Proof.
  intros Hsame [I1 I2 I3 I4 I5 I6].
  pose proof (λ f, same_bookkeeping_meta s s' f Hsame) as Hmeta.
  destruct Hsame as (Hps & Hlen & Hrep & Hfree & Htab & _).
  split; unfold in_range in *;
    rewrite ?Hps, ?Hlen, ?Hrep, ?Hfree, ?Htab; try done.
  - intros p f Hpf. destruct (Hmeta f) as [-> _]. auto.
  - intros f Hf. destruct (Hmeta f) as [_ ->]. auto.
  - intros f Hf. destruct (Hmeta f) as [_ ->]. auto.
Qed.

Lemma new_inv pool_size disk_manager : inv (new pool_size disk_manager).
Proof.
  split; simpl.
  - apply length_replicate.
  - apply new_wf.
  - apply NoDup_seqZ.
  - intros p f Hpf. by rewrite lookup_empty in Hpf.
  - intros f Hf. apply elem_of_seqZ in Hf.
    unfold in_range, page_at. simpl. rewrite length_replicate.
    split; [lia|]. split; [|by apply not_elem_of_nil].
    rewrite decide_True by lia.
    rewrite lookup_replicate_2 by lia. done.
  - intros f Hf. by apply not_elem_of_nil in Hf.
Qed.

(** A frame handed out by [FindAvailablePage] is a frame of the array that
    is unpinned, and afterwards neither free nor a candidate; nothing else
    of the pool changes. *)
Lemma FindAvailablePage_Some s F s1 :
  inv s → FindAvailablePage s = (Some F, s1) →
  inv s1 ∧ in_range s1 F ∧ (F ∉ free_list_ s1) ∧
  (F ∉ LRUReplacer.nodes_ (replacer_ s1)) ∧
  pin_count_ (page_at s F) = 0 ∧
  pages_ s1 = pages_ s ∧ page_table_ s1 = page_table_ s ∧
  disk_manager_ s1 = disk_manager_ s.
Proof.
  intros [I1 I2 I3 I4 I5 I6]. unfold FindAvailablePage.
  destruct (free_list_ s) as [|g rest] eqn:Hfl.
  - destruct (LRUReplacer.Victim (replacer_ s)) as [v r] eqn:Hv.
    intros [= -> <-].
    pose proof (Victim_wf _ I2) as Hwf. rewrite Hv in Hwf. simpl in Hwf.
    apply Victim_Some in Hv as [Hnodes Hidx].
    assert (HF : F ∈ LRUReplacer.nodes_ (replacer_ s)).
    { rewrite Hnodes. apply elem_of_app. right. by apply list_elem_of_singleton. }
    assert (HFr : F ∉ LRUReplacer.nodes_ r).
    { destruct I2 as [Hnd _]. rewrite Hnodes in Hnd.
      apply NoDup_app in Hnd as (_ & Hdisj & _).
      intros Hin. apply (Hdisj F Hin). by apply list_elem_of_singleton. }
    assert (Hsub : ∀ f, f ∈ LRUReplacer.nodes_ r →
                        f ∈ LRUReplacer.nodes_ (replacer_ s)).
    { intros f Hf. rewrite Hnodes. apply elem_of_app. by left. }
    destruct (I6 F HF) as [HFin HFpin].
    split;
      [|split; [exact HFin|];
        split; [simpl; rewrite Hfl; apply not_elem_of_nil|]; by repeat split].
    split; simpl; rewrite ?Hfl; try done.
    + intros f Hf. by apply not_elem_of_nil in Hf.
    + intros f Hf. by apply I6, Hsub.
  - intros [= -> <-].
    assert (HF : F ∈ F :: rest) by left.
    apply NoDup_cons in I3 as [HFrest Hnd].
    destruct (I5 F HF) as (HFin & HFpin & HFcand).
    assert (Hsub : ∀ f, f ∈ rest → f ∈ F :: rest)
      by (intros f Hf; by right).
    split; [|split; [exact HFin|]; by repeat split].
    split; simpl; try done.
    + intros p f Hpf. destruct (I4 p f Hpf) as (? & ? & Hnf).
      split; [done|]. split; [done|]. intros Hin. by apply Hnf, Hsub.
    + intros f Hf. by apply I5, Hsub.
Qed.

Lemma FindAvailablePage_None s s1 :
  inv s → FindAvailablePage s = (None, s1) → inv s1.
Proof.
  intros Hinv. unfold FindAvailablePage.
  destruct (free_list_ s) as [|g rest] eqn:Hfl; [|done].
  destruct (LRUReplacer.Victim (replacer_ s)) as [v r] eqn:Hv.
  intros [= -> <-]. apply Victim_None in Hv as [-> _].
  eapply inv_same; [|exact Hinv]. by repeat split.
Qed.

(** Binding a frame [F] that is neither free nor a candidate to a page
    [p]: the page table drops the page [F] held and gets [p ↦ F], and [F]
    is stamped with [p]. *)
Lemma inv_install s s' F p :
  inv s → in_range s F → F ∉ free_list_ s →
  F ∉ LRUReplacer.nodes_ (replacer_ s) →
  pool_size_ s' = pool_size_ s →
  length (pages_ s') = length (pages_ s) →
  free_list_ s' = free_list_ s →
  LRUReplacer.wf (replacer_ s') →
  (∀ f, f ∈ LRUReplacer.nodes_ (replacer_ s') →
        f ∈ LRUReplacer.nodes_ (replacer_ s)) →
  page_table_ s' = <[p := F]> (delete (page_id_ (page_at s F)) (page_table_ s)) →
  page_id_ (page_at s' F) = p →
  (∀ f, f ≠ F → meta s' f = meta s f) →
  inv s'.
Proof.
  intros [I1 I2 I3 I4 I5 I6] HFin HFfree HFcand Hps Hlen Hfl Hwf Hsub Htab Hid Hmeta.
  assert (Hm : ∀ f, f ≠ F →
    page_id_ (page_at s' f) = page_id_ (page_at s f) ∧
    pin_count_ (page_at s' f) = pin_count_ (page_at s f)).
  { intros f Hf. specialize (Hmeta f Hf). unfold meta in Hmeta.
    by injection Hmeta. }
  split; unfold in_range in *; rewrite ?Hps, ?Hlen, ?Hfl; try done.
  - intros q f. rewrite Htab. intros Hq.
    destruct (decide (p = q)) as [<-|Hpq].
    + rewrite lookup_insert_eq in Hq. injection Hq as <-. done.
    + rewrite lookup_insert_ne in Hq by done.
      apply lookup_delete_Some in Hq as [Hne Hq].
      destruct (I4 q f Hq) as (Hfin & Hfid & Hffree).
      assert (f ≠ F) by (intros ->; done).
      destruct (Hm f) as [-> _]; done.
  - intros f Hf. destruct (I5 f Hf) as (Hfin & Hfpin & Hfcand).
    assert (f ≠ F) by (intros ->; done).
    destruct (Hm f) as [_ ->]; [done|]. split; [done|]. split; [done|].
    intros Hin. by apply Hfcand, Hsub.
  - intros f Hf. apply Hsub in Hf.
    assert (f ≠ F) by (intros ->; done).
    destruct (Hm f) as [_ ->]; [done|]. by apply I6.
Qed.

Lemma page_at_with_replacer r s f : page_at (with_replacer r s) f = page_at s f.
Proof. done. Qed.

Lemma Pin_subseteq f g r :
  LRUReplacer.wf r →
  g ∈ LRUReplacer.nodes_ (LRUReplacer.Pin f r) → g ∈ LRUReplacer.nodes_ r.
Proof. intros Hwf Hg. by apply elem_of_Pin in Hg as [? _]. Qed.

Lemma FetchPageImpl_inv p s : inv s → inv (FetchPageImpl p s).2.
Proof.
  intros Hinv. unfold FetchPageImpl.
  destruct (page_table_ s !! p) as [F|] eqn:Hp.
  - (* the page is resident *)
    destruct Hinv as [I1 I2 I3 I4 I5 I6]. simpl.
    destruct (I4 p F Hp) as (HFin & HFid & HFfree).
    split; unfold in_range;
      rewrite ?pool_size_update_page, ?length_update_page,
        ?replacer_update_page, ?free_list_update_page,
        ?page_table_update_page; simpl; try done.
    + by apply Pin_wf.
    + intros q f Hq. destruct (I4 q f Hq) as (Hfin & Hfid & Hffree).
      split; [done|]. split; [|done].
      destruct (decide (F = f)) as [<-|Hne].
      * by rewrite page_at_update_page_eq.
      * by rewrite page_at_update_page_ne.
    + intros f Hf. destruct (I5 f Hf) as (Hfin & Hfpin & Hfcand).
      assert (F ≠ f) by (intros ->; done).
      rewrite page_at_update_page_ne by done.
      split; [done|]. split; [done|]. intros Hin. by apply Hfcand, (Pin_subseteq F).
    + intros f Hf. apply elem_of_Pin in Hf as [Hf Hne]; [|done].
      rewrite page_at_update_page_ne by done. by apply I6.
  - (* the page is read into a frame from the free list or the replacer *)
    destruct (FindAvailablePage s) as [[F|] s1] eqn:Hfa; simpl.
    + destruct (FindAvailablePage_Some s F s1 Hinv Hfa)
        as (Hinv1 & HFin & HFfree & HFcand & _).
      unfold DiskManager.ReadPage.
      set (s2 := with_page_table _ (with_page_table _ s1)).
      destruct (FlushPageIfPossible_same F s2) as (E1 & E2 & E3 & E4 & E5 & E6).
      assert (HFin3 : in_range (FlushPageIfPossible F s2) F)
        by (unfold in_range; by rewrite E2).
      apply (inv_install s1 _ F p); try done;
        rewrite ?pool_size_update_page, ?length_update_page,
          ?replacer_update_page, ?free_list_update_page,
          ?page_table_update_page; simpl; try done.
      * rewrite E3. simpl. by destruct Hinv1.
      * intros f. by rewrite E3.
      * rewrite page_at_update_page_eq, page_at_update_page_eq; [done|..];
          rewrite ?in_range_update_page; done.
      * intros f Hf. unfold meta.
        rewrite !page_at_update_page_ne by done. apply (E6 f).
    + by apply (FindAvailablePage_None s).
Qed.

Lemma NewPageImpl_inv s : inv s → inv (NewPageImpl s).2.
Proof.
  intros Hinv. unfold NewPageImpl.
  destruct (FindAvailablePage s) as [[F|] s1] eqn:Hfa; simpl.
  - destruct (FindAvailablePage_Some s F s1 Hinv Hfa)
      as (Hinv1 & HFin & HFfree & HFcand & _).
    set (q := DiskManager.next_page_id (disk_manager_ s1)).
    set (s2 := with_replacer _ (with_page_table _ (with_page_table _ (with_disk _ s1)))).
    destruct (FlushPageIfPossible_same F s2) as (E1 & E2 & E3 & E4 & E5 & E6).
    assert (HFin3 : in_range (FlushPageIfPossible F s2) F)
      by (unfold in_range; by rewrite E2).
    assert (Hwf1 : LRUReplacer.wf (replacer_ s1)) by by destruct Hinv1.
    apply (inv_install s1 _ F q); try done;
      rewrite ?pool_size_update_page, ?length_update_page,
        ?replacer_update_page, ?free_list_update_page,
        ?page_table_update_page; simpl; try done.
    + rewrite E3. simpl. by apply Pin_wf.
    + intros f. rewrite E3. simpl. by apply Pin_subseteq.
    + rewrite page_at_update_page_eq, page_at_update_page_eq; [done|..];
        rewrite ?in_range_update_page; done.
    + intros f Hf. unfold meta.
      rewrite !page_at_update_page_ne by done. apply (E6 f).
  - by apply (FindAvailablePage_None s).
Qed.

Lemma UnpinPageImpl_inv p d s : inv s → inv (UnpinPageImpl p d s).2.
Proof.
  intros Hinv. unfold UnpinPageImpl.
  destruct (page_table_ s !! p) as [F|] eqn:Hp; [|done].
  destruct (decide (pin_count_ (page_at s F) > 0)) as [Hpin|Hpin]; [|done].
  destruct Hinv as [I1 I2 I3 I4 I5 I6].
  destruct (I4 p F Hp) as (HFin & HFid & HFfree).
  assert (HFcand : F ∉ LRUReplacer.nodes_ (replacer_ s)).
  { intros Hin. apply I6 in Hin as [_ Hz]. lia. }
  set (s1 := update_page _ F s).
  set (s2 := update_page _ F s1).
  assert (HFin1 : in_range s1 F) by by apply in_range_update_page.
  assert (Hpin2 : pin_count_ (page_at s2 F) = pin_count_ (page_at s F) - 1).
  { unfold s2. rewrite page_at_update_page_eq by done. simpl.
    unfold s1. by rewrite page_at_update_page_eq. }
  assert (Hid2 : ∀ f, page_id_ (page_at s2 f) = page_id_ (page_at s f)).
  { intros f. unfold s2. destruct (decide (F = f)) as [<-|Hne].
    - rewrite page_at_update_page_eq by done. simpl.
      unfold s1. by rewrite page_at_update_page_eq.
    - unfold s1. by rewrite !page_at_update_page_ne. }
  assert (Hother : ∀ f, f ≠ F → page_at s2 f = page_at s f).
  { intros f Hne. unfold s2, s1. by rewrite !page_at_update_page_ne. }
  assert (Hfields : pool_size_ s2 = pool_size_ s ∧ replacer_ s2 = replacer_ s ∧
            free_list_ s2 = free_list_ s ∧ page_table_ s2 = page_table_ s ∧
            length (pages_ s2) = length (pages_ s)).
  { unfold s2, s1.
    rewrite ?pool_size_update_page, ?replacer_update_page,
      ?free_list_update_page, ?page_table_update_page, ?length_update_page.
    done. }
  destruct Hfields as (F1 & F2 & F3 & F4 & F5).
  clearbody s2. clear s1 HFin1. simpl.
  destruct (decide (pin_count_ (page_at s2 F) = 0)) as [Hz|Hnz].
  - split; unfold in_range; simpl;
      rewrite ?F1, ?F2, ?F3, ?F4, ?F5; try done;
      try setoid_rewrite page_at_with_replacer.
    + by apply Unpin_wf.
    + intros q f Hq. rewrite (Hid2 f). by apply I4.
    + intros f Hf. destruct (I5 f Hf) as (Hfin & Hfpin & Hfcand).
      assert (f ≠ F) by (intros ->; done).
      rewrite Hother by done. split; [done|]. split; [done|].
      rewrite elem_of_Unpin by done. by intros [?|?].
    + intros f Hf. apply elem_of_Unpin in Hf as [->|Hf]; [done| |done].
      assert (f ≠ F) by (intros ->; done).
      rewrite Hother by done. by apply I6.
  - split; unfold in_range; rewrite ?F1, ?F2, ?F3, ?F4, ?F5; try done.
    + intros q f Hq. rewrite (Hid2 f). by apply I4.
    + intros f Hf. destruct (I5 f Hf) as (Hfin & Hfpin & Hfcand).
      assert (f ≠ F) by (intros ->; done).
      by rewrite Hother.
    + intros f Hf.
      assert (f ≠ F) by (intros ->; done).
      rewrite Hother by done. by apply I6.
Qed.

Lemma DeletePageImpl_inv p s : inv s → inv (DeletePageImpl p s).2.
Proof.
  intros Hinv. unfold DeletePageImpl.
  destruct (page_table_ s !! p) as [F|] eqn:Hp; [|done].
  destruct (decide (pin_count_ (page_at s F) > 0)) as [Hpin|Hpin]; [done|].
  destruct Hinv as [I1 I2 I3 I4 I5 I6].
  destruct (I4 p F Hp) as (HFin & HFid & HFfree).
  set (s0 := with_disk _ s).
  set (s4 := update_page ResetMemory F _).
  set (sf := with_free_list _ _). simpl.
  assert (Hother : ∀ f, f ≠ F → page_at sf f = page_at s f).
  { intros f Hne. change (page_at sf f) with (page_at s4 f).
    unfold s4. by rewrite !page_at_update_page_ne. }
  assert (Hlen : length (pages_ sf) = length (pages_ s)).
  { change (pages_ sf) with (pages_ s4). unfold s4.
    by rewrite !length_update_page. }
  assert (HF4 : pin_count_ (page_at sf F) = 0).
  { change (page_at sf F) with (page_at s4 F). unfold s4.
    rewrite page_at_update_page_eq by (rewrite ?in_range_update_page; done).
    simpl.
    by rewrite page_at_update_page_eq by (rewrite ?in_range_update_page; done). }
  assert (Hfields : pool_size_ sf = pool_size_ s ∧
            replacer_ sf = LRUReplacer.Pin F (replacer_ s) ∧
            free_list_ sf = free_list_ s ++ [F] ∧
            page_table_ sf = delete p (page_table_ s)).
  { unfold sf. simpl. unfold s4.
    rewrite ?pool_size_update_page, ?replacer_update_page,
      ?free_list_update_page, ?page_table_update_page. done. }
  destruct Hfields as (F1 & F2 & F3 & F4).
  clearbody sf. clear s4 s0.
  split; unfold in_range; rewrite ?Hlen, ?F1, ?F2, ?F3, ?F4; try done.
  - by apply Pin_wf.
  - apply NoDup_app. split; [done|]. split; [|apply NoDup_singleton].
    intros f Hf Hf'. apply list_elem_of_singleton in Hf' as ->. done.
  - intros q f Hq. apply lookup_delete_Some in Hq as [Hne Hq].
    destruct (I4 q f Hq) as (Hfin & Hfid & Hffree).
    assert (f ≠ F) by (intros ->; congruence).
    rewrite Hother by done. split; [done|]. split; [done|].
    rewrite elem_of_app, list_elem_of_singleton. by intros [?|?].
  - intros f Hf. apply elem_of_app in Hf as [Hf|Hf].
    + destruct (I5 f Hf) as (Hfin & Hfpin & Hfcand).
      assert (f ≠ F) by (intros ->; done).
      rewrite Hother by done. split; [done|]. split; [done|].
      intros Hin. by apply Hfcand, (Pin_subseteq F).
    + apply list_elem_of_singleton in Hf as ->.
      split; [done|]. split; [done|].
      rewrite elem_of_Pin by done. by intros [_ ?].
  - intros f Hf. apply elem_of_Pin in Hf as [Hf Hne]; [|done].
    rewrite Hother by done. by apply I6.
Qed.

Lemma step_inv q s : inv s → inv (step q s).
Proof.
  intros Hinv. destruct q as [p| |p d|p| |p|f buf]; simpl.
  - by apply FetchPageImpl_inv.
  - by apply NewPageImpl_inv.
  - by apply UnpinPageImpl_inv.
  - eapply inv_same; [apply flushPageWithoutLock_same|done].
  - eapply inv_same; [apply FlushAllPagesImpl_same|done].
  - by apply DeletePageImpl_inv.
  - eapply inv_same; [apply WriteData_same|done].
Qed.

Lemma reachable_inv s : reachable s → inv s.
Proof. induction 1; [apply new_inv|by apply step_inv]. Qed.

Lemma reachable_run qs s : reachable s → reachable (run qs s).
Proof.
  revert s. induction qs as [|q qs IH]; intros s Hs; simpl; [done|].
  by apply IH, reach_step.
Qed.

(** No call on a pool built by the constructor indexes the frame array out
    of its bounds: the frames named by the page table, the free list and the
    replacer are all frames of the array. *)
Lemma reachable_in_range s f :
  reachable s →
  (∃ p, page_table_ s !! p = Some f) ∨ f ∈ free_list_ s ∨
  f ∈ LRUReplacer.nodes_ (replacer_ s) →
  in_range s f.
Proof.
  intros Hr. apply reachable_inv in Hr as [I1 I2 I3 I4 I5 I6].
  intros [[p Hp]|[Hf|Hf]].
  - by apply (I4 p f).
  - by apply I5.
  - by apply I6.
Qed.

End pool_invariant.

(** ** The replacer: repeated unpins and the eviction order *)

Section replacer_claims.
Import LRUReplacer.

Lemma Unpin_present x r : wf r → x ∈ nodes_ r → Unpin x r = r.
Proof.
  intros [_ Hix] Hx. unfold Unpin. rewrite decide_True; [done|]. by apply Hix.
Qed.

Lemma Unpin_absent x r :
  x ∉ index_ r →
  Unpin x r =
    {| num_pages_ := num_pages_ r; nodes_ := x :: nodes_ r;
       index_ := {[x]} ∪ index_ r |}.
Proof. intros Hx. unfold Unpin. by rewrite decide_False. Qed.

(** C9: [Unpin(x)] on a replacer that already lists [x] changes nothing, the
    position of [x] included; after any [Unpin(x)] the replacer lists [x],
    so a second [Unpin(x)] changes nothing.  After [Unpin(a); Unpin(b);
    Unpin(c)] on a new replacer, for distinct [a], [b], [c], the replacer
    lists [c], [b], [a] from the front, and three calls of [Victim] succeed
    and give [a], then [b], then [c]. *)
Theorem C9_unpin_idempotent_and_victim_order r x n a b c :
  reachable r → a ≠ b → a ≠ c → b ≠ c →
  (x ∈ nodes_ r → Unpin x r = r) ∧
  x ∈ nodes_ (Unpin x r) ∧
  Unpin x (Unpin x r) = Unpin x r ∧
  nodes_ (Unpin c (Unpin b (Unpin a (new n)))) = [c; b; a] ∧
  ∃ r1 r2 r3,
    Victim (Unpin c (Unpin b (Unpin a (new n)))) = (Some a, r1) ∧
    Victim r1 = (Some b, r2) ∧
    Victim r2 = (Some c, r3) ∧
    nodes_ r3 = [].
Proof.
  intros Hr Hab Hac Hbc.
  pose proof (reachable_wf r Hr) as Hwf.
  assert (Hx : x ∈ nodes_ (Unpin x r)) by (apply elem_of_Unpin; [done|by left]).
  split; [intros Hin; by apply Unpin_present|].
  split; [done|].
  split; [apply Unpin_present; [by apply Unpin_wf|done]|].
  rewrite (Unpin_absent a) by set_solver. simpl.
  rewrite (Unpin_absent b) by set_solver. simpl.
  rewrite (Unpin_absent c) by set_solver. simpl.
  split; [done|].
  unfold Victim. simpl. eexists _, _, _. split; [done|].
  simpl. split; [done|]. simpl. by split.
Qed.

Lemma C9_witness :
  (1 ∈ nodes_ (Unpin 1 (new 3)) → Unpin 1 (Unpin 1 (new 3)) = Unpin 1 (new 3)) ∧
  1 ∈ nodes_ (Unpin 1 (Unpin 1 (new 3))) ∧
  Unpin 1 (Unpin 1 (Unpin 1 (new 3))) = Unpin 1 (Unpin 1 (new 3)) ∧
  nodes_ (Unpin 2 (Unpin 1 (Unpin 0 (new 3)))) = [2; 1; 0] ∧
  ∃ r1 r2 r3,
    Victim (Unpin 2 (Unpin 1 (Unpin 0 (new 3)))) = (Some 0, r1) ∧
    Victim r1 = (Some 1, r2) ∧
    Victim r2 = (Some 2, r3) ∧
    nodes_ r3 = [].
Proof.
  apply (C9_unpin_idempotent_and_victim_order (Unpin 1 (new 3)) 1 3 0 1 2).
  - apply reach_Unpin, reach_new.
  - lia.
  - lia.
  - lia.
Defined.

End replacer_claims.

(** ** The buffer pool: eviction candidates, fetch hits and deletion *)

Section pool_claims.
Import BufferPoolManager Examples.

(** C8: in every state of the pool that the constructor and the six entry
    points can produce, each frame listed by the replacer has pin count 0;
    so the frame [Victim] returns, and the frame [FindAvailablePage] hands to
    [FetchPage] or [NewPage], never has a positive pin count. *)
Theorem C8_candidates_are_unpinned s :
  reachable s →
  (∀ f, f ∈ LRUReplacer.nodes_ (replacer_ s) → pin_count_ (page_at s f) = 0) ∧
  (∀ f r, LRUReplacer.Victim (replacer_ s) = (Some f, r) →
          ¬ pin_count_ (page_at s f) > 0) ∧
  (∀ f s', FindAvailablePage s = (Some f, s') →
           ¬ pin_count_ (page_at s f) > 0).
Proof.
  intros Hr. apply reachable_inv in Hr as Hinv.
  split; [|split].
  - intros f Hf. by apply (inv_cand s Hinv).
  - intros f r Hv. apply Victim_Some in Hv as [Hnodes _].
    assert (Hf : f ∈ LRUReplacer.nodes_ (replacer_ s)).
    { rewrite Hnodes. apply elem_of_app. right. by apply list_elem_of_singleton. }
    apply (inv_cand s Hinv) in Hf as [_ Hz]. lia.
  - intros f s' Hfa.
    destruct (FindAvailablePage_Some s f s' Hinv Hfa) as (_ & _ & _ & _ & Hz & _).
    lia.
Qed.

Lemma C8_witness :
  (∀ f, f ∈ LRUReplacer.nodes_ (replacer_ pool2_unpinned) →
        pin_count_ (page_at pool2_unpinned f) = 0) ∧
  (∀ f r, LRUReplacer.Victim (replacer_ pool2_unpinned) = (Some f, r) →
          ¬ pin_count_ (page_at pool2_unpinned f) > 0) ∧
  (∀ f s', FindAvailablePage pool2_unpinned = (Some f, s') →
           ¬ pin_count_ (page_at pool2_unpinned f) > 0).
Proof.
  apply (C8_candidates_are_unpinned pool2_unpinned).
  apply reachable_run, reach_new.
Defined.

(** [n] more fetches of a pinned page: the pin count goes up by one each
    time, as long as it stays within [INT_MAX]. *)
Lemma fetch_hit_repeats (n : nat) :
  1 + Z.of_nat n ≤ INT_MAX →
  reachable (update_page (set_pin_count (1 + Z.of_nat n)) 0 pool2_pinned).
Proof.
  assert (Hp : page_table_ pool2_pinned !! 0 = Some 0) by (by vm_compute).
  assert (Hr : LRUReplacer.Pin 0 (replacer_ pool2_pinned) = replacer_ pool2_pinned)
    by (by vm_compute).
  induction n as [|n IH]; intros Hn.
  - replace (update_page (set_pin_count (1 + Z.of_nat 0)) 0 pool2_pinned)
      with pool2_pinned by (by vm_compute).
    apply reachable_run, reach_new.
  - assert (Hprev : 1 + Z.of_nat n ≤ INT_MAX) by lia.
    specialize (IH Hprev).
    replace (update_page (set_pin_count (1 + Z.of_nat (S n))) 0 pool2_pinned)
      with (step (FetchPage 0)
              (update_page (set_pin_count (1 + Z.of_nat n)) 0 pool2_pinned));
      [by apply reach_step|].
    simpl. unfold FetchPageImpl.
    rewrite page_table_update_page, Hp, replacer_update_page, Hr. simpl.
    unfold update_page. rewrite !decide_True by done. simpl.
    destruct (pages_ pool2_pinned) as [|P0 l] eqn:E;
      [vm_compute in E; discriminate|].
    change (Z.to_nat 0) with 0%nat. unfold with_replacer, with_pages. simpl.
    unfold set_pin_count. simpl.
    rewrite wrap_int_id by (unfold INT_MIN, INT_MAX in *; lia).
    by replace (1 + Z.of_nat (S n)) with (1 + Z.of_nat n + 1) by lia.
Qed.

Lemma reachable_pin_max : reachable pool_pin_max.
Proof.
  assert (E : INT_MAX = 1 + Z.of_nat (Z.to_nat (INT_MAX - 1))).
  { rewrite Z2Nat.id; [lia|by vm_compute]. }
  unfold pool_pin_max. rewrite E. apply fetch_hit_repeats. by rewrite <- E.
Qed.

(** C10, as stated, fails when the pin count stands at [INT_MAX]: the pool
    of two frames that holds page 0 after [NewPage] and [INT_MAX - 1] calls
    of [FetchPage(0)] is a state of the pool, and one more [FetchPage(0)]
    leaves the pin count at [INT_MIN], not at [INT_MAX + 1]. *)
Lemma C10_counterexample :
  reachable pool_pin_max ∧
  page_table_ pool_pin_max !! 0 = Some 0 ∧
  pin_count_ (page_at pool_pin_max 0) = 2147483647 ∧
  (FetchPageImpl 0 pool_pin_max).1 = Some 0 ∧
  pin_count_ (page_at (FetchPageImpl 0 pool_pin_max).2 0) = -2147483648 ∧
  pin_count_ (page_at (FetchPageImpl 0 pool_pin_max).2 0) ≠
    pin_count_ (page_at pool_pin_max 0) + 1.
Proof.
  split; [apply reachable_pin_max|].
  vm_compute. repeat split; try reflexivity. discriminate.
Qed.

(** C10, amended: the pin count of [F] is below [INT_MAX].  A [FetchPage(p)]
    that finds [p] in the page table at frame [F] returns [F]; it adds one
    to the pin count of [F] and takes [F] out of the replacer; the buffer,
    dirty flag and page identifier of [F], every other frame, the page
    table, the free list and the device (its stored bytes and the calls it
    received) stay as they were. *)
Theorem C10_fetch_hit_frame s p F :
  page_table_ s !! p = Some F → in_range s F →
  LRUReplacer.wf (replacer_ s) →
  INT_MIN ≤ pin_count_ (page_at s F) < INT_MAX →
  ∃ s',
    FetchPageImpl p s = (Some F, s') ∧
    pin_count_ (page_at s' F) = pin_count_ (page_at s F) + 1 ∧
    data_ (page_at s' F) = data_ (page_at s F) ∧
    is_dirty_ (page_at s' F) = is_dirty_ (page_at s F) ∧
    page_id_ (page_at s' F) = page_id_ (page_at s F) ∧
    (∀ f, f ≠ F → page_at s' f = page_at s f) ∧
    length (pages_ s') = length (pages_ s) ∧
    pool_size_ s' = pool_size_ s ∧
    page_table_ s' = page_table_ s ∧
    free_list_ s' = free_list_ s ∧
    disk_manager_ s' = disk_manager_ s ∧
    replacer_ s' = LRUReplacer.Pin F (replacer_ s) ∧
    (∀ g, g ∈ LRUReplacer.nodes_ (replacer_ s') ↔
          g ∈ LRUReplacer.nodes_ (replacer_ s) ∧ g ≠ F) ∧
    (F ∉ LRUReplacer.nodes_ (replacer_ s) → replacer_ s' = replacer_ s).
Proof.
  intros Hp HF Hwf Hpin. unfold FetchPageImpl. rewrite Hp.
  eexists. split; [done|].
  rewrite page_at_update_page_eq by done. simpl.
  change (page_at (with_replacer (LRUReplacer.Pin F (replacer_ s)) s) F)
    with (page_at s F).
  rewrite wrap_int_id by (unfold INT_MIN, INT_MAX in *; lia).
  rewrite length_update_page, pool_size_update_page, page_table_update_page,
    free_list_update_page, disk_manager_update_page, replacer_update_page.
  simpl. repeat (split; [done|]).
  split; [intros f Hf; by rewrite page_at_update_page_ne|].
  repeat (split; [done|]).
  split; [intros g; by apply elem_of_Pin|].
  intros HFn. unfold LRUReplacer.Pin. rewrite decide_False; [done|].
  destruct Hwf as [_ Hix]. by rewrite Hix.
Qed.

Lemma C10_witness :
  ∃ s',
    FetchPageImpl 0 pool2_unpinned = (Some 0, s') ∧
    pin_count_ (page_at s' 0) = pin_count_ (page_at pool2_unpinned 0) + 1 ∧
    data_ (page_at s' 0) = data_ (page_at pool2_unpinned 0) ∧
    is_dirty_ (page_at s' 0) = is_dirty_ (page_at pool2_unpinned 0) ∧
    page_id_ (page_at s' 0) = page_id_ (page_at pool2_unpinned 0) ∧
    (∀ f, f ≠ 0 → page_at s' f = page_at pool2_unpinned f) ∧
    length (pages_ s') = length (pages_ pool2_unpinned) ∧
    pool_size_ s' = pool_size_ pool2_unpinned ∧
    page_table_ s' = page_table_ pool2_unpinned ∧
    free_list_ s' = free_list_ pool2_unpinned ∧
    disk_manager_ s' = disk_manager_ pool2_unpinned ∧
    replacer_ s' = LRUReplacer.Pin 0 (replacer_ pool2_unpinned) ∧
    (∀ g, g ∈ LRUReplacer.nodes_ (replacer_ s') ↔
          g ∈ LRUReplacer.nodes_ (replacer_ pool2_unpinned) ∧ g ≠ 0) ∧
    (0 ∉ LRUReplacer.nodes_ (replacer_ pool2_unpinned) →
     replacer_ s' = replacer_ pool2_unpinned).
Proof.
  apply (C10_fetch_hit_frame pool2_unpinned 0 0).
  - vm_compute. reflexivity.
  - unfold in_range. vm_compute. split; [discriminate|reflexivity].
  - apply inv_replacer, reachable_inv, reachable_run, reach_new.
  - by vm_compute.
Defined.

(** C4, as stated, fails: deleting page 7 from a fresh pool, where it is
    not resident, returns [true] and the device never gets a
    [DeallocatePage] call. *)
Lemma C4_counterexample :
  page_table_ pool1 !! 7 = None ∧
  (DeletePageImpl 7 pool1).1 = true ∧
  DiskManager.calls (disk_manager_ (DeletePageImpl 7 pool1).2) = [] ∧
  DiskManager.CallDeallocatePage 7 ∉
    DiskManager.calls (disk_manager_ (DeletePageImpl 7 pool1).2).
Proof.
  split; [done|]. split; [done|]. split; [done|].
  change (DiskManager.calls (disk_manager_ (DeletePageImpl 7 pool1).2))
    with (@nil DiskManager.call).
  apply not_elem_of_nil.
Qed.

(** C4, amended: for a page identifier that is not in the page table,
    [DeletePage] returns [true] and changes nothing, neither in the pool nor
    on the device; the identifier is not deallocated (the call is commented
    out in the source). *)
Theorem C4_delete_not_resident s p :
  page_table_ s !! p = None → DeletePageImpl p s = (true, s).
Proof. intros Hp. unfold DeletePageImpl. by rewrite Hp. Qed.

Lemma C4_witness : DeletePageImpl 7 pool1 = (true, pool1).
Proof. apply (C4_delete_not_resident pool1 7). vm_compute. reflexivity. Defined.




End pool_claims.

(** ** Binary search in the pages *)

Lemma load_det {E} (a : list E) i e e' :
  load a i = Ok e → load a i = Ok e' → e = e'.
Proof. intros He He'. rewrite He in He'. by injection He'. Qed.

Section search.
Context {K V : Type}.
Context (comparator : K → K → Z) `{!Comparator comparator}.
Implicit Types a : list (K * V).

Lemma load_Ok a i :
  0 ≤ i < Z.of_nat (length a) → ∃ e, load a i = Ok e.
Proof.
  intros Hi. unfold load. rewrite decide_True by lia.
  destruct (a !! Z.to_nat i) as [e|] eqn:He; [by exists e|].
  apply lookup_ge_None in He. lia.
Qed.

Lemma comparator_lt_trans x y z :
  comparator x y < 0 → comparator y z < 0 → comparator x z < 0.
Proof.
  intros Hxy Hyz.
  assert (Hxz : comparator x z ≤ 0) by (apply (comparator_trans x y z); lia).
  destruct (decide (comparator x z = 0)) as [Hz|]; [|lia].
  pose proof (comparator_antisym x z) as Hzx. rewrite Hz in Hzx. simpl in Hzx.
  assert (Hzy : comparator z y ≤ 0).
  { apply (comparator_trans z x y); [|lia].
    destruct (comparator z x); simpl in Hzx; lia. }
  pose proof (comparator_antisym y z) as Hs.
  destruct (comparator y z), (comparator z y); simpl in Hs; lia.
Qed.

Lemma keys_ascending_pairwise a first size :
  size ≤ Z.of_nat (length a) → 0 ≤ first →
  keys_ascending comparator a first size →
  ∀ i j ei ej, first ≤ i → i < j → j < size →
    load a i = Ok ei → load a j = Ok ej → comparator ei.1 ej.1 < 0.
Proof.
  intros Hlen Hfirst Hasc i j ei ej Hi Hij Hj Hei.
  assert (Hn : ∃ n : nat, j = i + 1 + Z.of_nat n)
    by (exists (Z.to_nat (j - i - 1)); lia).
  destruct Hn as [n ->]. clear Hij. revert ej Hj.
  induction n as [|n IH]; intros ej Hj Hej.
  - rewrite Z.add_0_r in Hej. apply (Hasc i ei ej); try done. lia.
  - destruct (load_Ok a (i + 1 + Z.of_nat n)) as [em Hem]; [lia|].
    apply (comparator_lt_trans _ em.1).
    + apply IH; [lia|done].
    + apply (Hasc (i + 1 + Z.of_nat n) em ej); try done; try lia.
      replace (i + 1 + Z.of_nat n + 1) with (i + 1 + Z.of_nat (S n)) by lia.
      done.
Qed.

End search.

(** ** Internal page: [Lookup] *)

Section internal_lookup.
Context {K V : Type}.
Context (comparator : K → K → Z) `{!Comparator comparator}.
Import BPlusTreePage InternalPage.

Lemma load_Err {E} (a : list E) i err : load a i = Err err → err = OutOfBounds.
Proof.
  unfold load. destruct (decide (0 ≤ i)); [|by intros [= <-]].
  destruct (a !! Z.to_nat i); [done|by intros [= <-]].
Qed.

Lemma midpoint_bounds lo hi :
  0 ≤ lo → lo < hi → lo ≤ (lo + hi) `quot` 2 < hi.
Proof.
  intros Hlo Hlt. rewrite Z.quot_div_nonneg by lia. split.
  - apply Z.div_le_lower_bound; lia.
  - apply Z.div_lt_upper_bound; lia.
Qed.

(** The fuel [Lookup] passes to its loop is never used up: whatever the
    page holds, the search does not end in [OutOfFuel]. *)
Lemma Lookup_loop_never_OutOfFuel (p : InternalPage.t K V) key fuel lo hi :
  0 ≤ lo → hi - lo ≤ Z.of_nat fuel →
  Lookup_loop fuel lo hi key comparator p ≠ Err OutOfFuel.
Proof.
  revert lo hi. induction fuel as [|fuel IH]; intros lo hi Hlo Hfuel; simpl.
  - by rewrite decide_False by lia.
  - destruct (decide (lo < hi)) as [Hlt|Hge]; [|done].
    pose proof (midpoint_bounds lo hi Hlo Hlt) as Hmid.
    destruct (load (array_ p) ((lo + hi) `quot` 2)) as [e|err] eqn:Hl; simpl.
    + destruct (decide (comparator e.1 key > 0)); apply IH; lia.
    + by apply load_Err in Hl as ->.
Qed.

Lemma Lookup_never_OutOfFuel (p : InternalPage.t K V) key :
  Lookup key comparator p ≠ Err OutOfFuel.
Proof.
  unfold Lookup.
  pose proof (Lookup_loop_never_OutOfFuel p key
    (Z.to_nat (GetSize (header p))) 1 (GetSize (header p) - 1)) as Hloop.
  destruct (Lookup_loop _ _ _ _ _ _) as [lo|err]; simpl.
  - destruct (load (array_ p) lo) as [e|err] eqn:Hl; simpl;
      [|by apply load_Err in Hl as ->].
    destruct (decide (comparator e.1 key > 0)); [|done].
    destruct (load (array_ p) (lo - 1)) as [e'|err] eqn:Hl'; simpl; [done|].
    by apply load_Err in Hl' as ->.
  - intros [= ->]. apply Hloop; [lia|lia|done].
Qed.

(** The loop of [Lookup], started inside [1, size - 1] with at least
    [hi - lo] fuel, returns an index [r]; no key before [r] is greater than
    the search key, and the key at [r] is, unless [r] is the last index. *)
Lemma Lookup_loop_fuel (p : InternalPage.t K V) key size fuel lo hi :
  size ≤ Z.of_nat (length (array_ p)) →
  keys_ascending comparator (array_ p) 1 size →
  1 ≤ lo → lo ≤ hi → hi ≤ size - 1 →
  hi - lo ≤ Z.of_nat fuel →
  (∀ j e, 1 ≤ j < lo → load (array_ p) j = Ok e → comparator e.1 key ≤ 0) →
  (hi = size - 1 ∨ ∃ e, load (array_ p) hi = Ok e ∧ comparator e.1 key > 0) →
  ∃ r, Lookup_loop fuel lo hi key comparator p = Ok r ∧
    1 ≤ r ≤ size - 1 ∧
    (∀ j e, 1 ≤ j < r → load (array_ p) j = Ok e → comparator e.1 key ≤ 0) ∧
    (r = size - 1 ∨ ∃ e, load (array_ p) r = Ok e ∧ comparator e.1 key > 0).
Proof.
  intros Hlen Hasc. revert lo hi.
  induction fuel as [|fuel IH]; intros lo hi Hlo Hlohi Hhi Hfuel Hbelow Habove.
  - simpl. rewrite decide_False by lia. exists lo.
    assert (lo = hi) as -> by lia. repeat split; try done; lia.
  - simpl. destruct (decide (lo < hi)) as [Hlt|Hge].
    + assert (Hmid : lo ≤ (lo + hi) `quot` 2 < hi)
        by (apply midpoint_bounds; lia).
      set (mid := (lo + hi) `quot` 2) in *.
      destruct (load_Ok (array_ p) mid) as [em Hem]; [lia|].
      rewrite Hem. simpl.
      destruct (decide (comparator em.1 key > 0)) as [Hgt|Hle].
      * apply IH; try lia; try done. right. by exists em.
      * apply IH; try lia; try done.
        intros j e Hj He.
        destruct (decide (j = mid)) as [->|Hne].
        -- rewrite (load_det _ _ _ _ He Hem). lia.
        -- apply (comparator_trans _ em.1); [|lia].
           assert (comparator e.1 em.1 < 0); [|lia].
           apply (keys_ascending_pairwise comparator (array_ p) 1 size)
             with (i := j) (j := mid); try done; lia.
    + exists lo. assert (lo = hi) as -> by lia. repeat split; try done; lia.
Qed.

(** On a page with at least two entries, all of them in the page's buffer,
    and ascending keys from index 1 on, [Lookup] returns the child left of
    the first key greater than the search key, the last child when there is
    no such key: [i] below is the index of that key, or [size]. *)
Lemma Lookup_first_greater (p : InternalPage.t K V) key :
  2 ≤ GetSize (header p) →
  GetSize (header p) ≤ Z.of_nat (length (array_ p)) →
  keys_ascending comparator (array_ p) 1 (GetSize (header p)) →
  ∃ i v, 1 ≤ i ≤ GetSize (header p) ∧
    Lookup key comparator p = Ok v ∧ ValueAt (i - 1) p = Ok v ∧
    (∀ j kj, 1 ≤ j < i → KeyAt j p = Ok kj → comparator kj key ≤ 0) ∧
    (i < GetSize (header p) → ∃ ki, KeyAt i p = Ok ki ∧ comparator ki key > 0).
Proof.
  intros Hsize Hlen Hasc. set (size := GetSize (header p)) in *.
  destruct (Lookup_loop_fuel p key size (Z.to_nat size) 1 (size - 1))
    as (r & Hloop & Hr & Hbelow & Habove); try done; try lia.
  assert (HK : ∀ j kj, KeyAt j p = Ok kj → ∃ e, load (array_ p) j = Ok e ∧ e.1 = kj).
  { intros j kj. unfold KeyAt. destruct (load (array_ p) j) as [e|]; [|done].
    simpl. intros [= <-]. by exists e. }
  unfold Lookup. fold size. rewrite Hloop. simpl.
  destruct (load_Ok (array_ p) r) as [er Her]; [lia|].
  destruct (load_Ok (array_ p) (r - 1)) as [el Hel]; [lia|].
  rewrite Her. simpl.
  destruct (decide (comparator er.1 key > 0)) as [Hgt|Hle].
  - exists r, el.2. rewrite Hel. simpl. split; [lia|]. split; [done|].
    split; [unfold ValueAt; by rewrite Hel|]. split.
    + intros j kj Hj Hkj. apply HK in Hkj as (e & He & <-). by apply (Hbelow j).
    + intros _. exists er.1. split; [unfold KeyAt; by rewrite Her|done].
  - assert (r = size - 1) as ->.
    { destruct Habove as [?|(e & He & Hgt)]; [done|].
      rewrite (load_det _ _ _ _ He Her) in Hgt. done. }
    exists size, er.2. split; [lia|]. split; [done|].
    split; [unfold ValueAt; by rewrite Her|]. split; [|lia].
    intros j kj Hj Hkj. apply HK in Hkj as (e & He & <-).
    destruct (decide (j = size - 1)) as [->|Hne].
    + rewrite (load_det _ _ _ _ He Her). lia.
    + apply (Hbelow j); [lia|done].
Qed.

(** C6: on a page of size 1 there is no index in [1, size), so the claim
    asks for the child of slot 0, which is 100; the code reads the key of
    slot 1, which is no entry of the page, and returns the child of that
    slot: for the search key 20 on the page [Remove(1)] has left with one
    entry, the stale child 101. *)
Theorem C6_Lookup_at_failing_input :
  GetSize (header Examples.internal_single) = 1 ∧
  keys_ascending Examples.int_comparator (array_ Examples.internal_single) 1 1 ∧
  (∀ i : Z, ¬ (1 ≤ i < 1)) ∧
  ValueAt (1 - 1) Examples.internal_single = Ok 100 ∧
  Lookup 20 Examples.int_comparator Examples.internal_single = Ok 101.
Proof.
  split; [done|]. split; [|split; [lia|by vm_compute]].
  intros i e e' Hi Hlt. lia.
Qed.

(** X29: for an internal page with
    [size >= 2], its entries inside the page's buffer and its keys at
    [1, size) strictly ascending, [Lookup] returns; it returns the child at
    [i - 1] for the smallest [i] in [1, size) whose key is greater than the
    search key, and the child at [size - 1] when there is no such index.  On
    the page [(_, c0), (15, c1), (30, c2), (45, c3)] of size 4, [Lookup]
    gives [c0] for 10, [c1] for 15 and for 29, [c2] for 30, [c3] for 99. *)
Theorem internal_lookup_routes_by_key (p : InternalPage.t K V) (key : K)
    (h : BPlusTreePage.t) (k0 : Z) (c0 c1 c2 c3 : V) (rest : list (Z * V)) :
  2 ≤ GetSize (header p) →
  GetSize (header p) ≤ Z.of_nat (length (array_ p)) →
  keys_ascending comparator (array_ p) 1 (GetSize (header p)) →
  GetSize h = 4 →
  (∃ v, Lookup key comparator p = Ok v) ∧
  (∀ i ki, 1 ≤ i < GetSize (header p) →
     KeyAt i p = Ok ki → comparator ki key > 0 →
     (∀ j kj, 1 ≤ j < i → KeyAt j p = Ok kj → ¬ comparator kj key > 0) →
     Lookup key comparator p = ValueAt (i - 1) p) ∧
  ((∀ j kj, 1 ≤ j < GetSize (header p) →
      KeyAt j p = Ok kj → ¬ comparator kj key > 0) →
   Lookup key comparator p = ValueAt (GetSize (header p) - 1) p) ∧
  let q := {| header := h;
              array_ := (k0, c0) :: (15, c1) :: (30, c2) :: (45, c3) :: rest |} in
  Lookup 10 Examples.int_comparator q = Ok c0 ∧
  Lookup 15 Examples.int_comparator q = Ok c1 ∧
  Lookup 29 Examples.int_comparator q = Ok c1 ∧
  Lookup 30 Examples.int_comparator q = Ok c2 ∧
  Lookup 99 Examples.int_comparator q = Ok c3.
Proof.
  intros Hsize Hlen Hasc Hh.
  destruct (Lookup_first_greater p key Hsize Hlen Hasc)
    as (i0 & v & Hi0 & HL & HV & Hbelow & Habove).
  split; [by exists v|]. split; [|split].
  - intros i ki Hi Hki Hgt Hmin.
    destruct (Z.lt_trichotomy i0 i) as [Hlt|[->|Hlt]].
    + destruct Habove as (ki0 & Hki0 & Hgt0); [lia|].
      exfalso. apply (Hmin i0 ki0); [lia|done..].
    + by rewrite HL, HV.
    + pose proof (Hbelow i ki ltac:(lia) Hki). lia.
  - intros Hnone.
    destruct (decide (i0 < GetSize (header p))) as [Hlt|Hge].
    + destruct Habove as (ki0 & Hki0 & Hgt0); [done|].
      exfalso. apply (Hnone i0 ki0); [lia|done..].
    + assert (i0 = GetSize (header p)) as -> by lia. by rewrite HL, HV.
  - unfold Lookup, GetSize in *. simpl. rewrite Hh. by vm_compute.
Qed.

End internal_lookup.

#[global] Instance int_comparator_ok : Comparator Examples.int_comparator.
Proof.
  split; unfold Examples.int_comparator.
  - intros a b. rewrite (Z.compare_antisym a b).
    by destruct (a ?= b).
  - intros a b c.
    destruct (Z.compare_spec a b), (Z.compare_spec b c), (Z.compare_spec a c);
      lia.
Qed.

Lemma internal_lookup_routes_by_key_witness :
  (∃ v, InternalPage.Lookup 29 Examples.int_comparator Examples.internal_four = Ok v) ∧
  (∀ i ki, 1 ≤ i < 4 →
     InternalPage.KeyAt i Examples.internal_four = Ok ki →
     Examples.int_comparator ki 29 > 0 →
     (∀ j kj, 1 ≤ j < i → InternalPage.KeyAt j Examples.internal_four = Ok kj →
              ¬ Examples.int_comparator kj 29 > 0) →
     InternalPage.Lookup 29 Examples.int_comparator Examples.internal_four =
       InternalPage.ValueAt (i - 1) Examples.internal_four) ∧
  ((∀ j kj, 1 ≤ j < 4 → InternalPage.KeyAt j Examples.internal_four = Ok kj →
            ¬ Examples.int_comparator kj 29 > 0) →
   InternalPage.Lookup 29 Examples.int_comparator Examples.internal_four =
     InternalPage.ValueAt (4 - 1) Examples.internal_four) ∧
  let q := {| InternalPage.header := InternalPage.header Examples.internal_four;
              InternalPage.array_ :=
                [(0, 100); (15, 101); (30, 102); (45, 103); (0, 0)] |} in
  InternalPage.Lookup 10 Examples.int_comparator q = Ok 100 ∧
  InternalPage.Lookup 15 Examples.int_comparator q = Ok 101 ∧
  InternalPage.Lookup 29 Examples.int_comparator q = Ok 101 ∧
  InternalPage.Lookup 30 Examples.int_comparator q = Ok 102 ∧
  InternalPage.Lookup 99 Examples.int_comparator q = Ok 103.
Proof.
  apply (internal_lookup_routes_by_key Examples.int_comparator Examples.internal_four 29
           (InternalPage.header Examples.internal_four) 0 100 101 102 103 [(0, 0)]).
  - vm_compute. discriminate.
  - vm_compute. discriminate.
  - intros i e e' Hi Hlt He He'.
    assert (i = 1 ∨ i = 2) as [-> | ->] by (simpl in Hlt; lia);
      vm_compute in He, He'; injection He as <-; injection He' as <-;
      reflexivity.
  - reflexivity.
Defined.

(** ** Leaf page: [KeyIndex] on a leaf with entries *)

Section leaf_key_index.
Context {K V : Type}.
Context (comparator : K → K → Z) `{!Comparator comparator}.
Import BPlusTreePage LeafPage.

(** The fuel [KeyIndex] passes to its loop is never used up. *)
Lemma KeyIndex_loop_never_OutOfFuel (p : LeafPage.t K V) key fuel lo hi :
  0 ≤ lo → hi - lo ≤ Z.of_nat fuel →
  KeyIndex_loop fuel lo hi key comparator p ≠ Err OutOfFuel.
Proof.
  revert lo hi. induction fuel as [|fuel IH]; intros lo hi Hlo Hfuel; simpl.
  - by rewrite decide_False by lia.
  - destruct (decide (lo < hi)) as [Hlt|Hge]; [|done].
    pose proof (midpoint_bounds lo hi Hlo Hlt) as Hmid.
    destruct (load (array_ p) ((lo + hi) `quot` 2)) as [e|err] eqn:Hl; simpl.
    + destruct (decide (comparator e.1 key >= 0)); apply IH; lia.
    + by apply load_Err in Hl as ->.
Qed.

Lemma KeyIndex_never_OutOfFuel (p : LeafPage.t K V) key :
  KeyIndex key comparator p ≠ Err OutOfFuel.
Proof.
  unfold KeyIndex.
  pose proof (KeyIndex_loop_never_OutOfFuel p key
    (Z.to_nat (GetSize (header p))) 0 (GetSize (header p) - 1)) as Hloop.
  destruct (KeyIndex_loop _ _ _ _ _ _) as [lo|err]; simpl.
  - destruct (load (array_ p) lo) as [e|err] eqn:Hl; simpl; [done|].
    by apply load_Err in Hl as ->.
  - intros [= ->]. apply Hloop; [lia|lia|done].
Qed.

Lemma KeyIndex_loop_fuel (p : LeafPage.t K V) key size fuel lo hi :
  size ≤ Z.of_nat (length (array_ p)) →
  keys_ascending comparator (array_ p) 0 size →
  0 ≤ lo → lo ≤ hi → hi ≤ size - 1 →
  hi - lo ≤ Z.of_nat fuel →
  (∀ j e, 0 ≤ j < lo → load (array_ p) j = Ok e → comparator e.1 key < 0) →
  (hi = size - 1 ∨ ∃ e, load (array_ p) hi = Ok e ∧ comparator e.1 key >= 0) →
  ∃ r, KeyIndex_loop fuel lo hi key comparator p = Ok r ∧
    0 ≤ r ≤ size - 1 ∧
    (∀ j e, 0 ≤ j < r → load (array_ p) j = Ok e → comparator e.1 key < 0) ∧
    (r = size - 1 ∨ ∃ e, load (array_ p) r = Ok e ∧ comparator e.1 key >= 0).
Proof.
  intros Hlen Hasc. revert lo hi.
  induction fuel as [|fuel IH]; intros lo hi Hlo Hlohi Hhi Hfuel Hbelow Habove.
  - simpl. rewrite decide_False by lia. exists lo.
    assert (lo = hi) as -> by lia. repeat split; try done; lia.
  - simpl. destruct (decide (lo < hi)) as [Hlt|Hge].
    + assert (Hmid : lo ≤ (lo + hi) `quot` 2 < hi)
        by (apply midpoint_bounds; lia).
      set (mid := (lo + hi) `quot` 2) in *.
      destruct (load_Ok (array_ p) mid) as [em Hem]; [lia|].
      rewrite Hem. simpl.
      destruct (decide (comparator em.1 key >= 0)) as [Hge|Hlt'].
      * apply IH; try lia; try done. right. by exists em.
      * apply IH; try lia; try done.
        intros j e Hj He.
        destruct (decide (j = mid)) as [->|Hne].
        -- rewrite (load_det _ _ _ _ He Hem). lia.
        -- apply (comparator_lt_trans comparator _ em.1); [|lia].
           apply (keys_ascending_pairwise comparator (array_ p) 0 size)
             with (i := j) (j := mid); try done; lia.
    + exists lo. assert (lo = hi) as -> by lia. repeat split; try done; lia.
Qed.

(** On a leaf with at least one entry and strictly ascending keys,
    [KeyIndex] returns the smallest index whose key is not below the search
    key, and the size when every key is below it. *)
Lemma KeyIndex_nonempty (p : LeafPage.t K V) key :
  1 ≤ GetSize (header p) →
  GetSize (header p) ≤ Z.of_nat (length (array_ p)) →
  keys_ascending comparator (array_ p) 0 (GetSize (header p)) →
  ∃ i, KeyIndex key comparator p = Ok i ∧
    0 ≤ i ≤ GetSize (header p) ∧
    (∀ j e, 0 ≤ j < i → load (array_ p) j = Ok e → comparator e.1 key < 0) ∧
    (i < GetSize (header p) →
     ∃ e, load (array_ p) i = Ok e ∧ comparator e.1 key >= 0).
Proof.
  intros Hsize Hlen Hasc. set (size := GetSize (header p)) in *.
  destruct (KeyIndex_loop_fuel p key size (Z.to_nat size) 0 (size - 1))
    as (r & Hloop & Hr & Hbelow & Habove); try done; try lia.
  unfold KeyIndex. fold size. rewrite Hloop. simpl.
  destruct (load_Ok (array_ p) r) as [er Her]; [lia|].
  rewrite Her. simpl.
  destruct (decide (comparator er.1 key >= 0)) as [Hge|Hlt].
  - exists r. split; [done|]. split; [lia|]. split; [done|].
    intros _. by exists er.
  - assert (r = size - 1) as ->.
    { destruct Habove as [?|(e & He & Hge)]; [done|].
      rewrite (load_det _ _ _ _ He Her) in Hge. done. }
    exists (size - 1 + 1). split; [done|]. split; [lia|]. split; [|lia].
    intros j e Hj He.
    destruct (decide (j = size - 1)) as [->|Hne].
    + rewrite (load_det _ _ _ _ He Her). lia.
    + apply (Hbelow j); [lia|done].
Qed.

End leaf_key_index.

(** ** Where the pages miss their contract *)

Section page_defects.
Import BPlusTreePage Examples.

(** C1: the code stores the new pair at the index of [old_child], not one
    after it.  On the page [(_, 10), (15, 11), (30, 12)] with room for one
    more entry, [InsertNodeAfter(11, 20, 13)] finds [old_child] at index 1,
    returns 4 and leaves [(_, 10), (20, 13), (30, 12), (30, 12)]: the entry
    of child 11 is gone and index 2 does not hold the new pair. *)
Theorem C1_InsertNodeAfter_at_failing_input :
  InternalPage.ValueIndex 11 internal_three = Ok 1 ∧
  CanInsert 1 (InternalPage.header internal_three) = true ∧
  InternalPage.InsertNodeAfter 11 20 13 internal_three =
    Ok (4, {| InternalPage.header := header_of INTERNAL_PAGE 4 4;
              InternalPage.array_ :=
                [(0, 10); (20, 13); (30, 12); (30, 12); (0, 0)] |}) ∧
  (∀ r, InternalPage.InsertNodeAfter 11 20 13 internal_three = Ok r →
        InternalPage.ValueAt 1 r.2 ≠ Ok 11 ∧
        load (InternalPage.array_ r.2) 2 ≠ Ok (20, 13)).
Proof.
  split; [by vm_compute|]. split; [by vm_compute|].
  assert (Heval : InternalPage.InsertNodeAfter 11 20 13 internal_three =
    Ok (4, {| InternalPage.header := header_of INTERNAL_PAGE 4 4;
              InternalPage.array_ :=
                [(0, 10); (20, 13); (30, 12); (30, 12); (0, 0)] |}))
    by by vm_compute.
  split; [done|]. intros r. rewrite Heval. intros [= <-].
  split; by vm_compute.
Qed.

(** C2: the code moves the pair of slot 0, not the last one.  With
    [leaf_A = [(1, 100), (2, 200)]] and [leaf_B = [(5, 500)]],
    [leaf_A.MoveLastToFrontOf(leaf_B)] leaves [[(1, 100)]] in [leaf_A] and
    [[(1, 100), (5, 500)]] in [leaf_B]: the last pair (2, 200) is in neither
    leaf and (1, 100) is in both. *)
Theorem C2_MoveLastToFrontOf_at_failing_input :
  LeafPage.entries leaf_A = [(1, 100); (2, 200)] ∧
  LeafPage.entries leaf_B = [(5, 500)] ∧
  ∃ A' B',
    LeafPage.MoveLastToFrontOf leaf_A leaf_B = Ok (A', B') ∧
    LeafPage.entries A' = [(1, 100)] ∧
    LeafPage.entries B' = [(1, 100); (5, 500)] ∧
    (2, 200) ∉ LeafPage.entries A' ++ LeafPage.entries B'.
Proof.
  split; [by vm_compute|]. split; [by vm_compute|].
  eexists _, _. split; [by vm_compute|].
  split; [by vm_compute|]. split; [by vm_compute|].
  vm_compute. intros Hin. repeat (inversion Hin as [|? ? ? Hin']; subst; clear Hin; rename Hin' into Hin).
Qed.

(** C3: the code reads [items[size]] in every round instead of [items[i]].
    On the empty leaf, [CopyNFrom] of the first 2 of the items
    [(1, 100), (2, 200), (3, 300)] gives the entries [(3, 300), (3, 300)];
    with exactly 2 items the read [items[2]] is outside the array. *)
Theorem C3_CopyNFrom_at_failing_input :
  CanInsert 2 (LeafPage.header leaf_empty) = true ∧
  (∃ p', LeafPage.CopyNFrom [(1, 100); (2, 200); (3, 300)] 2 leaf_empty = Ok p' ∧
         GetSize (LeafPage.header p') = 2 ∧
         LeafPage.entries p' = [(3, 300); (3, 300)]) ∧
  LeafPage.CopyNFrom [(1, 100); (2, 200)] 2 leaf_empty = Err OutOfBounds.
Proof.
  split; [by vm_compute|]. split; [|by vm_compute].
  eexists. split; [by vm_compute|]. split; by vm_compute.
Qed.

(** C7: on an empty leaf the code reads the key of slot 0, which is no
    entry.  On a leaf just initialised in a zeroed buffer, [KeyIndex(5)]
    returns 1, not the size 0. *)
Theorem C7_KeyIndex_at_failing_input :
  GetSize (LeafPage.header leaf_empty) = 0 ∧
  LeafPage.entries leaf_empty = [] ∧
  LeafPage.KeyIndex 5 int_comparator leaf_empty = Ok 1.
Proof. split; [done|]. split; by vm_compute. Qed.

End page_defects.

(** ** The array loops of the pages *)

Section array_loops.
Context {E : Type}.
Implicit Types a src : list E.

Lemma load_nat a (i : nat) e : a !! i = Some e → load a (Z.of_nat i) = Ok e.
Proof.
  intros Hi. unfold load. rewrite decide_True by lia.
  by rewrite Nat2Z.id, Hi.
Qed.

Lemma load_inv a i e :
  load a i = Ok e → 0 ≤ i ∧ a !! Z.to_nat i = Some e.
Proof.
  unfold load. destruct (decide (0 ≤ i)); [|done].
  destruct (a !! Z.to_nat i) as [e'|]; [|done]. by intros [= ->].
Qed.

Lemma store_nat a (i : nat) e :
  (i < length a)%nat → store a (Z.of_nat i) e = Ok (<[i := e]> a).
Proof.
  intros Hi. unfold store. rewrite decide_True by lia. by rewrite Nat2Z.id.
Qed.

(** [for (i = idx + n; i > idx; i--) a[i] = a[i - 1]]: the slots
    [idx .. idx + n - 1] move one place to the right, slot [idx] keeps its
    value. *)
Lemma loop_down_shift a (idx n : nat) :
  (idx + n < length a)%nat →
  loop_down n (Z.of_nat (idx + n)) (λ i a, e ← load a (i - 1); store a i e) a =
    Ok (take (S idx) a ++ take n (drop idx a) ++ drop (S (idx + n)) a).
Proof.
  revert a. induction n as [|n IH]; intros a Hlen.
  - simpl. rewrite Nat.add_0_r. by rewrite take_drop.
  - simpl.
    destruct (lookup_lt_is_Some_2 a (idx + n)) as [x Hx]; [lia|].
    replace (Z.of_nat (idx + S n) - 1) with (Z.of_nat (idx + n)) by lia.
    rewrite (load_nat a _ x Hx). simpl.
    rewrite store_nat by lia. simpl.
    rewrite IH by (rewrite length_insert; lia).
    f_equal.
    rewrite take_insert_ge by lia.
    rewrite drop_insert_ge by lia.
    rewrite take_insert_ge by lia.
    rewrite drop_insert_ge by lia.
    replace (idx + S n - S (idx + n))%nat with 0%nat by lia.
    rewrite (take_S_r (drop idx a) n x) by (by rewrite lookup_drop).
    rewrite <- !(assoc_L (++)). simpl. do 3 f_equal.
    destruct (drop (S (idx + n)) a) as [|y l] eqn:Hd.
    { apply (f_equal length) in Hd. rewrite length_drop in Hd. simpl in Hd. lia. }
    simpl. f_equal.
    replace (S (idx + S n)) with (S (idx + n) + 1)%nat by lia.
    by rewrite <- drop_drop, Hd.
Qed.

(** [for (i = idx; i < idx + n; i++) a[i] = a[i + 1]]: the slots
    [idx + 1 .. idx + n] move one place to the left, slot [idx + n] keeps
    its value. *)
Lemma loop_up_shift a (idx n : nat) :
  (idx + n < length a)%nat →
  loop_up n (Z.of_nat idx) (λ i a, e ← load a (i + 1); store a i e) a =
    Ok (take idx a ++ take n (drop (S idx) a) ++ drop (idx + n) a).
Proof.
  revert a idx. induction n as [|n IH]; intros a idx Hlen.
  - simpl. rewrite Nat.add_0_r. by rewrite take_drop.
  - simpl.
    destruct (lookup_lt_is_Some_2 a (S idx)) as [x Hx]; [lia|].
    replace (Z.of_nat idx + 1) with (Z.of_nat (S idx)) by lia.
    rewrite (load_nat a _ x Hx). simpl.
    rewrite store_nat by lia. simpl.
    rewrite IH by (rewrite length_insert; lia).
    f_equal.
    rewrite (take_S_r _ idx x) by (apply list_lookup_insert_eq; lia).
    rewrite take_insert_ge by lia.
    rewrite !drop_insert_lt by lia.
    rewrite (drop_S a x (S idx) Hx).
    rewrite <- !(assoc_L (++)). simpl.
    by replace (S (idx + n))%nat with (idx + S n)%nat by lia.
Qed.

(** [for (i = k; i < k + n; i++) a[i + doff] = src[i + soff]] *)
Lemma loop_up_copy src a (soff doff k n : nat)
    (body : Z → list E → result (list E)) :
  (∀ (i : nat) a, body (Z.of_nat i) a =
     e ← load src (Z.of_nat (i + soff)); store a (Z.of_nat (i + doff)) e) →
  (soff + k + n ≤ length src)%nat →
  (doff + k + n ≤ length a)%nat →
  loop_up n (Z.of_nat k) body a =
    Ok (take (doff + k) a ++ take n (drop (soff + k) src) ++ drop (doff + k + n) a).
Proof.
  intros Hbody. revert a k. induction n as [|n IH]; intros a k Hsrc Hdst.
  - simpl. rewrite Nat.add_0_r. by rewrite take_drop.
  - simpl. rewrite Hbody.
    destruct (lookup_lt_is_Some_2 src (k + soff)) as [x Hx]; [lia|].
    rewrite (load_nat src _ x Hx). simpl.
    rewrite store_nat by lia. simpl.
    replace (Z.of_nat k + 1) with (Z.of_nat (S k)) by lia.
    rewrite IH by (rewrite ?length_insert; lia).
    f_equal.
    replace (doff + S k)%nat with (S (k + doff)) by lia.
    rewrite (take_S_r _ (k + doff) x) by (apply list_lookup_insert_eq; lia).
    rewrite take_insert_ge by lia.
    rewrite drop_insert_lt by lia.
    replace (soff + k)%nat with (k + soff)%nat by lia.
    rewrite (drop_S src x (k + soff) Hx).
    replace (soff + S k)%nat with (S (k + soff)) by lia.
    rewrite <- !(assoc_L (++)). simpl.
    replace (doff + k)%nat with (k + doff)%nat by lia.
    by replace (S (k + doff + n))%nat with (k + doff + S n)%nat by lia.
Qed.

End array_loops.

Section array_edits.
Context {E : Type}.
Implicit Types a : list E.

(** Opening a gap at [idx] among the first [size] slots. *)
Lemma shift_right_loop a (size idx : Z) :
  0 ≤ idx → idx ≤ size → size < Z.of_nat (length a) →
  for_down size idx (λ i a, e ← load a (i - 1); store a i e) a =
  Ok (take (S (Z.to_nat idx)) a ++
      take (Z.to_nat (size - idx)) (drop (Z.to_nat idx) a) ++
      drop (S (Z.to_nat size)) a).
Proof.
  intros Hidx Hsize Hlen. unfold for_down.
  replace size with (Z.of_nat (Z.to_nat idx + Z.to_nat (size - idx))) at 2 by lia.
  rewrite loop_down_shift by lia.
  by replace (Z.to_nat idx + Z.to_nat (size - idx))%nat with (Z.to_nat size) by lia.
Qed.

(** Writing [x] into the gap. *)
Lemma store_in_gap a (size idx : Z) x :
  0 ≤ idx → idx ≤ size → size < Z.of_nat (length a) →
  store (take (S (Z.to_nat idx)) a ++
         take (Z.to_nat (size - idx)) (drop (Z.to_nat idx) a) ++
         drop (S (Z.to_nat size)) a) idx x =
  Ok (take (Z.to_nat idx) a ++
      x :: take (Z.to_nat (size - idx)) (drop (Z.to_nat idx) a) ++
      drop (S (Z.to_nat size)) a).
Proof.
  intros Hidx Hsize Hlen.
  unfold store. rewrite decide_True.
  2:{ rewrite !length_app, length_take, length_drop. lia. }
  f_equal.
  rewrite (take_S_r a (Z.to_nat idx) (default x (a !! Z.to_nat idx))).
  2:{ destruct (lookup_lt_is_Some_2 a (Z.to_nat idx)) as [y Hy]; [lia|].
      by rewrite Hy. }
  rewrite <- (assoc_L (++)).
  rewrite insert_app_r_alt by (rewrite length_take; lia).
  rewrite length_take. replace (Z.to_nat idx - Z.to_nat idx `min` length a)%nat
    with 0%nat by lia.
  done.
Qed.

Lemma lookup_insert_at a (size idx j : nat) x :
  (idx ≤ size)%nat → (size < length a)%nat →
  (take idx a ++ x :: take (size - idx) (drop idx a) ++ drop (S size) a) !! j =
    if decide (j < idx)%nat then a !! j
    else if decide (j = idx) then Some x
    else if decide (j ≤ size)%nat then a !! (j - 1)%nat
    else a !! j.
Proof.
  intros Hidx Hlen.
  assert (Hl1 : length (take idx a) = idx) by (rewrite length_take; lia).
  assert (Hl2 : length (take (size - idx) (drop idx a)) = (size - idx)%nat)
    by (rewrite length_take, length_drop; lia).
  destruct (decide (j < idx)%nat) as [Hlt|Hge].
  { rewrite lookup_app_l by lia. by rewrite lookup_take_lt by lia. }
  rewrite lookup_app_r by lia. rewrite Hl1.
  destruct (decide (j = idx)) as [->|Hne].
  { by rewrite Nat.sub_diag. }
  replace (j - idx)%nat with (S (j - idx - 1)) by lia. simpl.
  destruct (decide (j ≤ size)%nat) as [Hle|Hgt].
  - rewrite lookup_app_l by lia. rewrite lookup_take_lt by lia.
    rewrite lookup_drop. f_equal. lia.
  - rewrite lookup_app_r by lia. rewrite Hl2, lookup_drop. f_equal. lia.
Qed.

Lemma lookup_remove_at a (size idx j : nat) :
  (idx < size)%nat → (size ≤ length a)%nat →
  (take idx a ++ take (size - 1 - idx) (drop (S idx) a) ++ drop (size - 1) a) !! j =
    if decide (j < idx)%nat then a !! j
    else if decide (j < size - 1)%nat then a !! (S j)
    else a !! j.
Proof.
  intros Hidx Hlen.
  assert (Hl1 : length (take idx a) = idx) by (rewrite length_take; lia).
  assert (Hl2 : length (take (size - 1 - idx) (drop (S idx) a)) = (size - 1 - idx)%nat)
    by (rewrite length_take, length_drop; lia).
  destruct (decide (j < idx)%nat) as [Hlt|Hge].
  { rewrite lookup_app_l by lia. by rewrite lookup_take_lt by lia. }
  rewrite lookup_app_r by lia. rewrite Hl1.
  destruct (decide (j < size - 1)%nat) as [Hle|Hgt].
  - rewrite lookup_app_l by lia. rewrite lookup_take_lt by lia.
    rewrite lookup_drop. f_equal. lia.
  - rewrite lookup_app_r by lia. rewrite Hl2, lookup_drop. f_equal. lia.
Qed.

Lemma take_insert_at a (size idx : nat) x :
  (idx ≤ size)%nat → (size < length a)%nat →
  take (S size)
    (take idx a ++ x :: take (size - idx) (drop idx a) ++ drop (S size) a) =
  take idx (take size a) ++ x :: drop idx (take size a).
Proof.
  intros Hidx Hlen.
  rewrite take_take, Nat.min_l by lia.
  rewrite take_app_ge by (rewrite length_take; lia).
  rewrite length_take, Nat.min_l by lia.
  replace (S size - idx)%nat with (S (size - idx)) by lia. simpl.
  rewrite take_app_le by (rewrite length_take, length_drop; lia).
  rewrite take_take, Nat.min_id.
  rewrite take_drop_commute.
  by replace (idx + (size - idx))%nat with size by lia.
Qed.

(** Closing the gap at [idx] among the first [size] slots. *)
Lemma remove_at_loop a (size idx : Z) :
  0 ≤ idx → idx < size → size ≤ Z.of_nat (length a) →
  for_up idx (size - 1) (λ i a, e ← load a (i + 1); store a i e) a =
  Ok (take (Z.to_nat idx) a ++
      take (Z.to_nat (size - 1 - idx)) (drop (S (Z.to_nat idx)) a) ++
      drop (Z.to_nat (size - 1)) a).
Proof.
  intros Hidx Hsize Hlen. unfold for_up.
  replace idx with (Z.of_nat (Z.to_nat idx)) at 2 by lia.
  rewrite loop_up_shift by lia.
  by replace (Z.to_nat idx + Z.to_nat (size - 1 - idx))%nat
    with (Z.to_nat (size - 1)) by lia.
Qed.

Lemma take_remove_at a (size idx : nat) :
  (idx < size)%nat → (size ≤ length a)%nat →
  take (size - 1)
    (take idx a ++ take (size - 1 - idx) (drop (S idx) a) ++ drop (size - 1) a) =
  delete idx (take size a).
Proof.
  intros Hidx Hlen.
  rewrite delete_take_drop.
  rewrite take_take, Nat.min_l by lia.
  rewrite take_app_ge by (rewrite length_take; lia).
  rewrite length_take, Nat.min_l by lia.
  rewrite take_app_le by (rewrite length_take, length_drop; lia).
  rewrite take_take, Nat.min_id.
  rewrite take_drop_commute.
  by replace (S idx + (size - 1 - idx))%nat with size by lia.
Qed.

End array_edits.

(** ** Leaf page: lookup, insertion and removal *)

Section leaf_ops.
Context {K V : Type}.
Context (comparator : K → K → Z) `{!Comparator comparator}.
Import BPlusTreePage LeafPage.
Implicit Types p : LeafPage.t K V.

Lemma comparator_refl x : comparator x x = 0.
Proof.
  pose proof (comparator_antisym x x) as Hs.
  destruct (comparator x x); simpl in Hs; lia.
Qed.

Lemma comparator_flip x y : comparator x y >= 0 → comparator y x ≤ 0.
Proof.
  intros Hxy. pose proof (comparator_antisym x y) as Hs.
  destruct (comparator x y), (comparator y x); simpl in Hs; lia.
Qed.

Lemma comparator_flip_lt x y : comparator x y > 0 → comparator y x < 0.
Proof.
  intros Hxy. pose proof (comparator_antisym x y) as Hs.
  destruct (comparator x y), (comparator y x); simpl in Hs; lia.
Qed.

Lemma comparator_le_lt_trans x y z :
  comparator x y ≤ 0 → comparator y z < 0 → comparator x z < 0.
Proof.
  intros Hxy Hyz.
  destruct (decide (comparator x z < 0)) as [|Hn]; [done|].
  assert (Hzx : comparator z x ≤ 0) by (apply comparator_flip; lia).
  pose proof (comparator_trans z x y Hzx Hxy) as Hzy.
  pose proof (comparator_antisym y z) as Hs.
  destruct (comparator y z), (comparator z y); simpl in Hs; lia.
Qed.

Lemma load_entries p j e :
  load (array_ p) j = Ok e → j < GetSize (header p) →
  entries p !! Z.to_nat j = Some e.
Proof.
  intros Hl Hj. apply load_inv in Hl as [H0 Hl].
  unfold entries. rewrite lookup_take_lt by lia. done.
Qed.

Lemma entries_load p (j : nat) e :
  entries p !! j = Some e →
  Z.of_nat j < GetSize (header p) ∧ load (array_ p) (Z.of_nat j) = Ok e.
Proof.
  unfold entries. intros Hl. apply lookup_take_Some in Hl as [Hl Hj].
  split; [lia|]. by apply load_nat.
Qed.

Lemma elem_of_entries p e :
  e ∈ entries p ↔
  ∃ j, 0 ≤ j < GetSize (header p) ∧ load (array_ p) j = Ok e.
Proof.
  rewrite list_elem_of_lookup. split.
  - intros [j Hj]. apply entries_load in Hj as [Hlt Hl].
    exists (Z.of_nat j). split; [lia|done].
  - intros (j & Hj & Hl). exists (Z.to_nat j). apply load_entries; [done|lia].
Qed.

(** What [KeyIndex] returns on any ordered leaf that has its entries, and
    at least one slot, inside the buffer: an index [i] in [0, size + 1] with
    every entry before [i] below the key and, when [i < size], entry [i] not
    below it.  On an empty leaf [i] is 0 or 1, as slot 0 decides. *)
Lemma KeyIndex_any p key :
  0 ≤ GetSize (header p) →
  GetSize (header p) ≤ Z.of_nat (length (array_ p)) →
  1 ≤ Z.of_nat (length (array_ p)) →
  keys_ascending comparator (array_ p) 0 (GetSize (header p)) →
  ∃ i, KeyIndex key comparator p = Ok i ∧ 0 ≤ i ∧
    (1 ≤ GetSize (header p) → i ≤ GetSize (header p)) ∧
    (∀ j e, 0 ≤ j < i → j < GetSize (header p) →
            load (array_ p) j = Ok e → comparator e.1 key < 0) ∧
    (i < GetSize (header p) →
     ∃ e, load (array_ p) i = Ok e ∧ comparator e.1 key >= 0).
Proof.
  intros Hsize Hlen Hslot Hasc.
  destruct (decide (GetSize (header p) = 0)) as [Hz|Hnz].
  - unfold KeyIndex. rewrite Hz. simpl.
    destruct (load_Ok (array_ p) 0) as [e He]; [lia|].
    rewrite He. simpl. eexists. split; [done|].
    destruct (decide (comparator e.1 key >= 0));
      (split; [lia|]; split; [lia|]; split; intros; lia).
  - destruct (KeyIndex_nonempty comparator p key) as (i & Hi & Hr & Hb & Ha);
      try done; try lia.
    exists i. split; [done|]. split; [lia|]. split; [lia|].
    split; [|done]. intros j e Hj _. by apply Hb.
Qed.

(** Leaf [Lookup] on an ordered leaf (an empty one included): it returns,
    and it returns [v] exactly when an entry with a key equal to the search
    key carries [v]; it misses exactly when the leaf has no such entry. *)
Lemma Lookup_entries p key :
  0 ≤ GetSize (header p) →
  GetSize (header p) ≤ Z.of_nat (length (array_ p)) →
  1 ≤ Z.of_nat (length (array_ p)) →
  keys_ascending comparator (array_ p) 0 (GetSize (header p)) →
  ∃ r, Lookup key comparator p = Ok r ∧
    ∀ v, r = Some v ↔ ∃ k, (k, v) ∈ entries p ∧ comparator k key = 0.
Proof.
  intros Hsize Hlen Hslot Hasc.
  destruct (KeyIndex_any p key Hsize Hlen Hslot Hasc)
    as (i & Hi & Hi0 & Hile & Hbelow & Hat).
  unfold Lookup. rewrite Hi. simpl.
  assert (Hlow : ∀ j e, 0 ≤ j < GetSize (header p) → j < i →
            load (array_ p) j = Ok e → comparator e.1 key ≠ 0).
  { intros j e Hj Hji He. pose proof (Hbelow j e ltac:(lia) ltac:(lia) He). lia. }
  destruct (decide (i >= GetSize (header p))) as [Hge|Hlt].
  - exists None. split; [done|]. intros v. split; [done|].
    intros (k & Hin & Hk). apply elem_of_entries in Hin as (j & Hj & He).
    exfalso. by apply (Hlow j (k, v)); [lia|lia|done|].
  - destruct Hat as (e & He & Hge); [lia|]. rewrite He. simpl.
    assert (Hhigh : ∀ j e', i < j < GetSize (header p) →
              load (array_ p) j = Ok e' → comparator e'.1 key > 0).
    { intros j e' Hj He'.
      assert (comparator e.1 e'.1 < 0).
      { apply (keys_ascending_pairwise comparator (array_ p) 0
                 (GetSize (header p))) with (i := i) (j := j); try done; lia. }
      assert (comparator key e'.1 < 0); [|by
        pose proof (comparator_antisym key e'.1);
        destruct (comparator key e'.1), (comparator e'.1 key); simpl in *; lia].
      apply (comparator_le_lt_trans _ e.1); [|done]. by apply comparator_flip. }
    destruct (decide (comparator e.1 key ≠ 0)) as [Hne|Heq].
    + exists None. split; [done|]. intros v. split; [done|].
      intros (k & Hin & Hk). apply elem_of_entries in Hin as (j & Hj & Hej).
      exfalso. destruct (Z.lt_trichotomy j i) as [Hlt'|[->|Hgt]].
      * by apply (Hlow j (k, v)); [lia|lia|done|].
      * pose proof (load_det _ _ _ _ Hej He) as <-. done.
      * pose proof (Hhigh j (k, v) ltac:(lia) Hej). simpl in *. lia.
    + exists (Some e.2). split; [done|]. intros v. split.
      * intros [= <-]. exists e.1. split; [|lia].
        apply elem_of_entries. exists i. split; [lia|]. by destruct e.
      * intros (k & Hin & Hk). apply elem_of_entries in Hin as (j & Hj & Hej).
        destruct (Z.lt_trichotomy j i) as [Hlt'|[->|Hgt]].
        -- exfalso. by apply (Hlow j (k, v)); [lia|lia|done|].
        -- by pose proof (load_det _ _ _ _ Hej He) as <-.
        -- pose proof (Hhigh j (k, v) ltac:(lia) Hej). simpl in *. lia.
Qed.

(** In an ordered leaf, the entries after one that is not below the key
    are above the key. *)
Lemma keys_above p key i e :
  GetSize (header p) ≤ Z.of_nat (length (array_ p)) →
  keys_ascending comparator (array_ p) 0 (GetSize (header p)) →
  0 ≤ i → load (array_ p) i = Ok e → comparator e.1 key >= 0 →
  ∀ j e', i < j < GetSize (header p) →
    load (array_ p) j = Ok e' → comparator e'.1 key > 0.
Proof.
  intros Hlen Hasc Hi He Hge j e' Hj He'.
  assert (comparator e.1 e'.1 < 0).
  { apply (keys_ascending_pairwise comparator (array_ p) 0
             (GetSize (header p))) with (i := i) (j := j); try done; lia. }
  assert (comparator key e'.1 < 0).
  { apply (comparator_le_lt_trans _ e.1); [|done]. by apply comparator_flip. }
  pose proof (comparator_antisym key e'.1) as Hs.
  destruct (comparator key e'.1), (comparator e'.1 key); simpl in Hs; lia.
Qed.

(** Leaf [Insert] on an ordered leaf with at least one entry and a free
    slot: the pair goes in at the index [KeyIndex] gives, between the
    entries below the key and the entries not below it, and the size grows
    by one; when no entry has an equal key the page stays strictly
    ascending. *)
Lemma Insert_entries p key value :
  1 ≤ GetSize (header p) →
  GetSize (header p) < Z.of_nat (length (array_ p)) →
  CanInsert 1 (header p) = true →
  keys_ascending comparator (array_ p) 0 (GetSize (header p)) →
  ∃ i p',
    KeyIndex key comparator p = Ok i ∧ 0 ≤ i ≤ GetSize (header p) ∧
    Insert key value comparator p = Ok (GetSize (header p) + 1, p') ∧
    header p' = IncreaseSize 1 (header p) ∧
    next_page_id_ p' = next_page_id_ p ∧
    length (array_ p') = length (array_ p) ∧
    entries p' =
      take (Z.to_nat i) (entries p) ++ (key, value) :: drop (Z.to_nat i) (entries p) ∧
    (∀ e, e ∈ take (Z.to_nat i) (entries p) → comparator e.1 key < 0) ∧
    (∀ e, e ∈ drop (Z.to_nat i) (entries p) → comparator e.1 key >= 0) ∧
    ((∀ e, e ∈ entries p → comparator e.1 key ≠ 0) →
     keys_ascending comparator (array_ p') 0 (GetSize (header p) + 1)).
Proof.
  intros Hsize Hlen Hcan Hasc. set (size := GetSize (header p)) in *.
  destruct (KeyIndex_nonempty comparator p key) as (i & Hi & Hr & Hbelow & Hat);
    try done; try lia. fold size in Hr, Hat.
  unfold Insert. rewrite Hcan. simpl. rewrite Hi. simpl. fold size.
  rewrite shift_right_loop by lia. simpl.
  rewrite store_in_gap by lia. simpl.
  set (a' := take (Z.to_nat i) (array_ p) ++ _).
  assert (Hs1 : Z.to_nat (size + 1) = S (Z.to_nat size)) by lia.
  assert (Hsub : Z.to_nat (size - i) = (Z.to_nat size - Z.to_nat i)%nat) by lia.
  assert (Hlook : ∀ j : nat, a' !! j =
    if decide (j < Z.to_nat i)%nat then array_ p !! j
    else if decide (j = Z.to_nat i) then Some (key, value)
    else if decide (j ≤ Z.to_nat size)%nat then array_ p !! (j - 1)%nat
    else array_ p !! j).
  { intros j. unfold a'. rewrite Hsub. apply lookup_insert_at; lia. }
  exists i, {| header := IncreaseSize 1 (header p);
               next_page_id_ := next_page_id_ p; array_ := a' |}.
  split; [done|]. split; [done|]. split; [done|]. split; [done|].
  split; [done|]. split.
  { unfold a'. simpl. rewrite !length_app. simpl.
    rewrite length_app, !length_take, !length_drop. lia. }
  split.
  { unfold entries. cbn [header array_].
    change (GetSize (IncreaseSize 1 (header p))) with (size + 1).
    fold size. rewrite Hs1. unfold a'. rewrite Hsub.
    apply take_insert_at; lia. }
  split.
  { intros e He. apply list_elem_of_lookup in He as [j Hj].
    apply lookup_take_Some in Hj as [Hj Hji].
    apply entries_load in Hj as [Hjs Hl]. by apply (Hbelow (Z.of_nat j)); [lia|]. }
  split.
  { intros e He. apply list_elem_of_lookup in He as [j Hj].
    rewrite lookup_drop in Hj. apply entries_load in Hj as [Hjs Hl].
    destruct Hat as (ei & Hei & Hge); [fold size in Hjs; lia|].
    destruct (decide (j = 0%nat)) as [->|Hne].
    - replace (Z.of_nat (Z.to_nat i + 0)) with i in Hl by lia.
      by pose proof (load_det _ _ _ _ Hl Hei) as ->.
    - assert (comparator e.1 key > 0); [|lia].
      apply (keys_above p key i ei) with (j := Z.of_nat (Z.to_nat i + j));
        try done; try lia. }
  intros Hfresh j e e' Hj Hj1 He He'. simpl in He, He'.
  apply load_inv in He as [_ He]. apply load_inv in He' as [_ He'].
  rewrite Hlook in He, He'.
  replace (Z.to_nat (j + 1)) with (S (Z.to_nat j)) in He' by lia.
  repeat case_decide; try lia.
  - apply (Hasc j e e'); try done; try lia; fold size; try lia.
    + apply load_nat in He. by replace (Z.of_nat (Z.to_nat j)) with j in He by lia.
    + apply load_nat in He'.
      by replace (Z.of_nat (S (Z.to_nat j))) with (j + 1) in He' by lia.
  - injection He' as <-. simpl.
    apply load_nat in He. apply (Hbelow (Z.of_nat (Z.to_nat j))); [lia|done].
  - injection He as <-. simpl.
    destruct Hat as (ei & Hei & Hge); [lia|].
    replace (S (Z.to_nat j) - 1)%nat with (Z.to_nat i) in He' by lia.
    apply load_nat in He'. replace (Z.of_nat (Z.to_nat i)) with i in He' by lia.
    pose proof (load_det _ _ _ _ He' Hei) as ->.
    assert (Hne : comparator ei.1 key ≠ 0).
    { apply Hfresh, elem_of_entries. exists i. split; [fold size; lia|done]. }
    apply comparator_flip_lt. lia.
  - apply (Hasc (j - 1) e e'); try done; try lia; fold size; try lia.
    + apply load_nat in He.
      by replace (Z.of_nat (Z.to_nat j - 1)) with (j - 1) in He by lia.
    + apply load_nat in He'.
      replace (S (Z.to_nat j) - 1)%nat with (Z.to_nat j) in He' by lia.
      replace (Z.of_nat (Z.to_nat j)) with (j - 1 + 1) in He' by lia. done.
Qed.

Lemma option_ext {A} (r r' : option A) :
  (∀ v, r = Some v ↔ r' = Some v) → r = r'.
Proof.
  intros Hext. destruct r as [v|], r' as [v'|]; try done.
  - by apply Hext.
  - symmetry. by apply Hext.
  - by apply Hext.
Qed.

(** X17: on a leaf with at least one entry, strictly ascending keys and
    room for one more, after [Insert] of a key the leaf did not hold
    [Lookup] finds the inserted value under that key, and finds for every
    other key what it found before the insertion. *)
Theorem leaf_insert_then_lookup p key value :
  1 ≤ GetSize (header p) →
  GetSize (header p) < Z.of_nat (length (array_ p)) →
  CanInsert 1 (header p) = true →
  keys_ascending comparator (array_ p) 0 (GetSize (header p)) →
  (∀ e, e ∈ entries p → comparator e.1 key ≠ 0) →
  ∃ p', Insert key value comparator p = Ok (GetSize (header p) + 1, p') ∧
    Lookup key comparator p' = Ok (Some value) ∧
    ∀ k, comparator key k ≠ 0 → Lookup k comparator p' = Lookup k comparator p.
Proof.
  intros Hsize Hlen Hcan Hasc Hfresh.
  destruct (Insert_entries p key value Hsize Hlen Hcan Hasc)
    as (i & p' & _ & Hi & Hins & Hhd & _ & Hlen' & Hent & _ & _ & Hasc').
  specialize (Hasc' Hfresh).
  assert (Hsize' : GetSize (header p') = GetSize (header p) + 1)
    by by rewrite Hhd.
  assert (Hin : ∀ e, e ∈ entries p' ↔ e = (key, value) ∨ e ∈ entries p).
  { intros e. rewrite Hent, elem_of_app, elem_of_cons.
    rewrite <- (take_drop (Z.to_nat i) (entries p)) at 3.
    rewrite elem_of_app. tauto. }
  exists p'. split; [done|].
  assert (Hspec : ∀ k, ∃ r, Lookup k comparator p' = Ok r ∧
            ∀ v, r = Some v ↔ ∃ k', (k', v) ∈ entries p' ∧ comparator k' k = 0).
  { intros k. apply Lookup_entries; rewrite ?Hsize', ?Hlen'; try done; lia. }
  split.
  - destruct (Hspec key) as (r & -> & Hr). f_equal. apply Hr.
    exists key. split; [apply Hin; by left|apply comparator_refl].
  - intros k Hk.
    destruct (Hspec k) as (r' & -> & Hr').
    destruct (Lookup_entries p k) as (r & -> & Hr); try done; try lia.
    f_equal. apply option_ext. intros v. rewrite Hr', Hr.
    split; intros (k' & Hk' & Hz); exists k'; (split; [|done]).
    + apply Hin in Hk' as [[= -> ->]|?]; done.
    + apply Hin. by right.
Qed.

(** [RemoveAndDeleteRecord] on an ordered leaf (an empty one included):
    when no entry has the key, the page is returned as it is with its size;
    otherwise the entry with the key is taken out, the others keep their
    order, the size returned is one less, and no entry with the key is
    left. *)
Lemma RemoveAndDeleteRecord_entries p key :
  0 ≤ GetSize (header p) →
  GetSize (header p) ≤ Z.of_nat (length (array_ p)) →
  1 ≤ Z.of_nat (length (array_ p)) →
  keys_ascending comparator (array_ p) 0 (GetSize (header p)) →
  ((∀ e, e ∈ entries p → comparator e.1 key ≠ 0) ∧
   RemoveAndDeleteRecord key comparator p = Ok (GetSize (header p), p)) ∨
  (∃ (i : nat) e p',
     entries p !! i = Some e ∧ comparator e.1 key = 0 ∧
     RemoveAndDeleteRecord key comparator p = Ok (GetSize (header p) - 1, p') ∧
     header p' = IncreaseSize (-1) (header p) ∧
     next_page_id_ p' = next_page_id_ p ∧
     length (array_ p') = length (array_ p) ∧
     entries p' = delete i (entries p) ∧
     (∀ e', e' ∈ entries p' → comparator e'.1 key ≠ 0) ∧
     keys_ascending comparator (array_ p') 0 (GetSize (header p) - 1)).
Proof.
  intros Hsize Hlen Hslot Hasc. set (size := GetSize (header p)) in *.
  destruct (KeyIndex_any p key Hsize Hlen Hslot Hasc)
    as (i & Hi & Hi0 & Hile & Hbelow & Hat). fold size in Hile, Hbelow, Hat.
  unfold RemoveAndDeleteRecord. rewrite Hi. simpl. fold size.
  assert (Hlow : ∀ j e, 0 ≤ j < size → j < i →
            load (array_ p) j = Ok e → comparator e.1 key ≠ 0).
  { intros j e Hj Hji He. pose proof (Hbelow j e ltac:(lia) ltac:(lia) He). lia. }
  destruct (decide (i >= size)) as [Hge|Hlt].
  { left. split; [|done]. intros e He.
    apply elem_of_entries in He as (j & Hj & He). fold size in Hj.
    apply (Hlow j e); [lia|lia|done]. }
  destruct Hat as (e & He & Hge); [lia|]. rewrite He. simpl.
  pose proof (keys_above p key i e Hlen Hasc Hi0 He Hge) as Hhigh.
  fold size in Hhigh.
  destruct (decide (comparator e.1 key ≠ 0)) as [Hne|Heq].
  { left. split; [|done]. intros e' He'.
    apply elem_of_entries in He' as (j & Hj & He'). fold size in Hj.
    destruct (Z.lt_trichotomy j i) as [Hlt'|[->|Hgt]].
    - apply (Hlow j e'); [lia|lia|done].
    - by pose proof (load_det _ _ _ _ He' He) as ->.
    - pose proof (Hhigh j e' ltac:(lia) He'). lia. }
  right. rewrite remove_at_loop by lia. simpl.
  set (a' := take (Z.to_nat i) (array_ p) ++ _).
  assert (Hsub : Z.to_nat (size - 1 - i) = (Z.to_nat size - 1 - Z.to_nat i)%nat)
    by lia.
  assert (Hs1 : Z.to_nat (size - 1) = (Z.to_nat size - 1)%nat) by lia.
  assert (Hlook : ∀ j : nat, a' !! j =
    if decide (j < Z.to_nat i)%nat then array_ p !! j
    else if decide (j < Z.to_nat size - 1)%nat then array_ p !! (S j)
    else array_ p !! j).
  { intros j. unfold a'. rewrite Hsub, Hs1. apply lookup_remove_at; lia. }
  assert (Hent : take (Z.to_nat (size - 1)) a' = delete (Z.to_nat i) (entries p)).
  { unfold a', entries. fold size. rewrite Hsub, Hs1.
    apply take_remove_at; lia. }
  assert (Hgone : ∀ e', e' ∈ delete (Z.to_nat i) (entries p) →
            comparator e'.1 key ≠ 0).
  { intros e' He'. apply list_elem_of_lookup in He' as [j Hj].
    destruct (decide (j < Z.to_nat i)%nat).
    - rewrite list_lookup_delete_lt in Hj by lia.
      apply entries_load in Hj as [Hjs Hl]. fold size in Hjs.
      apply (Hlow (Z.of_nat j) e'); [lia|lia|done].
    - rewrite list_lookup_delete_ge in Hj by lia.
      apply entries_load in Hj as [Hjs Hl]. fold size in Hjs.
      pose proof (Hhigh (Z.of_nat (S j)) e' ltac:(lia) Hl). lia. }
  exists (Z.to_nat i), e,
    {| header := IncreaseSize (-1) (header p);
       next_page_id_ := next_page_id_ p; array_ := a' |}.
  split; [apply load_entries; [done|fold size; lia]|].
  split; [lia|]. split; [done|]. split; [done|]. split; [done|]. split.
  { unfold a'. simpl. rewrite !length_app, !length_take, !length_drop. lia. }
  split.
  { unfold entries at 1. cbn [header array_].
    change (GetSize (IncreaseSize (-1) (header p))) with (size + -1).
    by replace (size + -1) with (size - 1) by lia. }
  split.
  { unfold entries at 1. cbn [header array_].
    change (GetSize (IncreaseSize (-1) (header p))) with (size + -1).
    replace (size + -1) with (size - 1) by lia. by rewrite Hent. }
  intros j e1 e2 Hj Hj1 He1 He2. cbn [array_] in He1, He2.
  apply load_inv in He1 as [_ He1]. apply load_inv in He2 as [_ He2].
  rewrite Hlook in He1, He2.
  replace (Z.to_nat (j + 1)) with (S (Z.to_nat j)) in He2 by lia.
  apply (keys_ascending_pairwise comparator (array_ p) 0 size Hlen ltac:(lia) Hasc)
    with (i := if decide (Z.to_nat j < Z.to_nat i)%nat then j else j + 1)
         (j := j + 2 - (if decide (S (Z.to_nat j) < Z.to_nat i)%nat then 1 else 0));
    repeat case_decide; try lia.
  all: try (apply load_nat in He1;
            by replace (Z.of_nat (Z.to_nat j)) with j in He1 by lia).
  all: try (apply load_nat in He1;
            by replace (Z.of_nat (S (Z.to_nat j))) with (j + 1) in He1 by lia).
  all: try (apply load_nat in He2;
            by replace (Z.of_nat (S (Z.to_nat j))) with (j + 2 - 1) in He2 by lia).
  all: try (apply load_nat in He2;
            by replace (Z.of_nat (S (S (Z.to_nat j)))) with (j + 2 - 0) in He2 by lia).
Qed.

Lemma length_entries p :
  0 ≤ GetSize (header p) →
  GetSize (header p) ≤ Z.of_nat (length (array_ p)) →
  Z.of_nat (length (entries p)) = GetSize (header p).
Proof. intros H0 Hlen. unfold entries. rewrite length_take. lia. Qed.

(** X19: on a leaf with at least one entry, strictly ascending keys and
    room for one more, [Insert] of a key the leaf did not hold followed by
    [RemoveAndDeleteRecord] of that key gives back the entries, the size
    and the right sibling the leaf had; the removal returns the old size. *)
Theorem leaf_insert_then_remove_restores p key value :
  1 ≤ GetSize (header p) →
  GetSize (header p) < Z.of_nat (length (array_ p)) →
  CanInsert 1 (header p) = true →
  keys_ascending comparator (array_ p) 0 (GetSize (header p)) →
  (∀ e, e ∈ entries p → comparator e.1 key ≠ 0) →
  ∃ p' p'',
    Insert key value comparator p = Ok (GetSize (header p) + 1, p') ∧
    RemoveAndDeleteRecord key comparator p' = Ok (GetSize (header p), p'') ∧
    entries p'' = entries p ∧
    GetSize (header p'') = GetSize (header p) ∧
    next_page_id_ p'' = next_page_id_ p.
Proof.
  intros Hsize Hlen Hcan Hasc Hfresh.
  destruct (Insert_entries p key value Hsize Hlen Hcan Hasc)
    as (i & p' & _ & Hi & Hins & Hhd & Hnext & Hlen' & Hent & _ & _ & Hasc').
  specialize (Hasc' Hfresh).
  assert (Hsize' : GetSize (header p') = GetSize (header p) + 1)
    by by rewrite Hhd.
  assert (Hli : length (take (Z.to_nat i) (entries p)) = Z.to_nat i).
  { rewrite length_take. pose proof (length_entries p). lia. }
  destruct (RemoveAndDeleteRecord_entries p' key) as
    [[Hnone _]|(i' & e & p'' & Hi' & He & Hrem & Hhd'' & Hnext'' & _ & Hent'' & _)];
    rewrite ?Hsize', ?Hlen'; try done; try lia.
  { exfalso. apply (Hnone (key, value)); [|apply comparator_refl].
    rewrite Hent. apply elem_of_app. right. left. }
  assert (i' = Z.to_nat i) as ->.
  { rewrite Hent in Hi'. apply lookup_app_Some in Hi' as [Hi'|[Hge Hi']].
    - exfalso. apply (Hfresh e); [|done].
      apply list_elem_of_lookup_2 in Hi'.
      by apply (subseteq_take (Z.to_nat i)).
    - rewrite Hli in Hge, Hi'.
      destruct (i' - Z.to_nat i)%nat as [|m] eqn:Hm; [lia|].
      simpl in Hi'. exfalso. apply (Hfresh e); [|done].
      apply list_elem_of_lookup_2 in Hi'.
      by apply (subseteq_drop (Z.to_nat i)). }
  exists p', p''. split; [done|].
  rewrite Hsize' in Hrem.
  replace (GetSize (header p) + 1 - 1) with (GetSize (header p)) in Hrem by lia.
  split; [done|]. split.
  - rewrite Hent'', Hent. rewrite <- Hli at 1.
    by rewrite delete_middle, take_drop.
  - rewrite Hhd'', Hhd, Hnext'', Hnext. split; [|done].
    unfold GetSize, IncreaseSize. simpl. lia.
Qed.

End leaf_ops.

(** ** Leaf page: split, merge and redistribution *)

Section leaf_moves.
Context {K V : Type}.
Import BPlusTreePage LeafPage.
Implicit Types p recipient : LeafPage.t K V.

(** X23: [CopyFirstFrom] on a leaf with room for one more puts the item in
    front of the entries, which keep their order, and raises the size by
    one. *)
Theorem leaf_copy_first_from_prepends item p :
  0 ≤ GetSize (header p) →
  GetSize (header p) < Z.of_nat (length (array_ p)) →
  CanInsertWithoutSplit 1 (header p) = true →
  ∃ p', CopyFirstFrom item p = Ok p' ∧
    entries p' = item :: entries p ∧
    header p' = IncreaseSize 1 (header p) ∧
    next_page_id_ p' = next_page_id_ p ∧
    length (array_ p') = length (array_ p).
Proof.
  intros Hsize Hlen Hcan. unfold CopyFirstFrom. rewrite Hcan. simpl.
  rewrite shift_right_loop by lia. simpl.
  rewrite (store_in_gap _ _ 0) by lia. simpl.
  eexists. split; [done|]. split; [|split; [done|split; [done|]]].
  - unfold entries. cbn [header array_].
    change (GetSize (IncreaseSize 1 (header p))) with (GetSize (header p) + 1).
    replace (Z.to_nat (GetSize (header p) + 1))
      with (S (Z.to_nat (GetSize (header p)))) by lia.
    rewrite Z.sub_0_r. change (Z.to_nat 0) with 0%nat. rewrite drop_0.
    simpl. f_equal.
    rewrite take_app_le by (rewrite length_take; lia).
    by rewrite take_take, Nat.min_id.
  - cbn [array_]. change (Z.to_nat 0) with 0%nat.
    rewrite ?take_0, drop_0, Z.sub_0_r. simpl.
    rewrite length_app, length_take, length_drop. lia.
Qed.

(** [CopyLastFrom] puts the item behind the entries. *)
Lemma CopyLastFrom_entries item p :
  0 ≤ GetSize (header p) →
  GetSize (header p) < Z.of_nat (length (array_ p)) →
  CanInsertWithoutSplit 1 (header p) = true →
  ∃ p', CopyLastFrom item p = Ok p' ∧
    entries p' = entries p ++ [item] ∧
    header p' = IncreaseSize 1 (header p) ∧
    next_page_id_ p' = next_page_id_ p ∧
    length (array_ p') = length (array_ p).
Proof.
  intros Hsize Hlen Hcan. unfold CopyLastFrom. rewrite Hcan. simpl.
  unfold store. rewrite decide_True by lia. simpl.
  eexists. split; [done|]. split; [|split; [done|split; [done|]]].
  - unfold entries. cbn [header array_].
    change (GetSize (IncreaseSize 1 (header p))) with (GetSize (header p) + 1).
    replace (Z.to_nat (GetSize (header p) + 1))
      with (S (Z.to_nat (GetSize (header p)))) by lia.
    rewrite (take_S_r _ _ item) by (apply list_lookup_insert_eq; lia).
    by rewrite take_insert_ge by lia.
  - simpl. by rewrite length_insert.
Qed.

(** X22: redistribution to the left sibling.  [MoveFirstToEndOf] of a leaf
    with at least one entry, to a recipient with room for one more, takes
    the first entry of this leaf to the end of the recipient; the entries
    of the recipient followed by those of this leaf are the same list
    before and after, the sizes change by one, and the sibling links are
    not touched. *)
Theorem leaf_move_first_to_end_of p recipient :
  1 ≤ GetSize (header p) →
  GetSize (header p) ≤ Z.of_nat (length (array_ p)) →
  0 ≤ GetSize (header recipient) →
  GetSize (header recipient) < Z.of_nat (length (array_ recipient)) →
  CanInsertWithoutSplit 1 (header recipient) = true →
  ∃ first p' recipient',
    MoveFirstToEndOf p recipient = Ok (p', recipient') ∧
    entries p = first :: entries p' ∧
    entries recipient' = entries recipient ++ [first] ∧
    entries recipient' ++ entries p' = entries recipient ++ entries p ∧
    GetSize (header p') = GetSize (header p) - 1 ∧
    GetSize (header recipient') = GetSize (header recipient) + 1 ∧
    next_page_id_ p' = next_page_id_ p ∧
    next_page_id_ recipient' = next_page_id_ recipient.
Proof.
  intros Hsize Hlen Hrsize Hrlen Hcan. unfold MoveFirstToEndOf.
  assert (IsEmpty (header p) = false) as ->.
  { unfold IsEmpty. apply bool_decide_eq_false. unfold GetSize in Hsize. lia. }
  rewrite Hcan. simpl.
  destruct (lookup_lt_is_Some_2 (array_ p) 0) as [first Hfirst]; [lia|].
  assert (Hl : load (array_ p) 0 = Ok first)
    by exact (load_nat (array_ p) 0 first Hfirst).
  rewrite Hl. simpl.
  rewrite remove_at_loop by lia. simpl.
  destruct (CopyLastFrom_entries first recipient Hrsize Hrlen Hcan)
    as (r' & -> & Hent & Hhd & Hnext & _). simpl.
  set (a' := _ ++ drop _ (array_ p)).
  set (p' := {| header := IncreaseSize (-1) (header p);
                next_page_id_ := next_page_id_ p; array_ := a' |}).
  assert (Hp : entries p = first :: entries p').
  { unfold entries, p', a'. cbn [header array_].
    change (GetSize (IncreaseSize (-1) (header p)))
      with (GetSize (header p) + -1).
    replace (GetSize (header p) + -1) with (GetSize (header p) - 1) by lia.
    change (Z.to_nat 0) with 0%nat. rewrite Z.sub_0_r.
    rewrite take_app_le by (rewrite length_take, length_drop; lia).
    rewrite take_take, Nat.min_id.
    replace (Z.to_nat (GetSize (header p)))
      with (S (Z.to_nat (GetSize (header p) - 1))) by lia.
    destruct (array_ p) as [|x l]; [done|]. injection Hfirst as ->.
    simpl. by rewrite ?drop_0. }
  exists first, p', r'. split; [done|]. split; [done|]. split; [done|].
  split; [by rewrite Hent, Hp, <- (assoc_L (++))|].
  rewrite Hhd, Hnext. unfold p', GetSize. simpl. repeat split; lia.
Qed.

(** Merge: [MoveAllTo] appends the entries of this leaf to those of the
    recipient, empties this leaf and hands its right sibling to the
    recipient. *)
Lemma MoveAllTo_entries p recipient :
  0 ≤ GetSize (header p) →
  GetSize (header p) ≤ Z.of_nat (length (array_ p)) →
  0 ≤ GetSize (header recipient) →
  GetSize (header recipient) + GetSize (header p) ≤
    Z.of_nat (length (array_ recipient)) →
  CanInsertWithoutSplit (GetSize (header p)) (header recipient) = true →
  ∃ p' recipient',
    MoveAllTo p recipient = Ok (p', recipient') ∧
    entries recipient' = entries recipient ++ entries p ∧
    entries p' = [] ∧
    GetSize (header p') = 0 ∧
    GetSize (header recipient') = GetSize (header recipient) + GetSize (header p) ∧
    next_page_id_ recipient' = next_page_id_ p.
Proof.
  intros Hsize Hlen Hrsize Hrlen Hcan. unfold MoveAllTo.
  rewrite Hcan. simpl. unfold for_up.
  rewrite (loop_up_copy (array_ p) (array_ recipient) 0
             (Z.to_nat (GetSize (header recipient))) 0); try lia.
  2:{ intros i a. replace (Z.of_nat (i + 0)) with (Z.of_nat i) by lia.
      by replace (Z.of_nat (i + Z.to_nat (GetSize (header recipient))))
        with (Z.of_nat i + GetSize (header recipient)) by lia. }
  simpl. eexists _, _. split; [done|]. split; [|by repeat split].
  unfold entries. cbn [header array_].
  change (GetSize (IncreaseSize (GetSize (header p)) (header recipient)))
    with (GetSize (header recipient) + GetSize (header p)).
  rewrite Z.sub_0_r, !Nat.add_0_r, drop_0.
  rewrite Z2Nat.inj_add by lia.
  rewrite take_app_ge by (rewrite length_take; lia).
  rewrite length_take, Nat.min_l by lia.
  replace (Z.to_nat (GetSize (header recipient)) + Z.to_nat (GetSize (header p)) -
           Z.to_nat (GetSize (header recipient)))%nat
    with (Z.to_nat (GetSize (header p))) by lia.
  f_equal.
  rewrite take_app_le by (rewrite length_take; lia).
  by rewrite take_take, Nat.min_id.
Qed.

(** Split: [MoveHalfTo] keeps the first [size / 2] entries and moves the
    others, in order, into the empty recipient; the recipient takes the
    place behind this leaf in the sibling chain. *)
Lemma MoveHalfTo_entries p recipient :
  0 ≤ GetSize (header p) →
  GetSize (header p) ≤ Z.of_nat (length (array_ p)) →
  GetSize (header p) - GetSize (header p) `quot` 2 ≤
    Z.of_nat (length (array_ recipient)) →
  NeedToSplit (header p) = true →
  IsEmpty (header recipient) = true →
  ∃ p' recipient',
    MoveHalfTo p recipient = Ok (p', recipient') ∧
    entries p' = take (Z.to_nat (GetSize (header p) `quot` 2)) (entries p) ∧
    entries recipient' = drop (Z.to_nat (GetSize (header p) `quot` 2)) (entries p) ∧
    entries p' ++ entries recipient' = entries p ∧
    GetSize (header p') = GetSize (header p) `quot` 2 ∧
    GetSize (header recipient') =
      GetSize (header p) - GetSize (header p) `quot` 2 ∧
    next_page_id_ p' = GetPageId (header recipient) ∧
    next_page_id_ recipient' = next_page_id_ p ∧
    header p' = SetSize (GetSize (header p) `quot` 2) (header p) ∧
    array_ p' = array_ p ∧
    length (array_ recipient') = length (array_ recipient).
Proof.
  intros Hsize Hlen Hrlen Hsplit Hempty. unfold MoveHalfTo.
  rewrite Hsplit, Hempty. simpl.
  set (size := GetSize (header p)) in *.
  assert (Hhalf : 0 ≤ size `quot` 2 ≤ size).
  { rewrite Z.quot_div_nonneg by lia. split.
    - apply Z.div_pos; lia.
    - apply Z.div_le_upper_bound; lia. }
  set (half := size `quot` 2) in *.
  unfold for_up.
  rewrite (loop_up_copy (array_ p) (array_ recipient) (Z.to_nat half) 0 0);
    try lia.
  2:{ intros i a. replace (Z.of_nat (i + 0)) with (Z.of_nat i) by lia.
      by replace (Z.of_nat (i + Z.to_nat half)) with (half + Z.of_nat i) by lia. }
  simpl. rewrite Z.sub_0_r, !Nat.add_0_r.
  assert (Hp' : take (Z.to_nat half) (array_ p) = take (Z.to_nat half) (entries p)).
  { unfold entries. fold size. by rewrite take_take, Nat.min_l by lia. }
  assert (Hr' : take (Z.to_nat (size - half))
            (take (Z.to_nat (size - half)) (drop (Z.to_nat half) (array_ p)) ++
             drop (Z.to_nat (size - half)) (array_ recipient)) =
          drop (Z.to_nat half) (entries p)).
  { rewrite take_app_le by (rewrite length_take, length_drop; lia).
    rewrite take_take, Nat.min_id. unfold entries. fold size.
    rewrite take_drop_commute. do 2 f_equal. lia. }
  set (p' := {| header := SetSize half (header p); next_page_id_ := _;
                array_ := array_ p |}).
  set (r' := {| header := SetSize (size - half) (header recipient);
                next_page_id_ := _; array_ := _ |}).
  assert (E1 : entries p' = take (Z.to_nat half) (entries p)) by exact Hp'.
  assert (E2 : entries r' = drop (Z.to_nat half) (entries p)) by exact Hr'.
  assert (E3 : length (array_ r') = length (array_ recipient)).
  { unfold r'. cbn [array_].
    rewrite length_app, length_take, !length_drop. lia. }
  exists p', r'. split; [done|]. split; [done|]. split; [done|].
  split; [rewrite E1, E2; apply take_drop|]. by repeat split.
Qed.

End leaf_moves.

(** ** Internal page: child index, new root, removal *)

Section internal_ops.
Context {K V : Type} `{EqDecision V}.
Import BPlusTreePage InternalPage.
Implicit Types p : InternalPage.t K V.

Lemma ValueIndex_loop_found p v (n : nat) i :
  0 ≤ i → i + Z.of_nat n ≤ Z.of_nat (length (array_ p)) →
  ∃ r, ValueIndex_loop n i v p = Ok r ∧
    ((r = -1 ∧
      ∀ j e, i ≤ j < i + Z.of_nat n → load (array_ p) j = Ok e → e.2 ≠ v) ∨
     (i ≤ r < i + Z.of_nat n ∧ ValueAt r p = Ok v ∧
      ∀ j e, i ≤ j < r → load (array_ p) j = Ok e → e.2 ≠ v)).
Proof.
  revert i. induction n as [|n IH]; intros i Hi Hlen; simpl.
  - exists (-1). split; [done|]. left. split; [done|]. intros; lia.
  - destruct (load_Ok (array_ p) i) as [e He]; [lia|]. rewrite He. simpl.
    destruct (decide (e.2 = v)) as [Hv|Hv].
    + exists i. split; [done|]. right. split; [lia|]. split.
      * unfold ValueAt. rewrite He. simpl. by rewrite Hv.
      * intros; lia.
    + destruct (IH (i + 1)) as (r & Hr & Hcase); [lia|lia|].
      exists r. split; [done|].
      assert (Hstep : ∀ j e', i ≤ j → (i + 1 ≤ j → load (array_ p) j = Ok e' → e'.2 ≠ v) →
                load (array_ p) j = Ok e' → e'.2 ≠ v).
      { intros j e' Hj Hrest He'. destruct (decide (j = i)) as [->|Hne].
        - by pose proof (load_det _ _ _ _ He' He) as ->.
        - apply Hrest; [lia|done]. }
      destruct Hcase as [[-> Hnone]|(Hrr & Hval & Hbefore)].
      * left. split; [done|]. intros j e' Hj He'.
        apply (Hstep j e'); [lia| |done]. intros ? ?. apply (Hnone j); [lia|done].
      * right. split; [lia|]. split; [done|]. intros j e' Hj He'.
        apply (Hstep j e'); [lia| |done]. intros ? ?. apply (Hbefore j); [lia|done].
Qed.

Lemma elem_of_internal_entries p e :
  e ∈ entries p ↔
  ∃ j, 0 ≤ j < GetSize (header p) ∧ load (array_ p) j = Ok e.
Proof.
  rewrite list_elem_of_lookup. unfold entries. split.
  - intros [j Hj]. apply lookup_take_Some in Hj as [Hj Hlt].
    exists (Z.of_nat j). split; [lia|]. by apply load_nat.
  - intros (j & Hj & Hl). apply load_inv in Hl as [_ Hl].
    exists (Z.to_nat j). rewrite lookup_take_lt by lia. done.
Qed.

(** X25: [ValueIndex] returns -1 exactly when no entry of the page has the
    child, and otherwise the index of the first entry that has it. *)
Theorem internal_value_index_first_match p v :
  0 ≤ GetSize (header p) →
  GetSize (header p) ≤ Z.of_nat (length (array_ p)) →
  ∃ r, ValueIndex v p = Ok r ∧
    ((r = -1 ∧ ∀ e, e ∈ entries p → e.2 ≠ v) ∨
     (0 ≤ r < GetSize (header p) ∧ ValueAt r p = Ok v ∧
      ∀ j e, 0 ≤ j < r → load (array_ p) j = Ok e → e.2 ≠ v)).
Proof.
  intros Hsize Hlen. unfold ValueIndex.
  destruct (ValueIndex_loop_found p v (Z.to_nat (GetSize (header p))) 0)
    as (r & Hr & Hcase); [lia|lia|].
  exists r. split; [done|].
  destruct Hcase as [[-> Hnone]|(Hrr & Hval & Hbefore)].
  - left. split; [done|]. intros e He.
    apply elem_of_internal_entries in He as (j & Hj & Hl).
    apply (Hnone j); [lia|done].
  - right. split; [lia|]. by split.
Qed.

(** X26: a root made by [PopulateNewRoot] has two entries: the old child in
    slot 0, the new key and the new child in slot 1.  [Lookup] on it goes
    to the old child for the keys below the new key and to the new child
    for the others. *)
Theorem internal_new_root_lookup p old_value new_key new_value
    (comparator : K → K → Z) :
  2 ≤ Z.of_nat (length (array_ p)) →
  ∃ p', PopulateNewRoot old_value new_key new_value p = Ok p' ∧
    GetSize (header p') = 2 ∧
    ValueAt 0 p' = Ok old_value ∧
    KeyAt 1 p' = Ok new_key ∧
    ValueAt 1 p' = Ok new_value ∧
    KeyAt 0 p' = KeyAt 0 p ∧
    ∀ key, Lookup key comparator p' =
      Ok (if decide (comparator new_key key > 0) then old_value else new_value).
Proof.
  intros Hlen. unfold PopulateNewRoot.
  destruct (array_ p) as [|e0 [|e1 a]] eqn:Ha; simpl in Hlen; try lia.
  assert (L0 : ∀ (x : K * V) l, load (x :: l) 0 = Ok x)
    by (intros x l; exact (load_nat (x :: l) 0%nat x eq_refl)).
  assert (L1 : ∀ (x y : K * V) l, load (x :: y :: l) 1 = Ok y)
    by (intros x y l; exact (load_nat (x :: y :: l) 1%nat y eq_refl)).
  assert (S0 : ∀ (x y : K * V) l, store (y :: l) 0 x = Ok (x :: l))
    by (intros x y l; apply (store_nat (y :: l) 0%nat x); simpl; lia).
  assert (S1 : ∀ (x y z : K * V) l, store (y :: z :: l) 1 x = Ok (y :: x :: l))
    by (intros x y z l; apply (store_nat (y :: z :: l) 1%nat x); simpl; lia).
  rewrite L0. cbn [mbind result_bind]. rewrite S0. cbn [mbind result_bind].
  rewrite S1. cbn [mbind result_bind].
  eexists. split; [done|].
  unfold ValueAt, KeyAt. cbn [array_]. rewrite Ha, !L0, !L1.
  split; [done|]. split; [done|]. split; [done|]. split; [done|].
  split; [done|]. intros key.
  unfold Lookup, GetSize. cbn [header array_ size_ SetSize].
  change (Lookup_loop (Z.to_nat 2) 1 (2 - 1) key comparator _) with (Ok 1 : result Z).
  cbn [mbind result_bind]. rewrite L1. cbn [mbind result_bind fst snd].
  destruct (decide (comparator new_key key > 0)); [|done].
  change (1 - 1) with 0. by rewrite L0.
Qed.

(** Internal [Remove] takes the entry at the index out and keeps the order
    of the others; an index outside [0, size) stops at the assertion. *)
Lemma Remove_entries p index :
  GetSize (header p) ≤ Z.of_nat (length (array_ p)) →
  (0 ≤ index < GetSize (header p) →
   ∃ p', Remove index p = Ok p' ∧
     entries p' = delete (Z.to_nat index) (entries p) ∧
     GetSize (header p') = GetSize (header p) - 1 ∧
     length (array_ p') = length (array_ p)) ∧
  (¬ (0 ≤ index < GetSize (header p)) → Remove index p = Err AssertionFailed).
Proof.
  intros Hlen. unfold Remove. split.
  - intros Hi.
    rewrite !bool_decide_eq_true_2 by lia. simpl.
    rewrite remove_at_loop by lia. simpl.
    eexists. split; [done|]. split; [|split].
    + unfold entries. cbn [header array_].
      change (GetSize (IncreaseSize (-1) (header p)))
        with (GetSize (header p) + -1).
      replace (GetSize (header p) + -1) with (GetSize (header p) - 1) by lia.
      replace (Z.to_nat (GetSize (header p) - 1 - index))
        with (Z.to_nat (GetSize (header p)) - 1 - Z.to_nat index)%nat by lia.
      replace (Z.to_nat (GetSize (header p) - 1))
        with (Z.to_nat (GetSize (header p)) - 1)%nat by lia.
      apply take_remove_at; lia.
    + unfold GetSize. simpl. lia.
    + simpl. rewrite !length_app, !length_take, !length_drop. lia.
  - intros Hi.
    destruct (decide (index >= 0)) as [H0|H0].
    + rewrite (bool_decide_eq_true_2 _ H0).
      by rewrite bool_decide_eq_false_2 by lia.
    + by rewrite (bool_decide_eq_false_2 _ H0).
Qed.

(** [RemoveAndReturnOnlyChild] gives the child of slot 0 and empties the
    page when the size is 1, and stops at the assertion otherwise. *)
Lemma RemoveAndReturnOnlyChild_child p :
  1 ≤ Z.of_nat (length (array_ p)) →
  (GetSize (header p) = 1 →
   ∃ v p', RemoveAndReturnOnlyChild p = Ok (v, p') ∧
     ValueAt 0 p = Ok v ∧ GetSize (header p') = 0 ∧ entries p' = []) ∧
  (GetSize (header p) ≠ 1 →
   RemoveAndReturnOnlyChild p = Err AssertionFailed).
Proof.
  intros Hlen. unfold RemoveAndReturnOnlyChild. split.
  - intros Hsize. rewrite bool_decide_eq_true_2 by done. simpl.
    destruct (load_Ok (array_ p) 0) as [e He]; [lia|]. rewrite He. simpl.
    eexists _, _. split; [done|]. split; [unfold ValueAt; by rewrite He|].
    unfold entries, GetSize in *. simpl. rewrite Hsize. by split.
  - intros Hsize. by rewrite bool_decide_eq_false_2 by done.
Qed.

(** X28: a root with two children that loses one: after [Remove] of either
    entry, [RemoveAndReturnOnlyChild] returns the child of the other entry
    and leaves the page empty. *)
Theorem internal_remove_then_only_child p index :
  GetSize (header p) = 2 →
  2 ≤ Z.of_nat (length (array_ p)) →
  0 ≤ index < 2 →
  ∃ p' p'' v,
    Remove index p = Ok p' ∧
    RemoveAndReturnOnlyChild p' = Ok (v, p'') ∧
    ValueAt (1 - index) p = Ok v ∧
    GetSize (header p'') = 0.
Proof.
  intros Hsize Hlen Hi.
  destruct (Remove_entries p index) as [Hrem _]; [lia|].
  destruct Hrem as (p' & Hp' & Hent & Hsize' & Hlen'); [lia|].
  destruct (RemoveAndReturnOnlyChild_child p') as [Honly _]; [lia|].
  destruct Honly as (v & p'' & Hp'' & Hv & Hz & _); [lia|].
  exists p', p'', v. split; [done|]. split; [done|]. split; [|done].
  assert (He : ∃ e, entries p' !! 0%nat = Some e ∧ e.2 = v).
  { unfold ValueAt in Hv. destruct (load (array_ p') 0) as [e|] eqn:Hl; [|done].
    injection Hv as <-. exists e. split; [|done].
    apply load_inv in Hl as [_ Hl]. unfold entries.
    rewrite lookup_take_lt by lia. done. }
  destruct He as (e & He & <-). rewrite Hent in He.
  unfold ValueAt.
  assert (Hl : load (array_ p) (1 - index) = Ok e); [|by rewrite Hl].
  assert (index = 0 ∨ index = 1) as [-> | ->] by lia.
  - rewrite list_lookup_delete_ge in He by (simpl; lia).
    unfold entries in He. apply lookup_take_Some in He as [He _].
    by apply (load_nat _ 1).
  - rewrite list_lookup_delete_lt in He by (simpl; lia).
    unfold entries in He. apply lookup_take_Some in He as [He _].
    by apply (load_nat _ 0).
Qed.

End internal_ops.

(** ** The buffer pool: what each call does to the frames *)

Section pool_effects.
Import BufferPoolManager.

Lemma page_at_pages s s' f : pages_ s' = pages_ s → page_at s' f = page_at s f.
Proof. intros Hp. unfold page_at. by rewrite Hp. Qed.

Lemma page_at_with_disk d s f : page_at (with_disk d s) f = page_at s f.
Proof. done. Qed.

Lemma with_replacer_id s : with_replacer (replacer_ s) s = s.
Proof. by destruct s. Qed.

Lemma FindAvailablePage_fields s r s1 :
  FindAvailablePage s = (r, s1) →
  pages_ s1 = pages_ s ∧ page_table_ s1 = page_table_ s ∧
  disk_manager_ s1 = disk_manager_ s ∧ pool_size_ s1 = pool_size_ s.
Proof.
  unfold FindAvailablePage. destruct (free_list_ s) as [|g rest].
  - destruct (LRUReplacer.Victim (replacer_ s)) as [v r']. by intros [= <- <-].
  - by intros [= <- <-].
Qed.

Lemma FindAvailablePage_source s F s1 :
  FindAvailablePage s = (Some F, s1) →
  (free_list_ s = F :: free_list_ s1 ∧ replacer_ s1 = replacer_ s) ∨
  (free_list_ s = [] ∧ free_list_ s1 = [] ∧
   LRUReplacer.nodes_ (replacer_ s) = LRUReplacer.nodes_ (replacer_ s1) ++ [F]).
Proof.
  unfold FindAvailablePage. destruct (free_list_ s) as [|g rest] eqn:Hfl.
  - destruct (LRUReplacer.Victim (replacer_ s)) as [v r'] eqn:Hv.
    intros [= -> <-]. right. simpl. rewrite Hfl.
    apply Victim_Some in Hv as [Hn _]. by repeat split.
  - intros [= -> <-]. left. by split.
Qed.

Lemma FindAvailablePage_exhausted s :
  free_list_ s = [] → LRUReplacer.nodes_ (replacer_ s) = [] →
  FindAvailablePage s = (None, s).
Proof.
  intros Hfl Hn. unfold FindAvailablePage, LRUReplacer.Victim.
  rewrite Hfl, Hn. simpl. by rewrite with_replacer_id.
Qed.

Lemma FlushPageIfPossible_effect f s :
  in_range s f →
  page_at (FlushPageIfPossible f s) f = set_is_dirty false (page_at s f) ∧
  (∀ g, g ≠ f → page_at (FlushPageIfPossible f s) g = page_at s g) ∧
  disk_manager_ (FlushPageIfPossible f s) =
    (if is_dirty_ (page_at s f)
     then DiskManager.WritePage (page_id_ (page_at s f)) (data_ (page_at s f))
            (disk_manager_ s)
     else disk_manager_ s).
Proof.
  intros Hf. unfold FlushPageIfPossible.
  destruct (is_dirty_ (page_at s f)) eqn:Hd.
  - split; [by rewrite page_at_update_page_eq|]. split.
    + intros g Hg. by rewrite page_at_update_page_ne.
    + by rewrite disk_manager_update_page.
  - split; [|done]. destruct (page_at s f). simpl in Hd. by rewrite Hd.
Qed.

(** A fetch that misses: the frame [F] found by [FindAvailablePage] is
    flushed if dirty, then filled from the device and bound to the page. *)
Lemma FetchPageImpl_miss_effect s p F s1 :
  page_table_ s !! p = None →
  FindAvailablePage s = (Some F, s1) →
  in_range s F →
  ∃ s' d1,
    FetchPageImpl p s = (Some F, s') ∧
    d1 = (if is_dirty_ (page_at s F)
          then DiskManager.WritePage (page_id_ (page_at s F))
                 (data_ (page_at s F)) (disk_manager_ s)
          else disk_manager_ s) ∧
    page_at s' F =
      {| data_ := (DiskManager.ReadPage p d1).1; page_id_ := p;
         pin_count_ := 1; is_dirty_ := false |} ∧
    (∀ f, f ≠ F → page_at s' f = page_at s f) ∧
    page_table_ s' = <[p := F]> (delete (page_id_ (page_at s F)) (page_table_ s)) ∧
    free_list_ s' = free_list_ s1 ∧
    replacer_ s' = replacer_ s1 ∧
    disk_manager_ s' = (DiskManager.ReadPage p d1).2 ∧
    pool_size_ s' = pool_size_ s ∧
    length (pages_ s') = length (pages_ s).
Proof.
  intros Hp Hfa HF. unfold FetchPageImpl. rewrite Hp, Hfa.
  destruct (FindAvailablePage_fields _ _ _ Hfa) as (Hpg & Htab & Hdisk & Hps).
  assert (Hat : ∀ f, page_at s1 f = page_at s f)
    by (intros f; by apply page_at_pages).
  set (s2 := with_page_table _ (with_page_table _ s1)).
  assert (HF2 : in_range s2 F) by (unfold in_range; simpl; by rewrite Hpg).
  destruct (FlushPageIfPossible_effect F s2 HF2) as (E1 & E2 & E3).
  destruct (FlushPageIfPossible_same F s2) as (S1 & S2 & S3 & S4 & S5 & _).
  change (page_at s2 F) with (page_at s1 F) in E1, E3. rewrite Hat in E1, E3.
  change (disk_manager_ s2) with (disk_manager_ s1) in E3. rewrite Hdisk in E3.
  set (s3 := FlushPageIfPossible F s2) in *.
  assert (HF3 : in_range s3 F) by (unfold in_range; by rewrite S2).
  unfold DiskManager.ReadPage at 1. cbn [fst snd].
  eexists _, _. split; [done|]. split; [done|].
  split.
  { rewrite !page_at_update_page_eq by (rewrite ?in_range_update_page; done).
    change (page_at (with_disk _ s3) F) with (page_at s3 F). rewrite E1, E3.
    reflexivity. }
  split.
  { intros f Hf. rewrite !page_at_update_page_ne by done.
    change (page_at (with_disk _ s3) f) with (page_at s3 f).
    rewrite E2 by done. apply Hat. }
  rewrite !page_table_update_page, !free_list_update_page,
    !replacer_update_page, !disk_manager_update_page, !pool_size_update_page,
    !length_update_page. cbn [page_table_ free_list_ replacer_ disk_manager_
    pool_size_ pages_ with_disk].
  rewrite S5, S4, S3, S1, S2, E3. unfold s2. cbn [page_table_ free_list_ replacer_
    pool_size_ pages_ with_page_table].
  rewrite Hat, Htab, Hps, Hpg. done.
Qed.

(** [NewPage] on a pool with an available frame [F]: the device hands out
    the next identifier, [F] is flushed if dirty, zeroed and bound to it. *)
Lemma NewPageImpl_effect s F s1 :
  FindAvailablePage s = (Some F, s1) →
  in_range s F →
  ∃ s' q d1,
    NewPageImpl s = (Some (F, q), s') ∧
    q = DiskManager.next_page_id (disk_manager_ s) ∧
    d1 = (DiskManager.AllocatePage (disk_manager_ s)).2 ∧
    page_at s' F =
      {| data_ := DiskManager.zero_buffer; page_id_ := q;
         pin_count_ := 1; is_dirty_ := false |} ∧
    (∀ f, f ≠ F → page_at s' f = page_at s f) ∧
    page_table_ s' = <[q := F]> (delete (page_id_ (page_at s F)) (page_table_ s)) ∧
    free_list_ s' = free_list_ s1 ∧
    replacer_ s' = LRUReplacer.Pin F (replacer_ s1) ∧
    disk_manager_ s' =
      (if is_dirty_ (page_at s F)
       then DiskManager.WritePage (page_id_ (page_at s F))
              (data_ (page_at s F)) d1
       else d1) ∧
    pool_size_ s' = pool_size_ s ∧
    length (pages_ s') = length (pages_ s).
Proof.
  intros Hfa HF. unfold NewPageImpl. rewrite Hfa.
  destruct (FindAvailablePage_fields _ _ _ Hfa) as (Hpg & Htab & Hdisk & Hps).
  assert (Hat : ∀ f, page_at s1 f = page_at s f)
    by (intros f; by apply page_at_pages).
  unfold DiskManager.AllocatePage at 1.
  set (s2 := with_replacer _ (with_page_table _ (with_page_table _ (with_disk _ s1)))).
  assert (HF2 : in_range s2 F) by (unfold in_range; simpl; by rewrite Hpg).
  destruct (FlushPageIfPossible_effect F s2 HF2) as (E1 & E2 & E3).
  destruct (FlushPageIfPossible_same F s2) as (S1 & S2 & S3 & S4 & S5 & _).
  change (page_at s2 F) with (page_at s1 F) in E1, E3. rewrite Hat in E1, E3.
  set (s3 := FlushPageIfPossible F s2) in *.
  assert (HF3 : in_range s3 F) by (unfold in_range; by rewrite S2).
  eexists _, _, _. split; [done|]. split; [by rewrite Hdisk|]. split; [done|].
  split.
  { rewrite !page_at_update_page_eq by (rewrite ?in_range_update_page; done).
    rewrite E1. by rewrite Hdisk. }
  split.
  { intros f Hf. rewrite !page_at_update_page_ne by done.
    rewrite E2 by done. apply Hat. }
  rewrite !page_table_update_page, !free_list_update_page,
    !replacer_update_page, !disk_manager_update_page, !pool_size_update_page,
    !length_update_page.
  rewrite S5, S4, S3, S1, S2, E3. unfold s2. cbn [page_table_ free_list_ replacer_
    pool_size_ pages_ disk_manager_ with_page_table with_replacer with_disk].
  rewrite page_at_with_disk, Hat, Htab, Hps, Hpg, Hdisk. done.
Qed.

Lemma FindAvailablePage_None_eq s s1 :
  FindAvailablePage s = (None, s1) → s1 = s.
Proof.
  unfold FindAvailablePage. destruct (free_list_ s) as [|g rest]; [|done].
  destruct (LRUReplacer.Victim (replacer_ s)) as [v r] eqn:Hv.
  intros [= -> <-]. apply Victim_None in Hv as [-> _].
  apply with_replacer_id.
Qed.

Lemma FetchPageImpl_hit_effect s p F :
  page_table_ s !! p = Some F → in_range s F →
  ∃ s',
    FetchPageImpl p s = (Some F, s') ∧
    page_at s' F =
      set_pin_count (wrap_int (pin_count_ (page_at s F) + 1)) (page_at s F) ∧
    (∀ f, f ≠ F → page_at s' f = page_at s f) ∧
    page_table_ s' = page_table_ s ∧
    free_list_ s' = free_list_ s ∧
    replacer_ s' = LRUReplacer.Pin F (replacer_ s) ∧
    disk_manager_ s' = disk_manager_ s ∧
    pool_size_ s' = pool_size_ s ∧
    length (pages_ s') = length (pages_ s).
Proof.
  intros Hp HF. unfold FetchPageImpl. rewrite Hp.
  eexists. split; [done|].
  rewrite page_at_update_page_eq by done.
  rewrite page_table_update_page, free_list_update_page, replacer_update_page,
    disk_manager_update_page, pool_size_update_page, length_update_page.
  split; [done|]. split; [|done].
  intros f Hf. by rewrite page_at_update_page_ne.
Qed.

Lemma UnpinPageImpl_effect s p d F :
  page_table_ s !! p = Some F → in_range s F →
  pin_count_ (page_at s F) > 0 →
  ∃ s',
    UnpinPageImpl p d s = (true, s') ∧
    page_at s' F =
      {| data_ := data_ (page_at s F); page_id_ := page_id_ (page_at s F);
         pin_count_ := pin_count_ (page_at s F) - 1;
         is_dirty_ := is_dirty_ (page_at s F) || d |} ∧
    (∀ f, f ≠ F → page_at s' f = page_at s f) ∧
    page_table_ s' = page_table_ s ∧
    free_list_ s' = free_list_ s ∧
    replacer_ s' =
      (if decide (pin_count_ (page_at s F) - 1 = 0)
       then LRUReplacer.Unpin F (replacer_ s) else replacer_ s) ∧
    disk_manager_ s' = disk_manager_ s ∧
    pool_size_ s' = pool_size_ s ∧
    length (pages_ s') = length (pages_ s).
Proof.
  intros Hp HF Hpin. unfold UnpinPageImpl. rewrite Hp.
  rewrite decide_True by done.
  set (s1 := update_page _ F s).
  set (s2 := update_page _ F s1).
  assert (HF1 : in_range s1 F) by by apply in_range_update_page.
  assert (E2 : page_at s2 F =
    {| data_ := data_ (page_at s F); page_id_ := page_id_ (page_at s F);
       pin_count_ := pin_count_ (page_at s F) - 1;
       is_dirty_ := is_dirty_ (page_at s F) || d |}).
  { unfold s2. rewrite page_at_update_page_eq by done.
    unfold s1. by rewrite page_at_update_page_eq. }
  assert (Eo : ∀ f, f ≠ F → page_at s2 f = page_at s f).
  { intros f Hf. unfold s2, s1. by rewrite !page_at_update_page_ne. }
  assert (Ef : page_table_ s2 = page_table_ s ∧ free_list_ s2 = free_list_ s ∧
    replacer_ s2 = replacer_ s ∧ disk_manager_ s2 = disk_manager_ s ∧
    pool_size_ s2 = pool_size_ s ∧ length (pages_ s2) = length (pages_ s)).
  { unfold s2, s1.
    by rewrite !page_table_update_page, !free_list_update_page,
      !replacer_update_page, !disk_manager_update_page,
      !pool_size_update_page, !length_update_page. }
  destruct Ef as (F1 & F2 & F3 & F4 & F5 & F6).
  clearbody s2. clear s1 HF1. rewrite E2. cbn [pin_count_].
  destruct (decide (pin_count_ (page_at s F) - 1 = 0)).
  - eexists. split; [done|]. rewrite page_at_with_replacer.
    split; [done|]. split; [intros f Hf; by apply Eo|].
    cbn. by rewrite F1, F2, F3, F4, F5, F6.
  - exists s2. by repeat split.
Qed.

Lemma DeletePageImpl_effect s p F :
  page_table_ s !! p = Some F → in_range s F →
  ¬ pin_count_ (page_at s F) > 0 →
  ∃ s',
    DeletePageImpl p s = (true, s') ∧
    page_at s' F = new_Page ∧
    (∀ f, f ≠ F → page_at s' f = page_at s f) ∧
    page_table_ s' = delete p (page_table_ s) ∧
    free_list_ s' = free_list_ s ++ [F] ∧
    replacer_ s' = LRUReplacer.Pin F (replacer_ s) ∧
    disk_manager_ s' = DiskManager.DeallocatePage p (disk_manager_ s) ∧
    pool_size_ s' = pool_size_ s ∧
    length (pages_ s') = length (pages_ s).
Proof.
  intros Hp HF Hpin. unfold DeletePageImpl. rewrite Hp.
  rewrite decide_False by done.
  set (s0 := with_disk _ s).
  set (s4 := update_page ResetMemory F _).
  assert (HF0 : in_range s0 F) by done.
  eexists. split; [done|].
  split.
  { change (page_at s4 F = new_Page). unfold s4.
    rewrite !page_at_update_page_eq by (rewrite ?in_range_update_page; done).
    reflexivity. }
  split.
  { intros f Hf. change (page_at s4 f = page_at s0 f). unfold s4.
    by rewrite !page_at_update_page_ne. }
  cbn. unfold s4.
  by rewrite !page_table_update_page, !replacer_update_page,
    !free_list_update_page, !disk_manager_update_page,
    !pool_size_update_page, !length_update_page.
Qed.

Lemma accounted_same s s' :
  same_bookkeeping s s' → frames_accounted s → frames_accounted s'.
Proof.
  intros Hsame Hacc f Hf.
  destruct (same_bookkeeping_meta s s' f Hsame) as [_ Hpin].
  destruct Hsame as (_ & Hlen & Hrep & Hfl & _ & _).
  rewrite Hpin, Hrep, Hfl. apply Hacc. unfold in_range in *. by rewrite <- Hlen.
Qed.

(** If all frames but [F] keep their pin counts and stay where they are
    listed, and [F] is accounted for, then all frames are. *)
Lemma accounted_update s s' F :
  length (pages_ s') = length (pages_ s) →
  (∀ f, f ≠ F → in_range s f →
     0 ≤ pin_count_ (page_at s f) ∧
     (pin_count_ (page_at s f) = 0 →
      f ∈ free_list_ s ∨ f ∈ LRUReplacer.nodes_ (replacer_ s))) →
  (∀ f, f ≠ F → page_at s' f = page_at s f) →
  (∀ f, f ≠ F → f ∈ free_list_ s → f ∈ free_list_ s') →
  (∀ f, f ≠ F → f ∈ LRUReplacer.nodes_ (replacer_ s) →
        f ∈ LRUReplacer.nodes_ (replacer_ s')) →
  (in_range s' F →
   0 ≤ pin_count_ (page_at s' F) ∧
   (pin_count_ (page_at s' F) = 0 →
    F ∈ free_list_ s' ∨ F ∈ LRUReplacer.nodes_ (replacer_ s'))) →
  frames_accounted s'.
Proof.
  intros Hlen Hacc Hother Hfree Hcand HF f Hf.
  destruct (decide (f = F)) as [->|Hne]; [by apply HF|].
  rewrite Hother by done.
  destruct (Hacc f Hne) as [H0 Hz]; [unfold in_range in *; by rewrite <- Hlen|].
  split; [done|]. intros Hpin. destruct (Hz Hpin) as [?|?]; [left|right]; auto.
Qed.

Lemma new_accounted pool_size disk_manager :
  frames_accounted (new pool_size disk_manager).
Proof.
  intros f Hf. unfold in_range in Hf. simpl in Hf. rewrite length_replicate in Hf.
  unfold page_at. simpl. rewrite decide_True by lia.
  rewrite lookup_replicate_2 by lia. simpl. split; [done|].
  intros _. left. apply elem_of_seqZ. lia.
Qed.

Lemma step_accounted q s :
  inv s → frames_accounted s → pins_below_max s →
  frames_accounted (step q s).
Proof.
  intros Hinv Hacc Hmax.
  assert (Hacc' : ∀ F f, f ≠ F → in_range s f →
     0 ≤ pin_count_ (page_at s f) ∧
     (pin_count_ (page_at s f) = 0 →
      f ∈ free_list_ s ∨ f ∈ LRUReplacer.nodes_ (replacer_ s)))
    by (intros F f _ Hf; by apply Hacc).
  pose proof (inv_replacer s Hinv) as Hwf.
  assert (Hfa : ∀ F s1, FindAvailablePage s = (Some F, s1) →
     in_range s F ∧ LRUReplacer.wf (replacer_ s1) ∧
     (∀ f, f ≠ F → f ∈ free_list_ s → f ∈ free_list_ s1) ∧
     (∀ f, f ≠ F → f ∈ LRUReplacer.nodes_ (replacer_ s) →
           f ∈ LRUReplacer.nodes_ (replacer_ s1))).
  { intros F s1 Hfa.
    destruct (FindAvailablePage_Some s F s1 Hinv Hfa) as (Hinv1 & HF & _).
    destruct (FindAvailablePage_fields _ _ _ Hfa) as (Hpg & _).
    split; [unfold in_range in *; by rewrite <- Hpg|].
    split; [by apply inv_replacer|].
    destruct (FindAvailablePage_source _ _ _ Hfa) as [[Hfl ->]|(Hfl & _ & Hn)].
    - split; [|done]. intros f Hf. rewrite Hfl, elem_of_cons. by intros [?|?].
    - split; [intros f _; rewrite Hfl; by intros ?%not_elem_of_nil|].
      intros f Hf. rewrite Hn, elem_of_app, list_elem_of_singleton.
      by intros [?|?]. }
  destruct q as [p| |p d|p| |p|g buf]; simpl.
  - (* FetchPage *)
    destruct (page_table_ s !! p) as [F|] eqn:Hp.
    + destruct (inv_table s Hinv p F Hp) as (HF & _).
      destruct (FetchPageImpl_hit_effect s p F Hp HF)
        as (s' & -> & EF & Eo & _ & Efl & Erep & _ & _ & Elen).
      apply (accounted_update s s' F); simpl; try done.
      * by apply Hacc'.
      * intros f _. by rewrite Efl.
      * intros f Hf Hin. rewrite Erep. by apply elem_of_Pin.
      * intros _. rewrite EF. simpl. destruct (Hacc F HF) as [H0 _].
        specialize (Hmax F HF).
        rewrite wrap_int_id by (unfold INT_MIN, INT_MAX in *; lia).
        split; [lia|]. intros; lia.
    + destruct (FindAvailablePage s) as [[F|] s1] eqn:Hfa'.
      * destruct (Hfa F s1 eq_refl) as (HF & _ & Hfree & Hcand).
        destruct (FetchPageImpl_miss_effect s p F s1 Hp Hfa' HF)
          as (s' & d1 & -> & _ & EF & Eo & _ & Efl & Erep & _ & _ & Elen).
        apply (accounted_update s s' F); simpl; try done.
        -- by apply Hacc'.
        -- intros f Hf Hin. rewrite Efl. by apply Hfree.
        -- intros f Hf Hin. rewrite Erep. by apply Hcand.
        -- intros _. rewrite EF. simpl. split; [lia|]. intros; lia.
      * unfold FetchPageImpl. rewrite Hp, Hfa'. simpl.
        by rewrite (FindAvailablePage_None_eq _ _ Hfa').
  - (* NewPage *)
    destruct (FindAvailablePage s) as [[F|] s1] eqn:Hfa'.
    + destruct (Hfa F s1 eq_refl) as (HF & Hwf1 & Hfree & Hcand).
      destruct (NewPageImpl_effect s F s1 Hfa' HF)
        as (s' & q & d1 & -> & _ & _ & EF & Eo & _ & Efl & Erep & _ & _ & Elen).
      apply (accounted_update s s' F); simpl; try done.
      * by apply Hacc'.
      * intros f Hf Hin. rewrite Efl. by apply Hfree.
      * intros f Hf Hin. rewrite Erep. apply elem_of_Pin; [done|].
        split; [by apply Hcand|done].
      * intros _. rewrite EF. simpl. split; [lia|]. intros; lia.
    + unfold NewPageImpl. rewrite Hfa'. simpl.
      by rewrite (FindAvailablePage_None_eq _ _ Hfa').
  - (* UnpinPage *)
    destruct (page_table_ s !! p) as [F|] eqn:Hp;
      [|unfold UnpinPageImpl; by rewrite Hp].
    destruct (inv_table s Hinv p F Hp) as (HF & _).
    destruct (decide (pin_count_ (page_at s F) > 0)) as [Hpin|Hpin];
      [|unfold UnpinPageImpl; rewrite Hp; by rewrite decide_False].
    destruct (UnpinPageImpl_effect s p d F Hp HF Hpin)
      as (s' & -> & EF & Eo & _ & Efl & Erep & _ & _ & Elen).
    apply (accounted_update s s' F); simpl; try done.
    + by apply Hacc'.
    + intros f _. by rewrite Efl.
    + intros f Hf Hin. rewrite Erep. case_decide; [|done].
      apply elem_of_Unpin; [done|]. by right.
    + intros _. rewrite EF, Erep. simpl. split; [lia|]. intros Hz.
      rewrite decide_True by done. right. apply elem_of_Unpin; [done|]. by left.
  - (* FlushPage *)
    eapply accounted_same; [apply flushPageWithoutLock_same|done].
  - (* FlushAllPages *)
    eapply accounted_same; [apply FlushAllPagesImpl_same|done].
  - (* DeletePage *)
    destruct (page_table_ s !! p) as [F|] eqn:Hp;
      [|unfold DeletePageImpl; by rewrite Hp].
    destruct (inv_table s Hinv p F Hp) as (HF & _).
    destruct (decide (pin_count_ (page_at s F) > 0)) as [Hpin|Hpin];
      [unfold DeletePageImpl; rewrite Hp; by rewrite decide_True|].
    destruct (DeletePageImpl_effect s p F Hp HF Hpin)
      as (s' & -> & EF & Eo & _ & Efl & Erep & _ & _ & Elen).
    apply (accounted_update s s' F); simpl; try done.
    + by apply Hacc'.
    + intros f _ Hin. rewrite Efl. apply elem_of_app. by left.
    + intros f Hf Hin. rewrite Erep. by apply elem_of_Pin.
    + intros _. rewrite EF, Efl. simpl. split; [done|]. intros _. left.
      apply elem_of_app. right. by apply list_elem_of_singleton.
  - (* a caller's write *)
    eapply accounted_same; [apply WriteData_same|done].
Qed.

Lemma pins_below_max_check_ok s :
  pins_below_max_check s = true → pins_below_max s.
Proof.
  unfold pins_below_max_check. rewrite forallb_forall. intros Hall f [H0 Hlt].
  unfold page_at. rewrite decide_True by done.
  destruct (lookup_lt_is_Some_2 (pages_ s) (Z.to_nat f)) as [pg Hpg]; [lia|].
  rewrite Hpg. simpl.
  apply (bool_decide_eq_true_1 (pin_count_ pg < INT_MAX)), Hall.
  apply list_elem_of_In. by apply list_elem_of_lookup_2 in Hpg.
Qed.

Lemma run_below_max_check_ok qs s :
  run_below_max_check qs s = true →
  ∀ k, pins_below_max (run (take k qs) s).
Proof.
  unfold run_below_max_check. rewrite forallb_forall. intros Hall k.
  destruct (decide (k ≤ length qs)%nat) as [Hk|Hk].
  - apply pins_below_max_check_ok, Hall, in_seq. lia.
  - rewrite take_ge by lia. rewrite <- (take_ge qs (length qs)) by lia.
    apply pins_below_max_check_ok, Hall, in_seq. lia.
Qed.

Lemma run_snoc qs q s : run (qs ++ [q]) s = step q (run qs s).
Proof. unfold run. by rewrite foldl_app. Qed.

(** Frames stay accounted for along a run in which no pin count came to
    stand at [INT_MAX]. *)
Lemma run_accounted pool_size disk_manager qs :
  (∀ k, pins_below_max (run (take k qs) (new pool_size disk_manager))) →
  frames_accounted (run qs (new pool_size disk_manager)).
Proof.
  induction qs as [|q qs IH] using rev_ind; intros Hmax;
    [apply new_accounted|].
  rewrite run_snoc. apply step_accounted.
  - apply reachable_inv, reachable_run, reach_new.
  - apply IH. intros k.
    destruct (decide (k ≤ length qs)%nat) as [Hk|Hk].
    + specialize (Hmax k). by rewrite take_app_le in Hmax.
    + specialize (Hmax (length qs)). rewrite take_app_length in Hmax.
      by rewrite take_ge by lia.
  - specialize (Hmax (length qs)). by rewrite take_app_length in Hmax.
Qed.

End pool_effects.

(** ** Flushing *)

Section pool_flush.
Import BufferPoolManager.

Lemma FlushPageIfPossible_data f s g :
  data_ (page_at (FlushPageIfPossible f s) g) = data_ (page_at s g).
Proof.
  unfold FlushPageIfPossible. destruct (is_dirty_ (page_at s f)); [|done].
  destruct (decide (f = g)) as [<-|Hne].
  - destruct (decide (in_range s f)) as [Hin|Hout].
    + by rewrite page_at_update_page_eq.
    + by rewrite page_at_update_page_out.
  - by rewrite page_at_update_page_ne.
Qed.

Lemma FlushPageIfPossible_dirty_mono f s g :
  is_dirty_ (page_at (FlushPageIfPossible f s) g) = true →
  is_dirty_ (page_at s g) = true.
Proof.
  unfold FlushPageIfPossible. destruct (is_dirty_ (page_at s f)) eqn:Hd; [|done].
  destruct (decide (f = g)) as [<-|Hne]; [by rewrite Hd|].
  by rewrite page_at_update_page_ne.
Qed.

Lemma FlushPageIfPossible_clean f s :
  in_range s f → is_dirty_ (page_at (FlushPageIfPossible f s) f) = false.
Proof.
  intros Hf. destruct (FlushPageIfPossible_effect f s Hf) as (-> & _). done.
Qed.

(** What the device stores for a page after a flush of frame [f]. *)
Lemma FlushPageIfPossible_stored f s q :
  in_range s f →
  DiskManager.stored (disk_manager_ (FlushPageIfPossible f s)) !! q =
    if decide (is_dirty_ (page_at s f) = true ∧ page_id_ (page_at s f) = q)
    then Some (data_ (page_at s f))
    else DiskManager.stored (disk_manager_ s) !! q.
Proof.
  intros Hf. destruct (FlushPageIfPossible_effect f s Hf) as (_ & _ & ->).
  destruct (is_dirty_ (page_at s f)).
  - destruct (decide (page_id_ (page_at s f) = q)) as [<-|Hne].
    + rewrite decide_True by done. apply lookup_insert_eq.
    + rewrite decide_False by (intros [_ ?]; done). by apply lookup_insert_ne.
  - by rewrite decide_False by (intros [? _]; done).
Qed.

(** The loop of [FlushAllPages] over a list of page-table entries; the
    loop body uses the keys only. *)
Lemma flush_loop_spec (l : list (Z * Z)) s :
  inv s →
  let s' := foldl (λ s kv, (flushPageWithoutLock kv.1 s).2) s l in
  same_bookkeeping s s' ∧
  (∀ f, data_ (page_at s' f) = data_ (page_at s f)) ∧
  (∀ f, is_dirty_ (page_at s' f) = true → is_dirty_ (page_at s f) = true) ∧
  (∀ p F, page_table_ s !! p = Some F →
     p ∈ l.*1 → is_dirty_ (page_at s' F) = false) ∧
  (∀ p F, page_table_ s !! p = Some F →
     DiskManager.stored (disk_manager_ s') !! p =
       (if decide (is_dirty_ (page_at s F) = true ∧ p ∈ l.*1)
        then Some (data_ (page_at s F))
        else DiskManager.stored (disk_manager_ s) !! p)).
Proof.
  revert s. induction l as [|[q G] l IH]; intros s Hinv; simpl.
  - split; [apply same_bookkeeping_refl|]. split; [done|]. split; [done|].
    split; [by intros ? ? _ ?%not_elem_of_nil|].
    intros p F _. rewrite decide_False; [done|]. by intros [_ ?%not_elem_of_nil].
  - set (s1 := (flushPageWithoutLock q s).2).
    assert (Hsame1 : same_bookkeeping s s1) by apply flushPageWithoutLock_same.
    assert (Hinv1 : inv s1) by by apply (inv_same s).
    destruct (IH s1 Hinv1) as (Hsame & Hdata & Hmono & Hclean & Hstored).
    assert (Htab1 : page_table_ s1 = page_table_ s) by apply Hsame1.
    assert (Hdata1 : ∀ f, data_ (page_at s1 f) = data_ (page_at s f)).
    { intros f. unfold s1, flushPageWithoutLock.
      destruct (page_table_ s !! q); [apply FlushPageIfPossible_data|done]. }
    assert (Hmono1 : ∀ f, is_dirty_ (page_at s1 f) = true →
              is_dirty_ (page_at s f) = true).
    { intros f. unfold s1, flushPageWithoutLock.
      destruct (page_table_ s !! q); [apply FlushPageIfPossible_dirty_mono|done]. }
    assert (Hd1 : ∀ p F, page_table_ s !! p = Some F →
      is_dirty_ (page_at s1 F) =
        if decide (q = p) then false else is_dirty_ (page_at s F)).
    { intros p F Hp. unfold s1, flushPageWithoutLock.
      destruct (inv_table s Hinv p F Hp) as (HF & HFid & _).
      destruct (decide (q = p)) as [->|Hne].
      - rewrite Hp. simpl. by apply FlushPageIfPossible_clean.
      - destruct (page_table_ s !! q) as [G'|] eqn:Hq; simpl; [|done].
        destruct (inv_table s Hinv q G' Hq) as (HG' & HGid & _).
        assert (G' ≠ F) by (intros ->; congruence).
        destruct (FlushPageIfPossible_effect G' s HG') as (_ & -> & _); done. }
    split; [by apply (same_bookkeeping_trans s s1)|].
    split; [intros f; by rewrite Hdata, Hdata1|].
    split; [intros f Hd; by apply Hmono1, Hmono|].
    split.
    + intros p F Hp Hin. apply elem_of_cons in Hin as [Heq|Hin].
      * destruct (is_dirty_ (page_at _ F)) eqn:Hd; [|done].
        apply Hmono in Hd. rewrite (Hd1 p F Hp) in Hd.
        by rewrite decide_True in Hd by done.
      * apply (Hclean p F); [by rewrite Htab1|done].
    + intros p F Hp. rewrite (Hstored p F) by by rewrite Htab1.
      rewrite Hdata1.
      destruct (inv_table s Hinv p F Hp) as (HF & HFid & _).
      assert (Hs1 : DiskManager.stored (disk_manager_ s1) !! p =
        if decide (is_dirty_ (page_at s F) = true ∧ q = p)
        then Some (data_ (page_at s F))
        else DiskManager.stored (disk_manager_ s) !! p).
      { unfold s1, flushPageWithoutLock.
        destruct (page_table_ s !! q) as [G'|] eqn:Hq; simpl.
        - destruct (inv_table s Hinv q G' Hq) as (HG' & HGid & _).
          rewrite FlushPageIfPossible_stored by done. rewrite HGid.
          destruct (decide (q = p)) as [->|Hne].
          + assert (G' = F) as -> by congruence.
            destruct (is_dirty_ (page_at s F)).
            * by rewrite !decide_True.
            * by rewrite !decide_False by (intros [? _]; done).
          + by rewrite !decide_False by (intros [_ ?]; done).
        - rewrite decide_False; [done|]. intros [_ ->]. congruence. }
      rewrite (Hd1 p F Hp), Hs1.
      destruct (decide (q = p)) as [->|Hne];
        destruct (is_dirty_ (page_at s F));
        repeat case_decide; try done; exfalso;
        rewrite ?elem_of_cons in *; naive_solver.
Qed.

End pool_flush.

(** ** Properties of the replacer *)

Section replacer_properties.
Import LRUReplacer.

Lemma filter_ne_notin (x : Z) (l : list Z) :
  x ∉ l → filter (λ g, g ≠ x) l = l.
Proof.
  induction l as [|y l IH]; [done|]. intros Hx.
  rewrite filter_cons_True by (intros ->; apply Hx; left).
  f_equal. apply IH. intros Hin. apply Hx. by right.
Qed.

Lemma erase_node_filter (x : Z) (l : list Z) :
  NoDup l → erase_node x l = filter (λ g, g ≠ x) l.
Proof.
  induction 1 as [|y l Hy Hl IH]; [done|]. simpl.
  destruct (decide (y = x)) as [->|Hne].
  - rewrite filter_cons_False by (intros ?; done). by rewrite filter_ne_notin.
  - rewrite filter_cons_True by done. by rewrite IH.
Qed.

(** X1: a replacer never lists a frame twice, however often it is unpinned:
    in every state of a replacer its list has no duplicates, its index has
    exactly the frames of the list, and [Size] is the number of frames in the
    index. *)
Theorem replacer_never_duplicates r :
  reachable r →
  NoDup (nodes_ r) ∧ (∀ f, f ∈ index_ r ↔ f ∈ nodes_ r) ∧
  Size r = size (index_ r).
Proof.
  intros Hr. destruct (reachable_wf r Hr) as [Hnd Hix].
  split; [done|]. split; [done|].
  unfold Size. assert (index_ r = list_to_set (nodes_ r)) as ->.
  { apply set_eq. intros f. by rewrite Hix, elem_of_list_to_set. }
  by rewrite size_list_to_set.
Qed.

Lemma replacer_never_duplicates_witness :
  NoDup (nodes_ (Unpin 1 (Unpin 2 (Unpin 1 (new 3))))) ∧
  (∀ f, f ∈ index_ (Unpin 1 (Unpin 2 (Unpin 1 (new 3)))) ↔
        f ∈ nodes_ (Unpin 1 (Unpin 2 (Unpin 1 (new 3))))) ∧
  Size (Unpin 1 (Unpin 2 (Unpin 1 (new 3)))) =
    size (index_ (Unpin 1 (Unpin 2 (Unpin 1 (new 3))))).
Proof.
  apply (replacer_never_duplicates (Unpin 1 (Unpin 2 (Unpin 1 (new 3))))).
  apply reach_Unpin, reach_Unpin, reach_Unpin, reach_new.
Defined.

(** X2: [Pin(x)] takes [x] out of the list and keeps the order of the other
    frames (nothing changes when [x] is not listed); [Pin(x)] followed by
    [Unpin(x)] puts [x] at the front, the end evicted last. *)
Theorem replacer_pin_then_unpin_moves_to_front r x :
  reachable r →
  nodes_ (Pin x r) = filter (λ g, g ≠ x) (nodes_ r) ∧
  (x ∉ nodes_ r → Pin x r = r) ∧
  nodes_ (Unpin x (Pin x r)) = x :: filter (λ g, g ≠ x) (nodes_ r).
Proof.
  intros Hr. destruct (reachable_wf r Hr) as [Hnd Hix].
  assert (Hpin : nodes_ (Pin x r) = filter (λ g, g ≠ x) (nodes_ r)).
  { unfold Pin. destruct (decide (x ∈ index_ r)) as [Hx|Hx]; simpl.
    - by apply erase_node_filter.
    - rewrite filter_ne_notin; [done|]. by rewrite <- Hix. }
  split; [done|]. split.
  - intros Hx. unfold Pin. rewrite decide_False; [done|]. by rewrite Hix.
  - rewrite <- Hpin. rewrite Unpin_absent; [done|].
    pose proof (Pin_wf x r (conj Hnd Hix)) as [_ Hix'].
    rewrite Hix', Hpin, list_elem_of_filter. by intros [? _].
Qed.

Lemma replacer_pin_then_unpin_moves_to_front_witness :
  nodes_ (Pin 1 (Unpin 3 (Unpin 2 (Unpin 1 (new 3))))) =
    filter (λ g, g ≠ 1) (nodes_ (Unpin 3 (Unpin 2 (Unpin 1 (new 3))))) ∧
  (1 ∉ nodes_ (Unpin 3 (Unpin 2 (Unpin 1 (new 3)))) →
   Pin 1 (Unpin 3 (Unpin 2 (Unpin 1 (new 3)))) =
     Unpin 3 (Unpin 2 (Unpin 1 (new 3)))) ∧
  nodes_ (Unpin 1 (Pin 1 (Unpin 3 (Unpin 2 (Unpin 1 (new 3)))))) =
    1 :: filter (λ g, g ≠ 1) (nodes_ (Unpin 3 (Unpin 2 (Unpin 1 (new 3))))).
Proof.
  apply (replacer_pin_then_unpin_moves_to_front
           (Unpin 3 (Unpin 2 (Unpin 1 (new 3)))) 1).
  apply reach_Unpin, reach_Unpin, reach_Unpin, reach_new.
Defined.

(** X3: [Victim] on a replacer without candidates reports failure and
    changes nothing; otherwise it returns the frame at the back of the list,
    which is then no candidate any more, and leaves the other frames in
    their order. *)
Theorem replacer_victim_takes_the_back r :
  reachable r →
  (nodes_ r = [] → Victim r = (None, r)) ∧
  (∀ l f, nodes_ r = l ++ [f] →
     ∃ r', Victim r = (Some f, r') ∧ nodes_ r' = l ∧ (f ∉ nodes_ r') ∧
       (f ∉ index_ r') ∧ S (Size r') = Size r).
Proof.
  intros Hr. destruct (reachable_wf r Hr) as [Hnd Hix]. split.
  - intros Hn. unfold Victim. by rewrite Hn.
  - intros l f Hn. unfold Victim. rewrite Hn, last_snoc.
    eexists. split; [done|]. simpl. rewrite removelast_last.
    rewrite Hn in Hnd. apply NoDup_app in Hnd as (_ & Hdisj & _).
    assert (Hf : f ∉ l).
    { intros Hin. apply (Hdisj f Hin). by apply list_elem_of_singleton. }
    split; [done|]. split; [done|]. split; [set_solver|].
    unfold Size. simpl. rewrite Hn, length_app. simpl. lia.
Qed.

Lemma replacer_victim_takes_the_back_witness :
  (nodes_ (Unpin 2 (Unpin 1 (new 3))) = [] →
   Victim (Unpin 2 (Unpin 1 (new 3))) = (None, Unpin 2 (Unpin 1 (new 3)))) ∧
  (∀ l f, nodes_ (Unpin 2 (Unpin 1 (new 3))) = l ++ [f] →
     ∃ r', Victim (Unpin 2 (Unpin 1 (new 3))) = (Some f, r') ∧
       nodes_ r' = l ∧ (f ∉ nodes_ r') ∧ (f ∉ index_ r') ∧
       S (Size r') = Size (Unpin 2 (Unpin 1 (new 3)))).
Proof.
  apply (replacer_victim_takes_the_back (Unpin 2 (Unpin 1 (new 3)))).
  apply reach_Unpin, reach_Unpin, reach_new.
Defined.

End replacer_properties.

(** ** Properties of the buffer pool *)

Section pool_properties.
Import BufferPoolManager Examples.

(** X4: in every state of the pool a page-table entry leads to a frame of
    the frame array that is stamped with that page identifier and is not in
    the free list; so no frame is the home of two page identifiers, and the
    frame array keeps its [pool_size_] frames. *)
Theorem pool_page_table_consistent s p F :
  reachable s → page_table_ s !! p = Some F →
  in_range s F ∧ page_id_ (page_at s F) = p ∧
  (∀ p', page_table_ s !! p' = Some F → p' = p) ∧
  (F ∉ free_list_ s) ∧
  length (pages_ s) = pool_size_ s.
Proof.
  intros Hr Hp. apply reachable_inv in Hr as Hinv.
  destruct (inv_table s Hinv p F Hp) as (HF & Hid & Hfree).
  split; [done|]. split; [done|]. split; [|split; [done|by apply inv_length]].
  intros p' Hp'. destruct (inv_table s Hinv p' F Hp') as (_ & Hid' & _).
  congruence.
Qed.

Lemma pool_page_table_consistent_witness :
  in_range pool2_unpinned 0 ∧ page_id_ (page_at pool2_unpinned 0) = 0 ∧
  (∀ p', page_table_ pool2_unpinned !! p' = Some 0 → p' = 0) ∧
  (0 ∉ free_list_ pool2_unpinned) ∧
  length (pages_ pool2_unpinned) = pool_size_ pool2_unpinned.
Proof.
  apply (pool_page_table_consistent pool2_unpinned 0 0).
  - apply reachable_run, reach_new.
  - vm_compute. reflexivity.
Defined.

(** X5: in every state a new pool reaches by calls and callers' writes,
    as long as no pin count came to stand at [INT_MAX] on the way, each
    frame is in exactly one of three places: in the free list, among the
    candidates of the replacer, or pinned (pin count above 0); no pin count
    is negative, and a free frame is the home of no page. *)
Theorem pool_frame_in_one_place pool_size disk_manager qs s f :
  s = run qs (new pool_size disk_manager) →
  (∀ k, pins_below_max (run (take k qs) (new pool_size disk_manager))) →
  in_range s f →
  0 ≤ pin_count_ (page_at s f) ∧
  (f ∈ free_list_ s ∨ f ∈ LRUReplacer.nodes_ (replacer_ s) ∨
   pin_count_ (page_at s f) > 0) ∧
  ¬ (f ∈ free_list_ s ∧ f ∈ LRUReplacer.nodes_ (replacer_ s)) ∧
  ¬ (f ∈ free_list_ s ∧ pin_count_ (page_at s f) > 0) ∧
  ¬ (f ∈ LRUReplacer.nodes_ (replacer_ s) ∧ pin_count_ (page_at s f) > 0) ∧
  (f ∈ free_list_ s → ∀ p, page_table_ s !! p ≠ Some f).
Proof.
  intros -> Hmax Hf.
  set (s := run qs (new pool_size disk_manager)) in *.
  assert (Hinv : inv s) by apply reachable_inv, reachable_run, reach_new.
  destruct (run_accounted pool_size disk_manager qs Hmax f Hf) as [H0 Hz].
  fold s in H0, Hz.
  split; [done|]. split.
  { destruct (decide (pin_count_ (page_at s f) = 0)) as [Hpin|Hpin].
    - destruct (Hz Hpin); auto.
    - right. right. lia. }
  split.
  { intros [Hfree Hcand]. by destruct (inv_free s Hinv f Hfree) as (_ & _ & ?). }
  split.
  { intros [Hfree Hpin]. destruct (inv_free s Hinv f Hfree) as (_ & ? & _). lia. }
  split.
  { intros [Hcand Hpin]. destruct (inv_cand s Hinv f Hcand) as (_ & ?). lia. }
  intros Hfree p Hp. by destruct (inv_table s Hinv p f Hp) as (_ & _ & ?).
Qed.

Lemma pool_frame_in_one_place_witness :
  0 ≤ pin_count_ (page_at pool1_written 0) ∧
  (0 ∈ free_list_ pool1_written ∨
   0 ∈ LRUReplacer.nodes_ (replacer_ pool1_written) ∨
   pin_count_ (page_at pool1_written 0) > 0) ∧
  ¬ (0 ∈ free_list_ pool1_written ∧
     0 ∈ LRUReplacer.nodes_ (replacer_ pool1_written)) ∧
  ¬ (0 ∈ free_list_ pool1_written ∧ pin_count_ (page_at pool1_written 0) > 0) ∧
  ¬ (0 ∈ LRUReplacer.nodes_ (replacer_ pool1_written) ∧
     pin_count_ (page_at pool1_written 0) > 0) ∧
  (0 ∈ free_list_ pool1_written →
   ∀ p, page_table_ pool1_written !! p ≠ Some 0).
Proof.
  apply (pool_frame_in_one_place 1 empty_disk
           [NewPage; CallerWrite 0 written_buffer; UnpinPage 0 true]
           pool1_written 0).
  - reflexivity.
  - apply run_below_max_check_ok. vm_compute. reflexivity.
  - unfold in_range. vm_compute. split; [discriminate|reflexivity].
Defined.

(** X6: when every frame of the pool is pinned, [FetchPage] of a page that
    is not resident and [NewPage] return [nullptr] and change nothing: no
    identifier is allocated and the device is not touched. *)
Theorem pool_all_pinned_is_exhausted s p :
  reachable s →
  (∀ f, in_range s f → pin_count_ (page_at s f) > 0) →
  page_table_ s !! p = None →
  FetchPageImpl p s = (None, s) ∧ NewPageImpl s = (None, s).
Proof.
  intros Hr Hall Hp. apply reachable_inv in Hr as Hinv.
  assert (Hfl : free_list_ s = []).
  { destruct (free_list_ s) as [|f l] eqn:Hfl; [done|]. exfalso.
    assert (Hf : f ∈ free_list_ s) by (rewrite Hfl; left).
    destruct (inv_free s Hinv f Hf) as (Hin & Hz & _).
    specialize (Hall f Hin). lia. }
  assert (Hn : LRUReplacer.nodes_ (replacer_ s) = []).
  { destruct (LRUReplacer.nodes_ (replacer_ s)) as [|f l] eqn:Hn; [done|]. exfalso.
    assert (Hf : f ∈ LRUReplacer.nodes_ (replacer_ s)) by (rewrite Hn; left).
    destruct (inv_cand s Hinv f Hf) as (Hin & Hz).
    specialize (Hall f Hin). lia. }
  unfold FetchPageImpl, NewPageImpl.
  by rewrite Hp, (FindAvailablePage_exhausted s Hfl Hn).
Qed.

Lemma pool_all_pinned_is_exhausted_witness :
  FetchPageImpl 5 (run [NewPage] pool1) = (None, run [NewPage] pool1) ∧
  NewPageImpl (run [NewPage] pool1) = (None, run [NewPage] pool1).
Proof.
  apply (pool_all_pinned_is_exhausted (run [NewPage] pool1) 5).
  - apply reachable_run, reach_new.
  - intros f [H0 H1].
    assert (Hl : length (pages_ (run [NewPage] pool1)) = 1%nat)
      by (vm_compute; reflexivity).
    rewrite Hl in H1. assert (f = 0) as -> by lia.
    vm_compute. reflexivity.
  - vm_compute. reflexivity.
Defined.

Lemma FetchPageImpl_miss_inv s p F s' :
  inv s → page_table_ s !! p = None → FetchPageImpl p s = (Some F, s') →
  ∃ s1, FindAvailablePage s = (Some F, s1) ∧ in_range s F ∧
    pin_count_ (page_at s F) = 0.
Proof.
  intros Hinv Hp Hfetch. unfold FetchPageImpl in Hfetch. rewrite Hp in Hfetch.
  destruct (FindAvailablePage s) as [[F'|] s1] eqn:Hfa; [|done].
  destruct (FindAvailablePage_Some s F' s1 Hinv Hfa)
    as (_ & HF & _ & _ & Hpin & Hpg & _).
  assert (HF' : in_range s F') by (unfold in_range in *; by rewrite <- Hpg).
  destruct (FetchPageImpl_miss_effect s p F' s1 Hp Hfa HF') as (s'' & d1 & Heq & _).
  unfold FetchPageImpl in Heq. rewrite Hp, Hfa in Heq.
  rewrite Heq in Hfetch. injection Hfetch as -> ->. by exists s1.
Qed.

(** X7: a [FetchPage] of a page that is not resident and that succeeds
    takes an unpinned frame, writes the frame's old page to the device first
    if the frame is dirty, and leaves the frame bound to the page: the page
    table maps the page to the frame, the frame carries the page identifier,
    pin count 1, a clean dirty flag and the bytes the device stores for the
    page (zeroes if it stores none).  The other frames are untouched. *)
Theorem pool_fetch_miss_loads_the_page s p F s' :
  reachable s → page_table_ s !! p = None →
  FetchPageImpl p s = (Some F, s') →
  in_range s F ∧ pin_count_ (page_at s F) = 0 ∧
  page_table_ s' !! p = Some F ∧
  page_id_ (page_at s' F) = p ∧
  pin_count_ (page_at s' F) = 1 ∧
  is_dirty_ (page_at s' F) = false ∧
  data_ (page_at s' F) =
    default DiskManager.zero_buffer
      (DiskManager.stored (disk_manager_ s') !! p) ∧
  (is_dirty_ (page_at s F) = true →
   DiskManager.stored (disk_manager_ s') !! page_id_ (page_at s F) =
     Some (data_ (page_at s F))) ∧
  (is_dirty_ (page_at s F) = false →
   DiskManager.stored (disk_manager_ s') = DiskManager.stored (disk_manager_ s)) ∧
  (∀ f, f ≠ F → page_at s' f = page_at s f).
Proof.
  intros Hr Hp Hfetch. apply reachable_inv in Hr as Hinv.
  destruct (FetchPageImpl_miss_inv s p F s' Hinv Hp Hfetch) as (s1 & Hfa & HF & Hpin).
  destruct (FetchPageImpl_miss_effect s p F s1 Hp Hfa HF)
    as (s'' & d1 & Heq & Hd1 & EF & Eo & Etab & _ & _ & Edisk & _).
  rewrite Heq in Hfetch. injection Hfetch as <-.
  split; [done|]. split; [done|].
  split; [rewrite Etab; apply lookup_insert_eq|].
  rewrite EF, Edisk. cbn [page_id_ pin_count_ is_dirty_ data_].
  split; [done|]. split; [done|]. split; [done|]. split; [done|].
  cbn [DiskManager.ReadPage snd DiskManager.stored]. rewrite Hd1.
  split; [|split; [|done]].
  - intros ->. apply lookup_insert_eq.
  - by intros ->.
Qed.

Lemma pool_fetch_miss_loads_the_page_witness :
  in_range pool1_written 0 ∧ pin_count_ (page_at pool1_written 0) = 0 ∧
  page_table_ (FetchPageImpl 9 pool1_written).2 !! 9 = Some 0 ∧
  page_id_ (page_at (FetchPageImpl 9 pool1_written).2 0) = 9 ∧
  pin_count_ (page_at (FetchPageImpl 9 pool1_written).2 0) = 1 ∧
  is_dirty_ (page_at (FetchPageImpl 9 pool1_written).2 0) = false ∧
  data_ (page_at (FetchPageImpl 9 pool1_written).2 0) =
    default DiskManager.zero_buffer
      (DiskManager.stored (disk_manager_ (FetchPageImpl 9 pool1_written).2) !! 9) ∧
  (is_dirty_ (page_at pool1_written 0) = true →
   DiskManager.stored (disk_manager_ (FetchPageImpl 9 pool1_written).2) !!
     page_id_ (page_at pool1_written 0) =
     Some (data_ (page_at pool1_written 0))) ∧
  (is_dirty_ (page_at pool1_written 0) = false →
   DiskManager.stored (disk_manager_ (FetchPageImpl 9 pool1_written).2) =
     DiskManager.stored (disk_manager_ pool1_written)) ∧
  (∀ f, f ≠ 0 → page_at (FetchPageImpl 9 pool1_written).2 f =
                page_at pool1_written f).
Proof.
  apply (pool_fetch_miss_loads_the_page pool1_written 9 0).
  - apply reachable_run, reach_new.
  - vm_compute. reflexivity.
  - vm_compute. reflexivity.
Defined.

(** X8: a [NewPage] that succeeds returns the identifier the device hands
    out next and a frame that was unpinned; the frame's old page is written
    to the device first if the frame is dirty; afterwards the page table maps
    the new identifier to the frame, and the frame carries it with pin count
    1, a clean dirty flag and a zeroed buffer, and is neither free nor a
    candidate.  The other frames are untouched. *)
Theorem pool_new_page_binds_a_zeroed_frame s F q s' :
  reachable s → NewPageImpl s = (Some (F, q), s') →
  in_range s F ∧ pin_count_ (page_at s F) = 0 ∧
  q = DiskManager.next_page_id (disk_manager_ s) ∧
  DiskManager.next_page_id (disk_manager_ s') = q + 1 ∧
  page_table_ s' !! q = Some F ∧
  page_at s' F =
    {| data_ := DiskManager.zero_buffer; page_id_ := q;
       pin_count_ := 1; is_dirty_ := false |} ∧
  (is_dirty_ (page_at s F) = true →
   DiskManager.stored (disk_manager_ s') !! page_id_ (page_at s F) =
     Some (data_ (page_at s F))) ∧
  (F ∉ free_list_ s') ∧ (F ∉ LRUReplacer.nodes_ (replacer_ s')) ∧
  (∀ f, f ≠ F → page_at s' f = page_at s f).
Proof.
  intros Hr Hnew. apply reachable_inv in Hr as Hinv.
  assert (Hinv' : inv s').
  { replace s' with (NewPageImpl s).2 by by rewrite Hnew.
    by apply NewPageImpl_inv. }
  unfold NewPageImpl in Hnew.
  destruct (FindAvailablePage s) as [[F'|] s1] eqn:Hfa; [|done].
  destruct (FindAvailablePage_Some s F' s1 Hinv Hfa)
    as (_ & HF1 & _ & _ & Hpin & Hpg & _).
  assert (HF' : in_range s F') by (unfold in_range in *; by rewrite <- Hpg).
  destruct (NewPageImpl_effect s F' s1 Hfa HF')
    as (s'' & q' & d1 & Heq & Hq & Hd1 & EF & Eo & Etab & Efl & Erep & Edisk & _).
  unfold NewPageImpl in Heq. rewrite Hfa in Heq. rewrite Heq in Hnew.
  injection Hnew as -> -> ->.
  assert (Hq' : page_table_ s' !! q = Some F)
    by (rewrite Etab; apply lookup_insert_eq).
  split; [done|]. split; [done|]. split; [done|].
  split.
  { rewrite Edisk, Hd1, Hq. by destruct (is_dirty_ (page_at s F)). }
  split; [done|]. split; [done|].
  split.
  { intros Hd. rewrite Edisk, Hd, Hd1. apply lookup_insert_eq. }
  split; [by destruct (inv_table s' Hinv' q F Hq') as (_ & _ & ?)|].
  split; [|done].
  intros Hin. destruct (inv_cand s' Hinv' F Hin) as [_ Hz].
  rewrite EF in Hz. done.
Qed.

Lemma pool_new_page_binds_a_zeroed_frame_witness :
  in_range pool1_written 0 ∧ pin_count_ (page_at pool1_written 0) = 0 ∧
  1 = DiskManager.next_page_id (disk_manager_ pool1_written) ∧
  DiskManager.next_page_id (disk_manager_ (NewPageImpl pool1_written).2) = 1 + 1 ∧
  page_table_ (NewPageImpl pool1_written).2 !! 1 = Some 0 ∧
  page_at (NewPageImpl pool1_written).2 0 =
    {| data_ := DiskManager.zero_buffer; page_id_ := 1;
       pin_count_ := 1; is_dirty_ := false |} ∧
  (is_dirty_ (page_at pool1_written 0) = true →
   DiskManager.stored (disk_manager_ (NewPageImpl pool1_written).2) !!
     page_id_ (page_at pool1_written 0) =
     Some (data_ (page_at pool1_written 0))) ∧
  (0 ∉ free_list_ (NewPageImpl pool1_written).2) ∧
  (0 ∉ LRUReplacer.nodes_ (replacer_ (NewPageImpl pool1_written).2)) ∧
  (∀ f, f ≠ 0 → page_at (NewPageImpl pool1_written).2 f = page_at pool1_written f).
Proof.
  apply (pool_new_page_binds_a_zeroed_frame pool1_written 0 1).
  - apply reachable_run, reach_new.
  - vm_compute. reflexivity.
Defined.



(** X10: a page that [FetchPage] has just returned is resident and pinned;
    its frame is neither free nor a candidate of the replacer, and
    [DeletePage] of it returns [false] and changes nothing.  For a page that
    was resident already this needs its pin count before the fetch to be in
    [0, INT_MAX): at [INT_MAX] the increment leaves the range of [int]. *)
Theorem pool_fetched_page_is_protected s p F s' :
  reachable s → FetchPageImpl p s = (Some F, s') →
  (page_table_ s !! p = Some F → 0 ≤ pin_count_ (page_at s F) < INT_MAX) →
  page_table_ s' !! p = Some F ∧
  pin_count_ (page_at s' F) > 0 ∧
  (F ∉ LRUReplacer.nodes_ (replacer_ s')) ∧
  (F ∉ free_list_ s') ∧
  DeletePageImpl p s' = (false, s').
Proof.
  intros Hr Hfetch Hbound. apply reachable_inv in Hr as Hinv.
  assert (Hr' : reachable s').
  { replace s' with (step (FetchPage p) s) by (simpl; by rewrite Hfetch).
    by apply reach_step. }
  apply reachable_inv in Hr' as Hinv'.
  assert (Hfacts : page_table_ s' !! p = Some F ∧ pin_count_ (page_at s' F) > 0).
  { destruct (page_table_ s !! p) as [F'|] eqn:Hp.
    - destruct (inv_table s Hinv p F' Hp) as (HF' & _).
      destruct (FetchPageImpl_hit_effect s p F' Hp HF')
        as (s'' & Heq & EF & _ & Etab & _).
      rewrite Heq in Hfetch. injection Hfetch as -> ->.
      specialize (Hbound eq_refl).
      rewrite Etab, EF. split; [done|]. simpl.
      rewrite wrap_int_id by (unfold INT_MIN, INT_MAX in *; lia). lia.
    - destruct (FetchPageImpl_miss_inv s p F s' Hinv Hp Hfetch)
        as (s1 & Hfa & HF & _).
      destruct (FetchPageImpl_miss_effect s p F s1 Hp Hfa HF)
        as (s'' & d1 & Heq & _ & EF & _ & Etab & _).
      rewrite Heq in Hfetch. injection Hfetch as ->.
      rewrite Etab, EF. split; [apply lookup_insert_eq|]. simpl. lia. }
  destruct Hfacts as [Hp' Hpin]. split; [done|]. split; [done|].
  split; [|split].
  - intros Hin. destruct (inv_cand s' Hinv' F Hin) as [_ ?]. lia.
  - by destruct (inv_table s' Hinv' p F Hp') as (_ & _ & ?).
  - unfold DeletePageImpl. rewrite Hp'. by rewrite decide_True by lia.
Qed.

Lemma pool_fetched_page_is_protected_witness :
  page_table_ (FetchPageImpl 0 pool1_written).2 !! 0 = Some 0 ∧
  pin_count_ (page_at (FetchPageImpl 0 pool1_written).2 0) > 0 ∧
  (0 ∉ LRUReplacer.nodes_ (replacer_ (FetchPageImpl 0 pool1_written).2)) ∧
  (0 ∉ free_list_ (FetchPageImpl 0 pool1_written).2) ∧
  DeletePageImpl 0 (FetchPageImpl 0 pool1_written).2 =
    (false, (FetchPageImpl 0 pool1_written).2).
Proof.
  apply (pool_fetched_page_is_protected pool1_written 0 0).
  - apply reachable_run, reach_new.
  - vm_compute. reflexivity.
  - intros _. by vm_compute.
Defined.

(** X11: [FlushPage] returns [false] and changes nothing for a page that is
    not resident.  For a resident page it returns [true]; if the frame is
    dirty its buffer is written to the device under the page identifier, in
    one [WritePage] call, and the flag is cleared; if the frame is clean
    nothing is written and nothing changes. *)
Theorem pool_flush_page_writes_dirty_frames s p :
  reachable s →
  (page_table_ s !! p = None → FlushPageImpl p s = (false, s)) ∧
  (∀ F, page_table_ s !! p = Some F →
     ∃ s', FlushPageImpl p s = (true, s') ∧
       is_dirty_ (page_at s' F) = false ∧
       data_ (page_at s' F) = data_ (page_at s F) ∧
       pin_count_ (page_at s' F) = pin_count_ (page_at s F) ∧
       (is_dirty_ (page_at s F) = true →
        DiskManager.stored (disk_manager_ s') !! p = Some (data_ (page_at s F)) ∧
        DiskManager.calls (disk_manager_ s') =
          DiskManager.calls (disk_manager_ s) ++
          [DiskManager.CallWritePage p (data_ (page_at s F))]) ∧
       (is_dirty_ (page_at s F) = false → s' = s)).
Proof.
  intros Hr. apply reachable_inv in Hr as Hinv. split.
  - intros Hp. unfold FlushPageImpl, flushPageWithoutLock. by rewrite Hp.
  - intros F Hp. unfold FlushPageImpl, flushPageWithoutLock. rewrite Hp.
    destruct (inv_table s Hinv p F Hp) as (HF & Hid & _).
    eexists. split; [done|].
    split; [by apply FlushPageIfPossible_clean|].
    split; [apply FlushPageIfPossible_data|].
    split; [by destruct (same_bookkeeping_meta s _ F (FlushPageIfPossible_same F s))|].
    destruct (FlushPageIfPossible_effect F s HF) as (_ & _ & Edisk).
    split.
    + intros Hd. rewrite Edisk, Hd, Hid. split; [apply lookup_insert_eq|done].
    + intros Hd. unfold FlushPageIfPossible. by rewrite Hd.
Qed.

Lemma pool_flush_page_writes_dirty_frames_witness :
  (page_table_ pool1_written !! 0 = None →
   FlushPageImpl 0 pool1_written = (false, pool1_written)) ∧
  (∀ F, page_table_ pool1_written !! 0 = Some F →
     ∃ s', FlushPageImpl 0 pool1_written = (true, s') ∧
       is_dirty_ (page_at s' F) = false ∧
       data_ (page_at s' F) = data_ (page_at pool1_written F) ∧
       pin_count_ (page_at s' F) = pin_count_ (page_at pool1_written F) ∧
       (is_dirty_ (page_at pool1_written F) = true →
        DiskManager.stored (disk_manager_ s') !! 0 =
          Some (data_ (page_at pool1_written F)) ∧
        DiskManager.calls (disk_manager_ s') =
          DiskManager.calls (disk_manager_ pool1_written) ++
          [DiskManager.CallWritePage 0 (data_ (page_at pool1_written F))]) ∧
       (is_dirty_ (page_at pool1_written F) = false → s' = pool1_written)).
Proof.
  apply (pool_flush_page_writes_dirty_frames pool1_written 0).
  apply reachable_run, reach_new.
Defined.

(** X12: after [FlushAllPages] no resident page is dirty; the device stores
    the buffer of every resident page that was dirty and keeps what it
    stored for the clean ones; buffers, pin counts, page table, free list
    and replacer are as before. *)
Theorem pool_flush_all_pages_cleans s :
  reachable s →
  same_bookkeeping s (FlushAllPagesImpl s) ∧
  (∀ f, data_ (page_at (FlushAllPagesImpl s) f) = data_ (page_at s f)) ∧
  (∀ p F, page_table_ s !! p = Some F →
     is_dirty_ (page_at (FlushAllPagesImpl s) F) = false ∧
     (is_dirty_ (page_at s F) = true →
      DiskManager.stored (disk_manager_ (FlushAllPagesImpl s)) !! p =
        Some (data_ (page_at s F))) ∧
     (is_dirty_ (page_at s F) = false →
      DiskManager.stored (disk_manager_ (FlushAllPagesImpl s)) !! p =
        DiskManager.stored (disk_manager_ s) !! p)).
Proof.
  intros Hr. apply reachable_inv in Hr as Hinv.
  destruct (flush_loop_spec (map_to_list (page_table_ s)) s Hinv)
    as (Hsame & Hdata & _ & Hclean & Hstored).
  fold (FlushAllPagesImpl s) in Hsame, Hdata, Hclean, Hstored.
  split; [done|]. split; [done|]. intros p F Hp.
  assert (Hin : p ∈ (map_to_list (page_table_ s)).*1).
  { apply list_elem_of_fmap. exists (p, F). split; [done|].
    by apply elem_of_map_to_list. }
  split; [by apply (Hclean p F)|]. rewrite (Hstored p F Hp). split.
  - intros ->. by rewrite decide_True.
  - intros ->. by rewrite decide_False by (intros [? _]; done).
Qed.

Lemma pool_flush_all_pages_cleans_witness :
  same_bookkeeping pool1_written (FlushAllPagesImpl pool1_written) ∧
  (∀ f, data_ (page_at (FlushAllPagesImpl pool1_written) f) =
        data_ (page_at pool1_written f)) ∧
  (∀ p F, page_table_ pool1_written !! p = Some F →
     is_dirty_ (page_at (FlushAllPagesImpl pool1_written) F) = false ∧
     (is_dirty_ (page_at pool1_written F) = true →
      DiskManager.stored (disk_manager_ (FlushAllPagesImpl pool1_written)) !! p =
        Some (data_ (page_at pool1_written F))) ∧
     (is_dirty_ (page_at pool1_written F) = false →
      DiskManager.stored (disk_manager_ (FlushAllPagesImpl pool1_written)) !! p =
        DiskManager.stored (disk_manager_ pool1_written) !! p)).
Proof.
  apply (pool_flush_all_pages_cleans pool1_written).
  apply reachable_run, reach_new.
Defined.

(** X13: [UpdateParent] on a child page that is resident, with a pin count
    in [0, INT_MAX), succeeds: the parent identifier is written into the
    buffer of the child's frame, whatever a caller wrote there before; the
    frame is dirty afterwards and its pin count is what it was; the other
    frames, the page table, the free list and the device are not touched.
    If the child was unpinned its frame becomes the newest candidate of the
    replacer, otherwise the replacer is not changed.  The pool is left in a
    state of its own, so the next [UpdateParent] finds it as any call does.
    On a child page that is not resident while no frame is free or
    evictable the assertion of [UpdateParent] fails. *)
Theorem reparent_resident_child_in_place W c par s :
  reachable s →
  (∀ F, page_table_ s !! c = Some F →
     0 ≤ pin_count_ (page_at s F) < INT_MAX →
     ∃ s', Reparent.UpdateParent W c par s = Ok s' ∧
       reachable s' ∧
       data_ (page_at s' F) = W par (data_ (page_at s F)) ∧
       is_dirty_ (page_at s' F) = true ∧
       pin_count_ (page_at s' F) = pin_count_ (page_at s F) ∧
       page_id_ (page_at s' F) = c ∧
       (∀ f, f ≠ F → page_at s' f = page_at s f) ∧
       page_table_ s' = page_table_ s ∧
       free_list_ s' = free_list_ s ∧
       disk_manager_ s' = disk_manager_ s ∧
       LRUReplacer.nodes_ (replacer_ s') =
         (if decide (pin_count_ (page_at s F) = 0)
          then F :: filter (λ g, g ≠ F) (LRUReplacer.nodes_ (replacer_ s))
          else LRUReplacer.nodes_ (replacer_ s))) ∧
  (page_table_ s !! c = None → free_list_ s = [] →
   LRUReplacer.nodes_ (replacer_ s) = [] →
   Reparent.UpdateParent W c par s = Err AssertionFailed).
Proof.
  intros Hr. apply reachable_inv in Hr as Hinv. split.
  - intros F Hp Hpin0.
    destruct (inv_table s Hinv c F Hp) as (HF & Hid & _).
    destruct (inv_replacer s Hinv) as [Hnd Hix].
    destruct (FetchPageImpl_hit_effect s c F Hp HF)
      as (s1 & Heq & EF1 & Eo1 & Etab1 & Efl1 & Erep1 & Edisk1 & _ & Elen1).
    assert (Hr1 : reachable s1).
    { replace s1 with (step (FetchPage c) s) by (simpl; by rewrite Heq).
      by apply reach_step. }
    unfold Reparent.UpdateParent. rewrite Heq.
    set (g := λ pg, set_data (W par (data_ pg)) pg).
    set (s2 := update_page g F s1).
    assert (HF1 : in_range s1 F) by (unfold in_range in *; by rewrite Elen1).
    assert (Hr2 : reachable s2).
    { replace s2 with
        (step (CallerWrite F (W par (data_ (page_at s1 F)))) s1);
        [by apply reach_step|].
      simpl. unfold WriteData, s2, update_page.
      destruct HF1 as [HF0 HFlt]. rewrite !decide_True by done. f_equal.
      symmetry. apply list_alter_ext; [|done].
      intros pg Hpg. unfold g, page_at.
      rewrite decide_True by done. by rewrite Hpg. }
    assert (HF2 : in_range s2 F) by by apply in_range_update_page.
    assert (EF2 : page_at s2 F = g (page_at s1 F))
      by by apply page_at_update_page_eq.
    assert (Eo2 : ∀ f, f ≠ F → page_at s2 f = page_at s1 f)
      by (intros f Hf; by apply page_at_update_page_ne).
    assert (Etab2 : page_table_ s2 = page_table_ s1)
      by apply page_table_update_page.
    assert (Efl2 : free_list_ s2 = free_list_ s1)
      by apply free_list_update_page.
    assert (Erep2 : replacer_ s2 = replacer_ s1) by apply replacer_update_page.
    assert (Edisk2 : disk_manager_ s2 = disk_manager_ s1)
      by apply disk_manager_update_page.
    clearbody s2.
    assert (Hp2 : page_table_ s2 !! c = Some F) by by rewrite Etab2, Etab1.
    assert (Hpin2 : pin_count_ (page_at s2 F) = pin_count_ (page_at s F) + 1).
    { rewrite EF2, EF1. simpl.
      apply wrap_int_id. unfold INT_MIN, INT_MAX in *. lia. }
    destruct (UnpinPageImpl_effect s2 c true F Hp2 HF2 ltac:(lia))
      as (s3 & Heq3 & EF3 & Eo3 & Etab3 & Efl3 & Erep3 & Edisk3 & _).
    rewrite Heq3. exists s3. split; [done|].
    split.
    { replace s3 with (step (UnpinPage c true) s2) by (simpl; by rewrite Heq3).
      by apply reach_step. }
    rewrite EF3. simpl.
    rewrite Hpin2, EF2, EF1. simpl.
    split; [done|]. split; [by rewrite orb_true_r|]. split; [lia|].
    split; [done|].
    split; [intros f Hf; by rewrite Eo3, Eo2, Eo1|].
    split; [by rewrite Etab3, Etab2|]. split; [by rewrite Efl3, Efl2|].
    split; [by rewrite Edisk3, Edisk2|].
    rewrite Erep3, Hpin2, Erep2, Erep1.
    destruct (decide (pin_count_ (page_at s F) = 0)) as [H0|H0].
    + rewrite decide_True by lia.
      destruct (decide (F ∈ LRUReplacer.index_ (replacer_ s))) as [Hin|Hin].
      * rewrite Unpin_absent.
        -- unfold LRUReplacer.Pin. rewrite decide_True by done. simpl.
           by rewrite erase_node_filter.
        -- unfold LRUReplacer.Pin. rewrite decide_True by done. simpl.
           set_solver.
      * unfold LRUReplacer.Pin. rewrite decide_False by done.
        rewrite Unpin_absent by done. simpl.
        rewrite filter_ne_notin; [done|]. by rewrite <- Hix.
    + rewrite decide_False by lia.
      unfold LRUReplacer.Pin. rewrite decide_False; [done|].
      rewrite Hix. intros Hin. destruct (inv_cand s Hinv F Hin) as [_ ?]. lia.
  - intros Hp Hfl Hn. unfold Reparent.UpdateParent, FetchPageImpl.
    rewrite Hp. by rewrite FindAvailablePage_exhausted.
Qed.

Lemma reparent_resident_child_in_place_witness :
  let W := λ (par : Z) (d : list Byte.byte), Byte.x07 :: drop 1 d in
  (∀ F, page_table_ pool1_written !! 0 = Some F →
     0 ≤ pin_count_ (page_at pool1_written F) < INT_MAX →
     ∃ s', Reparent.UpdateParent W 0 7 pool1_written = Ok s' ∧
       reachable s' ∧
       data_ (page_at s' F) = W 7 (data_ (page_at pool1_written F)) ∧
       is_dirty_ (page_at s' F) = true ∧
       pin_count_ (page_at s' F) = pin_count_ (page_at pool1_written F) ∧
       page_id_ (page_at s' F) = 0 ∧
       (∀ f, f ≠ F → page_at s' f = page_at pool1_written f) ∧
       page_table_ s' = page_table_ pool1_written ∧
       free_list_ s' = free_list_ pool1_written ∧
       disk_manager_ s' = disk_manager_ pool1_written ∧
       LRUReplacer.nodes_ (replacer_ s') =
         (if decide (pin_count_ (page_at pool1_written F) = 0)
          then F :: filter (λ g, g ≠ F)
                      (LRUReplacer.nodes_ (replacer_ pool1_written))
          else LRUReplacer.nodes_ (replacer_ pool1_written))) ∧
  (page_table_ pool1_written !! 0 = None → free_list_ pool1_written = [] →
   LRUReplacer.nodes_ (replacer_ pool1_written) = [] →
   Reparent.UpdateParent W 0 7 pool1_written = Err AssertionFailed).
Proof.
  intros W. apply (reparent_resident_child_in_place W 0 7 pool1_written).
  apply reachable_run, reach_new.
Defined.

End pool_properties.

(** ** Ordered arrays, checked *)

Section ascending_check.
Context {K V : Type} (comparator : K → K → Z).

Lemma ascending_list_lookup (l : list (K * V)) (k : nat) e e' :
  ascending_list comparator l = true →
  l !! k = Some e → l !! S k = Some e' → comparator e.1 e'.1 < 0.
Proof.
  revert k. induction l as [|x l IH]; intros k Hasc Hk Hk'; [done|].
  destruct l as [|y l]; [done|].
  cbn [ascending_list] in Hasc. apply andb_true_iff in Hasc as [Hxy Hrest].
  destruct k as [|k].
  - injection Hk as ->. injection Hk' as ->. by apply bool_decide_eq_true in Hxy.
  - by apply (IH k).
Qed.

(** The first [size] slots pass the check: they are [keys_ascending]. *)
Lemma keys_ascending_check (a : list (K * V)) size :
  ascending_list comparator (take (Z.to_nat size) a) = true →
  keys_ascending comparator a 0 size.
Proof.
  intros Hasc i e e' Hi Hlt He He'.
  apply load_inv in He as [_ He]. apply load_inv in He' as [_ He'].
  apply (ascending_list_lookup _ (Z.to_nat i) e e' Hasc).
  - by rewrite lookup_take_lt by lia.
  - rewrite lookup_take_lt by lia.
    by replace (S (Z.to_nat i)) with (Z.to_nat (i + 1)) by lia.
Qed.

End ascending_check.

(** ** Properties of the leaf page *)

Section leaf_properties.
Context {K V : Type}.
Context (comparator : K → K → Z) `{!Comparator comparator}.
Import BPlusTreePage LeafPage.
Implicit Types p recipient : LeafPage.t K V.

(** X14: on a leaf with at least one entry and strictly ascending keys,
    [KeyIndex] returns the smallest index whose key is not below the search
    key, and the size when every key is below it. *)
Theorem leaf_key_index_lower_bound p key :
  1 ≤ GetSize (header p) →
  GetSize (header p) ≤ Z.of_nat (length (array_ p)) →
  keys_ascending comparator (array_ p) 0 (GetSize (header p)) →
  ∃ i, KeyIndex key comparator p = Ok i ∧
    0 ≤ i ≤ GetSize (header p) ∧
    (∀ j e, 0 ≤ j < i → load (array_ p) j = Ok e → comparator e.1 key < 0) ∧
    (i < GetSize (header p) →
     ∃ e, load (array_ p) i = Ok e ∧ comparator e.1 key >= 0).
Proof. apply KeyIndex_nonempty; done. Qed.

(** X15: on a leaf with strictly ascending keys, [Lookup] returns [true]
    with a value exactly when the leaf has an entry with that value whose
    key the comparator finds equal to the search key, and [false] when the
    leaf has no entry under the key; on a leaf without entries it returns
    [false]. *)
Theorem leaf_lookup_finds_the_stored_entry p key :
  0 ≤ GetSize (header p) →
  GetSize (header p) ≤ Z.of_nat (length (array_ p)) →
  1 ≤ Z.of_nat (length (array_ p)) →
  keys_ascending comparator (array_ p) 0 (GetSize (header p)) →
  ∃ r, Lookup key comparator p = Ok r ∧
    (∀ v, r = Some v ↔ ∃ k, (k, v) ∈ entries p ∧ comparator k key = 0) ∧
    (GetSize (header p) = 0 → r = None).
Proof.
  intros H0 Hlen H1 Hasc.
  destruct (Lookup_entries comparator p key H0 Hlen H1 Hasc) as (r & Hr & Hiff).
  exists r. split; [done|]. split; [done|]. intros Hsize.
  destruct r as [v|]; [|done].
  destruct (proj1 (Hiff v) eq_refl) as (k & Hin & _).
  unfold entries in Hin. rewrite Hsize in Hin. by apply elem_of_nil in Hin.
Qed.

(** X16: on a leaf with at least one entry, strictly ascending keys and
    room for one more, [Insert] returns the old size plus one and places
    the pair at the index [KeyIndex] gives: the entries before it, which
    all have smaller keys, and the entries from it on, which have no smaller
    key, keep their order.  If the leaf did not hold the key, the keys are
    strictly ascending afterwards. *)
Theorem leaf_insert_keeps_order p key value :
  1 ≤ GetSize (header p) →
  GetSize (header p) < Z.of_nat (length (array_ p)) →
  CanInsert 1 (header p) = true →
  keys_ascending comparator (array_ p) 0 (GetSize (header p)) →
  ∃ i p',
    KeyIndex key comparator p = Ok i ∧ 0 ≤ i ≤ GetSize (header p) ∧
    Insert key value comparator p = Ok (GetSize (header p) + 1, p') ∧
    GetSize (header p') = GetSize (header p) + 1 ∧
    next_page_id_ p' = next_page_id_ p ∧
    entries p' =
      take (Z.to_nat i) (entries p) ++ (key, value) :: drop (Z.to_nat i) (entries p) ∧
    (∀ e, e ∈ take (Z.to_nat i) (entries p) → comparator e.1 key < 0) ∧
    (∀ e, e ∈ drop (Z.to_nat i) (entries p) → comparator e.1 key >= 0) ∧
    ((∀ e, e ∈ entries p → comparator e.1 key ≠ 0) →
     keys_ascending comparator (array_ p') 0 (GetSize (header p'))).
Proof.
  intros H1 Hlen Hcan Hasc.
  destruct (Insert_entries comparator p key value H1 Hlen Hcan Hasc)
    as (i & p' & Hi & Hr & Hins & Hhd & Hnext & _ & Hent & Hlt & Hge & Hasc').
  exists i, p'. rewrite Hhd.
  change (GetSize (IncreaseSize 1 (header p))) with (GetSize (header p) + 1).
  by repeat (split; [done|]).
Qed.

(** X18: on a leaf with strictly ascending keys, [RemoveAndDeleteRecord]
    of a key the leaf does not hold returns the size and changes nothing;
    of a key the leaf holds it returns the size minus one and deletes the
    entry of that key: the other entries keep their order, the key is no
    longer in the leaf and the keys are still strictly ascending. *)
Theorem leaf_remove_deletes_the_key p key :
  0 ≤ GetSize (header p) →
  GetSize (header p) ≤ Z.of_nat (length (array_ p)) →
  1 ≤ Z.of_nat (length (array_ p)) →
  keys_ascending comparator (array_ p) 0 (GetSize (header p)) →
  ((∀ e, e ∈ entries p → comparator e.1 key ≠ 0) ∧
   RemoveAndDeleteRecord key comparator p = Ok (GetSize (header p), p)) ∨
  (∃ (i : nat) e p',
     entries p !! i = Some e ∧ comparator e.1 key = 0 ∧
     RemoveAndDeleteRecord key comparator p = Ok (GetSize (header p) - 1, p') ∧
     GetSize (header p') = GetSize (header p) - 1 ∧
     next_page_id_ p' = next_page_id_ p ∧
     entries p' = delete i (entries p) ∧
     (∀ e', e' ∈ entries p' → comparator e'.1 key ≠ 0) ∧
     keys_ascending comparator (array_ p') 0 (GetSize (header p'))).
Proof.
  intros H0 Hlen H1 Hasc.
  destruct (RemoveAndDeleteRecord_entries comparator p key H0 Hlen H1 Hasc)
    as [Hno|(i & e & p' & Hi & He & Hrem & Hhd & Hnext & _ & Hent & Hgone & Hasc')];
    [by left|].
  right. exists i, e, p'. rewrite Hhd.
  change (GetSize (IncreaseSize (-1) (header p))) with (GetSize (header p) + -1).
  replace (GetSize (header p) + -1) with (GetSize (header p) - 1) by lia.
  by repeat (split; [done|]).
Qed.

End leaf_properties.

Section leaf_split_and_merge.
Context {K V : Type}.
Import BPlusTreePage LeafPage.
Implicit Types p recipient : LeafPage.t K V.

(** X20: split.  [MoveHalfTo] of a leaf that has to split, into an empty
    recipient, keeps the first [size / 2] entries and moves the others, in
    order, into the recipient; the recipient takes the place behind this
    leaf in the sibling chain: this leaf links to the recipient, the
    recipient to the former right sibling. *)
Theorem leaf_move_half_splits_in_order p recipient :
  0 ≤ GetSize (header p) →
  GetSize (header p) ≤ Z.of_nat (length (array_ p)) →
  GetSize (header p) - GetSize (header p) `quot` 2 ≤
    Z.of_nat (length (array_ recipient)) →
  NeedToSplit (header p) = true →
  IsEmpty (header recipient) = true →
  ∃ p' recipient',
    MoveHalfTo p recipient = Ok (p', recipient') ∧
    entries p' = take (Z.to_nat (GetSize (header p) `quot` 2)) (entries p) ∧
    entries recipient' = drop (Z.to_nat (GetSize (header p) `quot` 2)) (entries p) ∧
    entries p' ++ entries recipient' = entries p ∧
    GetSize (header p') = GetSize (header p) `quot` 2 ∧
    GetSize (header recipient') =
      GetSize (header p) - GetSize (header p) `quot` 2 ∧
    next_page_id_ p' = GetPageId (header recipient) ∧
    next_page_id_ recipient' = next_page_id_ p.
Proof.
  intros H0 Hlen Hrlen Hsplit Hempty.
  destruct (MoveHalfTo_entries p recipient H0 Hlen Hrlen Hsplit Hempty)
    as (p' & r' & Hm & E1 & E2 & Eapp & S1 & S2 & N1 & N2 & _).
  by exists p', r'.
Qed.

(** X21: merge.  [MoveAllTo] appends the entries of this leaf, in order, to
    those of a recipient that has room for them, empties this leaf and
    hands its right sibling to the recipient. *)
Theorem leaf_move_all_appends p recipient :
  0 ≤ GetSize (header p) →
  GetSize (header p) ≤ Z.of_nat (length (array_ p)) →
  0 ≤ GetSize (header recipient) →
  GetSize (header recipient) + GetSize (header p) ≤
    Z.of_nat (length (array_ recipient)) →
  CanInsertWithoutSplit (GetSize (header p)) (header recipient) = true →
  ∃ p' recipient',
    MoveAllTo p recipient = Ok (p', recipient') ∧
    entries recipient' = entries recipient ++ entries p ∧
    entries p' = [] ∧
    GetSize (header p') = 0 ∧
    GetSize (header recipient') = GetSize (header recipient) + GetSize (header p) ∧
    next_page_id_ recipient' = next_page_id_ p.
Proof. apply MoveAllTo_entries. Qed.

(** X24: a split undone by a merge.  After [MoveHalfTo] of a leaf into an
    empty recipient, [MoveAllTo] of the recipient back into the leaf gives
    the leaf the entries, the size and the right sibling it had before the
    split, and leaves the recipient empty. *)
Theorem leaf_split_then_merge_restores p recipient :
  0 ≤ GetSize (header p) →
  GetSize (header p) ≤ Z.of_nat (length (array_ p)) →
  GetSize (header p) - GetSize (header p) `quot` 2 ≤
    Z.of_nat (length (array_ recipient)) →
  NeedToSplit (header p) = true →
  IsEmpty (header recipient) = true →
  CanInsertWithoutSplit (GetSize (header p) - GetSize (header p) `quot` 2)
    (SetSize (GetSize (header p) `quot` 2) (header p)) = true →
  ∃ p' recipient' recipient'' p'',
    MoveHalfTo p recipient = Ok (p', recipient') ∧
    MoveAllTo recipient' p' = Ok (recipient'', p'') ∧
    entries p'' = entries p ∧
    entries recipient'' = [] ∧
    GetSize (header p'') = GetSize (header p) ∧
    next_page_id_ p'' = next_page_id_ p.
Proof.
  intros H0 Hlen Hrlen Hsplit Hempty Hcan.
  destruct (MoveHalfTo_entries p recipient H0 Hlen Hrlen Hsplit Hempty)
    as (p' & r' & Hm & E1 & E2 & Eapp & S1 & S2 & N1 & N2 & Hh & Ha & Hl).
  assert (Hhalf : 0 ≤ GetSize (header p) `quot` 2 ≤ GetSize (header p)).
  { rewrite Z.quot_div_nonneg by lia. split.
    - apply Z.div_pos; lia.
    - apply Z.div_le_upper_bound; lia. }
  destruct (MoveAllTo_entries r' p') as (r'' & p'' & Hm2 & E3 & E4 & S3 & S4 & N3).
  - lia.
  - rewrite S2, Hl. lia.
  - lia.
  - rewrite Ha, S1, S2. lia.
  - by rewrite S2, Hh.
  - exists p', r', r'', p''. split; [done|]. split; [done|].
    split; [by rewrite E3|]. split; [done|]. split; [lia|]. by rewrite N3.
Qed.

End leaf_split_and_merge.

Section leaf_examples.
Import BPlusTreePage LeafPage Examples.

Lemma leaf_key_index_lower_bound_witness :
  ∃ i, KeyIndex 2 int_comparator leaf_A = Ok i ∧
    0 ≤ i ≤ GetSize (header leaf_A) ∧
    (∀ j e, 0 ≤ j < i → load (array_ leaf_A) j = Ok e →
            int_comparator e.1 2 < 0) ∧
    (i < GetSize (header leaf_A) →
     ∃ e, load (array_ leaf_A) i = Ok e ∧ int_comparator e.1 2 >= 0).
Proof.
  apply (leaf_key_index_lower_bound int_comparator leaf_A 2).
  - by vm_compute.
  - by vm_compute.
  - apply keys_ascending_check. vm_compute. reflexivity.
Defined.

Lemma leaf_lookup_finds_the_stored_entry_witness :
  ∃ r, Lookup 2 int_comparator leaf_A = Ok r ∧
    (∀ v, r = Some v ↔ ∃ k, (k, v) ∈ entries leaf_A ∧ int_comparator k 2 = 0) ∧
    (GetSize (header leaf_A) = 0 → r = None).
Proof.
  apply (leaf_lookup_finds_the_stored_entry int_comparator leaf_A 2).
  - by vm_compute.
  - by vm_compute.
  - by vm_compute.
  - apply keys_ascending_check. vm_compute. reflexivity.
Defined.

Lemma leaf_insert_keeps_order_witness :
  ∃ i p',
    KeyIndex 3 int_comparator leaf_A = Ok i ∧ 0 ≤ i ≤ GetSize (header leaf_A) ∧
    Insert 3 300 int_comparator leaf_A = Ok (GetSize (header leaf_A) + 1, p') ∧
    GetSize (header p') = GetSize (header leaf_A) + 1 ∧
    next_page_id_ p' = next_page_id_ leaf_A ∧
    entries p' =
      take (Z.to_nat i) (entries leaf_A) ++
      (3, 300) :: drop (Z.to_nat i) (entries leaf_A) ∧
    (∀ e, e ∈ take (Z.to_nat i) (entries leaf_A) → int_comparator e.1 3 < 0) ∧
    (∀ e, e ∈ drop (Z.to_nat i) (entries leaf_A) → int_comparator e.1 3 >= 0) ∧
    ((∀ e, e ∈ entries leaf_A → int_comparator e.1 3 ≠ 0) →
     keys_ascending int_comparator (array_ p') 0 (GetSize (header p'))).
Proof.
  apply (leaf_insert_keeps_order int_comparator leaf_A 3 300).
  - by vm_compute.
  - by vm_compute.
  - reflexivity.
  - apply keys_ascending_check. vm_compute. reflexivity.
Defined.

Lemma leaf_insert_then_lookup_witness :
  ∃ p', Insert 3 300 int_comparator leaf_A = Ok (GetSize (header leaf_A) + 1, p') ∧
    Lookup 3 int_comparator p' = Ok (Some 300) ∧
    ∀ k, int_comparator 3 k ≠ 0 →
         Lookup k int_comparator p' = Lookup k int_comparator leaf_A.
Proof.
  apply (leaf_insert_then_lookup int_comparator leaf_A 3 300).
  - by vm_compute.
  - by vm_compute.
  - reflexivity.
  - apply keys_ascending_check. vm_compute. reflexivity.
  - intros e He. change (entries leaf_A) with [(1, 100); (2, 200)] in He.
    apply elem_of_cons in He as [->|He]; [by vm_compute|].
    apply elem_of_cons in He as [->|He]; [by vm_compute|].
    by apply elem_of_nil in He.
Defined.

Lemma leaf_remove_deletes_the_key_witness :
  ((∀ e, e ∈ entries leaf_A → int_comparator e.1 1 ≠ 0) ∧
   RemoveAndDeleteRecord 1 int_comparator leaf_A =
     Ok (GetSize (header leaf_A), leaf_A)) ∨
  (∃ (i : nat) e p',
     entries leaf_A !! i = Some e ∧ int_comparator e.1 1 = 0 ∧
     RemoveAndDeleteRecord 1 int_comparator leaf_A =
       Ok (GetSize (header leaf_A) - 1, p') ∧
     GetSize (header p') = GetSize (header leaf_A) - 1 ∧
     next_page_id_ p' = next_page_id_ leaf_A ∧
     entries p' = delete i (entries leaf_A) ∧
     (∀ e', e' ∈ entries p' → int_comparator e'.1 1 ≠ 0) ∧
     keys_ascending int_comparator (array_ p') 0 (GetSize (header p'))).
Proof.
  apply (leaf_remove_deletes_the_key int_comparator leaf_A 1).
  - by vm_compute.
  - by vm_compute.
  - by vm_compute.
  - apply keys_ascending_check. vm_compute. reflexivity.
Defined.

Lemma leaf_insert_then_remove_restores_witness :
  ∃ p' p'',
    Insert 3 300 int_comparator leaf_A = Ok (GetSize (header leaf_A) + 1, p') ∧
    RemoveAndDeleteRecord 3 int_comparator p' = Ok (GetSize (header leaf_A), p'') ∧
    entries p'' = entries leaf_A ∧
    GetSize (header p'') = GetSize (header leaf_A) ∧
    next_page_id_ p'' = next_page_id_ leaf_A.
Proof.
  apply (leaf_insert_then_remove_restores int_comparator leaf_A 3 300).
  - by vm_compute.
  - by vm_compute.
  - reflexivity.
  - apply keys_ascending_check. vm_compute. reflexivity.
  - intros e He. change (entries leaf_A) with [(1, 100); (2, 200)] in He.
    apply elem_of_cons in He as [->|He]; [by vm_compute|].
    apply elem_of_cons in He as [->|He]; [by vm_compute|].
    by apply elem_of_nil in He.
Defined.

Lemma leaf_move_half_splits_in_order_witness :
  ∃ p' recipient',
    MoveHalfTo leaf_full leaf_fresh = Ok (p', recipient') ∧
    entries p' =
      take (Z.to_nat (GetSize (header leaf_full) `quot` 2)) (entries leaf_full) ∧
    entries recipient' =
      drop (Z.to_nat (GetSize (header leaf_full) `quot` 2)) (entries leaf_full) ∧
    entries p' ++ entries recipient' = entries leaf_full ∧
    GetSize (header p') = GetSize (header leaf_full) `quot` 2 ∧
    GetSize (header recipient') =
      GetSize (header leaf_full) - GetSize (header leaf_full) `quot` 2 ∧
    next_page_id_ p' = GetPageId (header leaf_fresh) ∧
    next_page_id_ recipient' = next_page_id_ leaf_full.
Proof.
  apply (leaf_move_half_splits_in_order leaf_full leaf_fresh).
  - by vm_compute.
  - by vm_compute.
  - by vm_compute.
  - reflexivity.
  - reflexivity.
Defined.

Lemma leaf_move_all_appends_witness :
  ∃ p' recipient',
    MoveAllTo leaf_B leaf_A = Ok (p', recipient') ∧
    entries recipient' = entries leaf_A ++ entries leaf_B ∧
    entries p' = [] ∧
    GetSize (header p') = 0 ∧
    GetSize (header recipient') =
      GetSize (header leaf_A) + GetSize (header leaf_B) ∧
    next_page_id_ recipient' = next_page_id_ leaf_B.
Proof.
  apply (leaf_move_all_appends leaf_B leaf_A).
  - by vm_compute.
  - by vm_compute.
  - by vm_compute.
  - by vm_compute.
  - reflexivity.
Defined.

Lemma leaf_move_first_to_end_of_witness :
  ∃ first p' recipient',
    MoveFirstToEndOf leaf_B leaf_A = Ok (p', recipient') ∧
    entries leaf_B = first :: entries p' ∧
    entries recipient' = entries leaf_A ++ [first] ∧
    entries recipient' ++ entries p' = entries leaf_A ++ entries leaf_B ∧
    GetSize (header p') = GetSize (header leaf_B) - 1 ∧
    GetSize (header recipient') = GetSize (header leaf_A) + 1 ∧
    next_page_id_ p' = next_page_id_ leaf_B ∧
    next_page_id_ recipient' = next_page_id_ leaf_A.
Proof.
  apply (leaf_move_first_to_end_of leaf_B leaf_A).
  - by vm_compute.
  - by vm_compute.
  - by vm_compute.
  - by vm_compute.
  - reflexivity.
Defined.

Lemma leaf_copy_first_from_prepends_witness :
  ∃ p', CopyFirstFrom (0, 50) leaf_A = Ok p' ∧
    entries p' = (0, 50) :: entries leaf_A ∧
    header p' = IncreaseSize 1 (header leaf_A) ∧
    next_page_id_ p' = next_page_id_ leaf_A ∧
    length (array_ p') = length (array_ leaf_A).
Proof.
  apply (leaf_copy_first_from_prepends (0, 50) leaf_A).
  - by vm_compute.
  - by vm_compute.
  - reflexivity.
Defined.

Lemma leaf_split_then_merge_restores_witness :
  ∃ p' recipient' recipient'' p'',
    MoveHalfTo leaf_full leaf_fresh = Ok (p', recipient') ∧
    MoveAllTo recipient' p' = Ok (recipient'', p'') ∧
    entries p'' = entries leaf_full ∧
    entries recipient'' = [] ∧
    GetSize (header p'') = GetSize (header leaf_full) ∧
    next_page_id_ p'' = next_page_id_ leaf_full.
Proof.
  apply (leaf_split_then_merge_restores leaf_full leaf_fresh).
  - by vm_compute.
  - by vm_compute.
  - by vm_compute.
  - reflexivity.
  - reflexivity.
  - reflexivity.
Defined.

End leaf_examples.

(** ** Properties of the internal page *)

Section internal_properties.
Context {K V : Type}.
Import BPlusTreePage InternalPage.
Implicit Types p : InternalPage.t K V.

(** X27: [Remove] of an index within the size deletes the entry at that
    index: the entries behind it move one place to the front, the others
    are not touched and the size goes down by one.  An index outside of
    [0, size) fails the assertion. *)
Theorem internal_remove_deletes_the_slot p index :
  GetSize (header p) ≤ Z.of_nat (length (array_ p)) →
  (0 ≤ index < GetSize (header p) →
   ∃ p', Remove index p = Ok p' ∧
     entries p' = delete (Z.to_nat index) (entries p) ∧
     GetSize (header p') = GetSize (header p) - 1 ∧
     length (array_ p') = length (array_ p)) ∧
  (¬ (0 ≤ index < GetSize (header p)) → Remove index p = Err AssertionFailed).
Proof. apply Remove_entries. Qed.

End internal_properties.

Section internal_examples.
Import BPlusTreePage InternalPage Examples.

Lemma internal_value_index_first_match_witness :
  ∃ r, ValueIndex 11 internal_three = Ok r ∧
    ((r = -1 ∧ ∀ e, e ∈ entries internal_three → e.2 ≠ 11) ∨
     (0 ≤ r < GetSize (header internal_three) ∧
      ValueAt r internal_three = Ok 11 ∧
      ∀ j e, 0 ≤ j < r → load (array_ internal_three) j = Ok e → e.2 ≠ 11)).
Proof.
  apply (internal_value_index_first_match internal_three 11).
  - by vm_compute.
  - by vm_compute.
Defined.

Lemma internal_new_root_lookup_witness :
  ∃ p', PopulateNewRoot 10 15 11 internal_three = Ok p' ∧
    GetSize (header p') = 2 ∧
    ValueAt 0 p' = Ok 10 ∧
    KeyAt 1 p' = Ok 15 ∧
    ValueAt 1 p' = Ok 11 ∧
    KeyAt 0 p' = KeyAt 0 internal_three ∧
    ∀ key, Lookup key int_comparator p' =
      Ok (if decide (int_comparator 15 key > 0) then 10 else 11).
Proof.
  apply (internal_new_root_lookup internal_three 10 15 11 int_comparator).
  by vm_compute.
Defined.

Lemma internal_remove_deletes_the_slot_witness :
  (0 ≤ 1 < GetSize (header internal_three) →
   ∃ p', Remove 1 internal_three = Ok p' ∧
     entries p' = delete (Z.to_nat 1) (entries internal_three) ∧
     GetSize (header p') = GetSize (header internal_three) - 1 ∧
     length (array_ p') = length (array_ internal_three)) ∧
  (¬ (0 ≤ 1 < GetSize (header internal_three)) →
   Remove 1 internal_three = Err AssertionFailed).
Proof.
  apply (internal_remove_deletes_the_slot internal_three 1).
  by vm_compute.
Defined.

Lemma internal_remove_then_only_child_witness :
  ∃ p' p'' v,
    Remove 0 internal_two = Ok p' ∧
    RemoveAndReturnOnlyChild p' = Ok (v, p'') ∧
    ValueAt (1 - 0) internal_two = Ok v ∧
    GetSize (header p'') = 0.
Proof.
  apply (internal_remove_then_only_child internal_two 0).
  - reflexivity.
  - by vm_compute.
  - by vm_compute.
Defined.

End internal_examples.
